(** * SpongeBob front end: orchestration core

    A shallow embedding of the automation core of the front end
    (wallet generation and encrypted persistence, the testnet executor,
    cascade funding, bulk backup and restore) and the properties proved
    about it.

    The program is asynchronous JavaScript running on one thread.  It is
    embedded as state-passing code over one [State] record that holds the
    module singletons ([walletManager], [testnetExecutor],
    [cascadeFunding]), the browser storage they share, and cursors into the
    sources of non-determinism.  Everything the host decides (random draws,
    the clock, the moment the user presses stop, number formatting, the Web
    Crypto primitives) is an operation of the class [Host]; every theorem
    holds for every host.

    While a timer is pending the event loop runs other handlers of the
    page.  What they do is an operation of the class [Page].  On the page
    [isolated] the only handler that runs is the one of the stop button,
    when the host says so; a theorem that names no page is about one call
    on that page, which is how the calls are read when nothing else of the
    page runs during them.  The theorems about two overlapping runs name
    their page. *)

From Stdlib Require Import ZArith QArith Qround String Ascii List Lia.
From stdpp Require Import base list gmap strings pretty.

Open Scope string_scope.
Open Scope Z_scope.
Open Scope list_scope.

(** ** JavaScript completion values *)

(** A call either returns a value or throws [new Error(msg)]. *)
Inductive result (A : Type) : Type :=
| Ok (a : A)
| Throw (msg : string).
Arguments Ok {A} a.
Arguments Throw {A} msg.

Definition is_ok {A} (r : result A) : bool :=
  match r with Ok _ => true | Throw _ => false end.

(** ** The host *)

Class Host := {
  (** [Math.random()]: the k-th call returns
      [(random_num k mod 2^53) / 2^53], a value in [0, 1). *)
  random_num : nat -> Z;
  (** whether the stop button is pressed while the k-th timer is pending *)
  stop_requested : nat -> bool;
  (** [Date.now()] read after k timers have elapsed *)
  Date_now : nat -> Z;
  (** JavaScript numbers, as far as cascade funding uses them *)
  number : Type;
  parseFloat : string -> number;
  toFixed6 : number -> string;
  num_toString : number -> string;
  num_add : number -> number -> number;
  num_sub : number -> number -> number;
  num_max : number -> number -> number;
  num_le : number -> number -> bool;
  num_0 : number;
  num_0_001 : number;
  (** Web Crypto; [None] stands for a rejected promise or a thrown error *)
  CryptoKey : Type;
  importKey : string -> option CryptoKey;
  generateKey : nat -> option CryptoKey;
  exportKey : CryptoKey -> option string;
  getRandomValues : nat -> nat -> list Z;
  subtle_encrypt : CryptoKey -> list Z -> list Z -> option (list Z);
  (** how a Web Crypto call fails: [true] when its promise is rejected by
      a later task, [false] when the failure is seen at once
      ([crypto.subtle] is missing, the call throws, or the promise it
      returns is rejected already).  A call that succeeds is always
      settled by a later task. *)
  rejects_later : bool;
  (** IndexedDB: whether the failure of a request is thrown at the code
      that awaits it.  The code awaits the request objects as they are,
      so it is not ([false]): the failure only aborts the transaction.
      The theorems hold either way. *)
  request_error_throws : bool
}.

(** ** Data model *)

(** A wallet object, as built by [_generateEVMWallet] and
    [_generateSolanaWallet]. *)
Record Wallet := mkWallet {
  index : Z;
  chainType : string;
  address : string;
  privateKey : string;
  mnemonic : string;
  timestamp : Z;
  balance : string;
  completed : list string
}.

Definition set_balance (b : string) (w : Wallet) : Wallet :=
  mkWallet (index w) (chainType w) (address w) (privateKey w) (mnemonic w)
           (timestamp w) b (completed w).

Definition set_completed (c : list string) (w : Wallet) : Wallet :=
  mkWallet (index w) (chainType w) (address w) (privateKey w) (mnemonic w)
           (timestamp w) (balance w) c.

Definition set_secrets (pk mn : string) (w : Wallet) : Wallet :=
  mkWallet (index w) (chainType w) (address w) pk mn
           (timestamp w) (balance w) (completed w).

(** A testnet descriptor; [tasks = None] is a descriptor without a task
    list. *)
Record Testnet := mkTestnet {
  name : string;
  chain : string;
  tasks : option (list string)
}.

(** The [config] object of [executeAll]; a delay of 0 stands for a falsy
    value (0, NaN or a missing field). *)
Record Config := mkConfig {
  randomizeOrder : bool;
  testnetDelay : Z;
  walletDelay : Z;
  randomizeGas : bool
}.

(** [testnetExecutor.stats] *)
Module Stats.
Record t := mk {
  totalTasks : Z;
  completed : Z;
  successful : Z;
  failed : Z
}.
End Stats.

(** ** IndexedDB *)

(** Values stored in object store records. *)
Inductive JValue :=
| JNull
| JNum (n : Z)
| JStr (s : string)
| JStrs (l : list string).

(** A stored object: its own properties, in insertion order. *)
Definition Item := list (string * JValue).

(** Valid keys; numbers sort before strings, strings before arrays. *)
Inductive Key :=
| KNum (n : Z)
| KStr (s : string)
| KStrs (l : list string).

#[export] Instance Key_eq_dec : EqDecision Key.
Proof. solve_decision. Defined.

#[export] Instance JValue_eq_dec : EqDecision JValue.
Proof. solve_decision. Defined.

(** An object store.  [keyPath] names a property of the stored objects,
    as it does in every store the program creates ([index], [key], [id],
    [name]); the key paths that a value which is no object can satisfy
    (the empty path, [length] on a string) are not modelled. *)
Record ObjectStore := mkStore {
  keyPath : string;
  autoIncrement : bool;
  keyGenerator : Z;
  records : list (Key * Item)
}.

Abbreviation Database := (gmap string ObjectStore).

(** A connection handle, as [openDB] resolves it. *)
Inductive IDBDatabase := Connection.

(** A transaction in progress over one object store: the working copy of
    the store, whether a request has failed, and the task that created the
    transaction.  A transaction is active in that task only: once control
    has returned to the event loop it takes no more requests. *)
Record IDBTransaction := mkTx {
  tx_name : string;
  tx_store : ObjectStore;
  tx_failed : bool;
  tx_task : nat
}.

(** The object a store method returns.  It is not a promise, so
    [await request] yields the request itself, at once.  [req_result] is
    what its property [result] holds once the request has succeeded;
    [result], [error], [source], [transaction] and [readyState] are the
    only properties it has. *)
Record IDBRequest (A : Type) := mkRequest { req_result : A }.
Arguments mkRequest {A} req_result.
Arguments req_result {A} _.

(** ** Output sinks *)

Inductive Output :=
| Activity (message severity : string)
| Toast (message severity : string)
| Progress (percent : Z)
| Console (message : string).

(** Steps recorded for reasoning: the simulated transfers cascade funding
    starts and the failures it catches, the units of work the executor
    runs or skips, and the objects handed to [store.add] by
    [saveWallets].  A wallet is named by its position in
    [walletManager.wallets]. *)
Inductive Call :=
| SimulateFunding (fromWallet toWallet : nat)
| SimulateReverseFunding (fromWallet : nat) (toAddress : string)
| TransferFailed (fromWallet : nat) (message : string)
| ExecuteWalletTasks (testnet : string) (wallet : nat)
| SkipCompleted (testnet : string) (wallet : nat)
| StoreAdd (item : Item).

#[export] Instance Call_eq_dec : EqDecision Call.
Proof. solve_decision. Defined.

(** ** Program state *)

(** [wallets], [db]: the fields of [walletManager]; [idb]: the database
    named [DB_NAME], if it exists; [encryptionKey]: that entry of
    [localStorage]; [exec_isRunning], [stats]: the fields of
    [testnetExecutor]; [fund_isRunning]: [cascadeFunding.isRunning];
    [n_random], [n_timer], [n_crypto]: how many random draws, timers and
    Web Crypto random requests have been consumed; [n_task]: how many
    times the code has resumed in a later task of the event loop;
    [output]: what the sinks have received.  [calls] and [observed] are
    ghost fields: the steps taken so far, and the statistics and steps
    visible at each suspension. *)
Record State := mkState {
  wallets : list Wallet;
  db : option IDBDatabase;
  idb : option Database;
  encryptionKey : option string;
  exec_isRunning : bool;
  stats : Stats.t;
  fund_isRunning : bool;
  n_random : nat;
  n_timer : nat;
  n_crypto : nat;
  n_task : nat;
  output : list Output;
  observed : list (Stats.t * list Call);
  calls : list Call
}.

Definition set_wallets v (s : State) : State :=
  mkState v (db s) (idb s) (encryptionKey s) (exec_isRunning s) (stats s)
          (fund_isRunning s) (n_random s) (n_timer s) (n_crypto s)
          (n_task s) (output s) (observed s) (calls s).
Definition set_db v (s : State) : State :=
  mkState (wallets s) v (idb s) (encryptionKey s) (exec_isRunning s)
          (stats s) (fund_isRunning s) (n_random s) (n_timer s) (n_crypto s)
          (n_task s) (output s) (observed s) (calls s).
Definition set_idb v (s : State) : State :=
  mkState (wallets s) (db s) v (encryptionKey s) (exec_isRunning s)
          (stats s) (fund_isRunning s) (n_random s) (n_timer s) (n_crypto s)
          (n_task s) (output s) (observed s) (calls s).
Definition set_encryptionKey v (s : State) : State :=
  mkState (wallets s) (db s) (idb s) v (exec_isRunning s) (stats s)
          (fund_isRunning s) (n_random s) (n_timer s) (n_crypto s)
          (n_task s) (output s) (observed s) (calls s).
Definition set_exec_isRunning v (s : State) : State :=
  mkState (wallets s) (db s) (idb s) (encryptionKey s) v (stats s)
          (fund_isRunning s) (n_random s) (n_timer s) (n_crypto s)
          (n_task s) (output s) (observed s) (calls s).
Definition set_stats v (s : State) : State :=
  mkState (wallets s) (db s) (idb s) (encryptionKey s) (exec_isRunning s) v
          (fund_isRunning s) (n_random s) (n_timer s) (n_crypto s)
          (n_task s) (output s) (observed s) (calls s).
Definition set_fund_isRunning v (s : State) : State :=
  mkState (wallets s) (db s) (idb s) (encryptionKey s) (exec_isRunning s)
          (stats s) v (n_random s) (n_timer s) (n_crypto s) (n_task s)
          (output s) (observed s) (calls s).
Definition set_n_random v (s : State) : State :=
  mkState (wallets s) (db s) (idb s) (encryptionKey s) (exec_isRunning s)
          (stats s) (fund_isRunning s) v (n_timer s) (n_crypto s) (n_task s)
          (output s) (observed s) (calls s).
Definition set_n_timer v (s : State) : State :=
  mkState (wallets s) (db s) (idb s) (encryptionKey s) (exec_isRunning s)
          (stats s) (fund_isRunning s) (n_random s) v (n_crypto s)
          (n_task s) (output s) (observed s) (calls s).
Definition set_n_crypto v (s : State) : State :=
  mkState (wallets s) (db s) (idb s) (encryptionKey s) (exec_isRunning s)
          (stats s) (fund_isRunning s) (n_random s) (n_timer s) v (n_task s)
          (output s) (observed s) (calls s).
Definition set_n_task v (s : State) : State :=
  mkState (wallets s) (db s) (idb s) (encryptionKey s) (exec_isRunning s)
          (stats s) (fund_isRunning s) (n_random s) (n_timer s) (n_crypto s)
          v (output s) (observed s) (calls s).
Definition set_output v (s : State) : State :=
  mkState (wallets s) (db s) (idb s) (encryptionKey s) (exec_isRunning s)
          (stats s) (fund_isRunning s) (n_random s) (n_timer s) (n_crypto s)
          (n_task s) v (observed s) (calls s).
Definition set_observed v (s : State) : State :=
  mkState (wallets s) (db s) (idb s) (encryptionKey s) (exec_isRunning s)
          (stats s) (fund_isRunning s) (n_random s) (n_timer s) (n_crypto s)
          (n_task s) (output s) v (calls s).
Definition set_calls v (s : State) : State :=
  mkState (wallets s) (db s) (idb s) (encryptionKey s) (exec_isRunning s)
          (stats s) (fund_isRunning s) (n_random s) (n_timer s) (n_crypto s)
          (n_task s) (output s) (observed s) v.

(** ** The monad of asynchronous code *)

Definition M (A : Type) : Type := State -> result A * State.

Definition ret {A} (a : A) : M A := fun s => (Ok a, s).

Definition throw {A} (msg : string) : M A := fun s => (Throw msg, s).

Definition bind {A B} (m : M A) (f : A -> M B) : M B := fun s =>
  match m s with
  | (Ok a, s') => f a s'
  | (Throw e, s') => (Throw e, s')
  end.

Notation "'let*' x ':=' c 'in' k" := (bind c (fun x => k))
  (at level 10, x pattern, c at level 100, k at level 200).
Notation "c '>>' k" := (bind c (fun _ => k))
  (at level 70, right associativity).

(** [try { m } catch (error) { h error.message }] *)
Definition try_catch {A} (m : M A) (h : string -> M A) : M A := fun s =>
  match m s with
  | (Ok a, s') => (Ok a, s')
  | (Throw e, s') => h e s'
  end.

(** [try { m } finally { f }], for a [finally] block that cannot throw *)
Definition try_finally {A} (m : M A) (f : State -> State) : M A := fun s =>
  let (r, s') := m s in (r, f s').

Definition get {A} (f : State -> A) : M A := fun s => (Ok (f s), s).
Definition modify (f : State -> State) : M unit := fun s => (Ok tt, f s).
Definition when (b : bool) (m : M unit) : M unit := if b then m else ret tt.

Definition emit (o : Output) : M unit :=
  modify (fun s => set_output (output s ++ [o]) s).

Definition record (c : Call) : M unit :=
  modify (fun s => set_calls (calls s ++ [c]) s).

Definition lift {A} (r : result A) : M A := fun s => (r, s).

(** ** The page

    [during k]: what the other handlers of the page do while the k-th
    timer is pending. *)
Class Page {H : Host} := {
  during : nat -> M unit
}.

(** ** Host primitives *)

Module Js.
Section WithHost.
Context {H : Host} {P : Page}.

Definition Math_random : M Q := fun s =>
  (Ok (Qmake (random_num (n_random s) mod 2 ^ 53) (2 ^ 53)),
   set_n_random (S (n_random s)) s).

Definition Math_floor (q : Q) : Z := Qfloor q.

Definition Math_round (q : Q) : Z := Qfloor (q + (1 # 2)).

Definition Date_now_ : M Z := get (fun s => Date_now (n_timer s)).

(** [App.stopAutomation]: [testnetExecutor.stop()] then
    [cascadeFunding.stop()]. *)
Definition stopAutomation : M unit :=
  modify (set_exec_isRunning false) >>
  emit (Activity "Stopping automation..." "warning") >>
  modify (set_fund_isRunning false) >>
  emit (Activity "Stopping cascade funding..." "warning").

(** The code resumes in a later task of the event loop. *)
Definition next_task : M unit :=
  modify (fun s => set_n_task (S (n_task s)) s).

(** A handler of the page runs to its end; what it throws is not thrown
    at the code that is suspended. *)
Definition handler (m : M unit) : M unit := try_catch m (fun _ => ret tt).

(** [await new Promise(resolve => setTimeout(resolve, ms))]: the
    program yields to the event loop.  While the timer is pending the
    statistics can be read and the other handlers of the page run; then
    the code resumes, in a later task. *)
Definition setTimeout (ms : Z) : M unit :=
  let* k := get n_timer in
  modify (fun s => set_observed (observed s ++ [(stats s, calls s)]) s) >>
  modify (set_n_timer (S k)) >>
  handler (during k) >>
  next_task.

(** [chars[Math.floor(Math.random() * chars.length)]] *)
Definition random_element {A} (d : A) (l : list A) : M A :=
  let* r := Math_random in
  ret (nth (Z.to_nat (Math_floor (r * inject_Z (Z.of_nat (length l))))) l d).

Definition truthy (s : string) : bool := negb (String.eqb s "").
End WithHost.
End Js.

(** The page on which nothing runs during a call but the handler of the
    stop button, at the moments the host chooses. *)
#[export] Instance isolated {H : Host} : Page := {|
  during k := when (stop_requested k) Js.stopAutomation
|}.

(** ** utils/helpers.js *)

Module Helpers.
Section WithHost.
Context {H : Host} {P : Page}.
Import Js.

Definition randomDelay (minMs : Z) (maxMs : option Z) : M unit :=
  let maxMs := default 0 maxMs in
  let min := if (maxMs =? 0)%Z then 1000 else minMs in
  let max := if (maxMs =? 0)%Z then minMs else maxMs in
  let* r := Math_random in
  let delay := Math_floor (r * inject_Z (max - min + 1)) + min in
  setTimeout delay.

(** [[a[i], a[j]] = [a[j], a[i]]] *)
Definition swap {A} (i j : nat) (a : list A) : list A :=
  match a !! i, a !! j with
  | Some x, Some y => <[j:=x]> (<[i:=y]> a)
  | _, _ => a
  end.

(** The loop of [shuffleArray], [i] running from its start value down
    to 1. *)
Fixpoint shuffle_from {A} (i : nat) (shuffled : list A) : M (list A) :=
  match i with
  | O => ret shuffled
  | S i' =>
      let* r := Math_random in
      let j := Z.to_nat (Math_floor (r * inject_Z (Z.of_nat i + 1))) in
      shuffle_from i' (swap i j shuffled)
  end.

Definition shuffleArray {A} (array : list A) : M (list A) :=
  shuffle_from (length array - 1) array.

Definition in_range (lo hi : string) (c : ascii) : bool :=
  match lo, hi with
  | String l "", String h "" =>
      (N_of_ascii l <=? N_of_ascii c)%N && (N_of_ascii c <=? N_of_ascii h)%N
  | _, _ => false
  end.

(** [[a-fA-F0-9]] *)
Definition is_hex_char (c : ascii) : bool :=
  in_range "a" "f" c || in_range "A" "F" c || in_range "0" "9" c.

(** [[1-9A-HJ-NP-Za-km-z]] *)
Definition is_base58_char (c : ascii) : bool :=
  in_range "1" "9" c || in_range "A" "H" c || in_range "J" "N" c
  || in_range "P" "Z" c || in_range "a" "k" c || in_range "m" "z" c.

Definition isValidAddress (address chainType : string) : bool :=
  if String.eqb chainType "evm" then
    (* /^0x[a-fA-F0-9]{40}$/ *)
    match address with
    | String "0" (String "x" rest) =>
        (String.length rest =? 40)%nat
        && forallb is_hex_char (list_ascii_of_string rest)
    | _ => false
    end
  else if String.eqb chainType "solana" then
    (* /^[1-9A-HJ-NP-Za-km-z]{32,44}$/ *)
    (32 <=? String.length address)%nat && (String.length address <=? 44)%nat
    && forallb is_base58_char (list_ascii_of_string address)
  else false.
End WithHost.
End Helpers.

(** What the host decides when a text is decrypted:
    [crypto.subtle.decrypt] with AES-GCM, given the key, the vector and
    the cipher text, and [new TextDecoder().decode]. *)
Class Decrypting {H : Host} := {
  subtle_decrypt : CryptoKey -> list Z -> list Z -> option (list Z);
  TextDecoder_decode : list Z -> string
}.

(** ** utils/crypto.js *)

Module Crypto.
Section WithHost.
Context {H : Host}.
Import Js.

Definition b64alphabet : list ascii :=
  list_ascii_of_string
    "ABCDEFGHIJKLMNOPQRSTUVWXYZabcdefghijklmnopqrstuvwxyz0123456789+/".

Definition b64 (n : Z) : ascii := nth (Z.to_nat n) b64alphabet "="%char.

(** [btoa(String.fromCharCode(...bytes))] *)
Fixpoint base64 (bytes : list Z) : list ascii :=
  match bytes with
  | [] => []
  | [a] => [b64 (a / 4); b64 (a mod 4 * 16); "="%char; "="%char]
  | [a; b] =>
      [b64 (a / 4); b64 (a mod 4 * 16 + b / 16); b64 (b mod 16 * 4);
       "="%char]
  | a :: b :: c :: rest =>
      b64 (a / 4) :: b64 (a mod 4 * 16 + b / 16)
        :: b64 (b mod 16 * 4 + c / 64) :: b64 (c mod 64) :: base64 rest
  end.

Definition btoa (bytes : list Z) : string :=
  string_of_list_ascii (base64 bytes).

(** [new TextEncoder().encode(data)]; a string is held as its UTF-8
    bytes. *)
Definition encode (data : string) : list Z :=
  map (fun c => Z.of_N (N_of_ascii c)) (list_ascii_of_string data).

(** [await promise], for the promise of a Web Crypto call: the code
    resumes in a later task, unless the call failed at once. *)
Definition settled {A} (outcome : option A) (message : string) : M A :=
  match outcome with
  | Some a => next_task >> ret a
  | None => when rejects_later next_task >> throw message
  end.

Definition generateNewKey : M CryptoKey :=
  let* n := get n_crypto in
  let* key := settled (generateKey n) "generateKey failed" in
  modify (set_n_crypto (S n)) >>
  let* jwk := settled (exportKey key) "exportKey failed" in
  modify (set_encryptionKey (Some jwk)) >>
  ret key.

Definition getKey : M CryptoKey :=
  let* keyData := get encryptionKey in
  match keyData with
  | Some jwk =>
      if truthy jwk then settled (importKey jwk) "importKey failed"
      else generateNewKey
  | None => generateNewKey
  end.

Definition getRandomValues_ (len : nat) : M (list Z) := fun s =>
  (Ok (getRandomValues (n_crypto s) len), set_n_crypto (S (n_crypto s)) s).

Definition subtle_encrypt_ (key : CryptoKey) (iv encoded : list Z)
  : M (list Z) :=
  settled (subtle_encrypt key iv encoded) "encrypt failed".

Definition encrypt (data : string) : M string :=
  if negb (truthy data) then ret data
  else
    try_catch
      (let* key := getKey in
       let* iv := getRandomValues_ 12 in
       let encoded := encode data in
       let* encrypted := subtle_encrypt_ key iv encoded in
       let combined := iv ++ encrypted in
       ret (btoa combined))
      (fun error =>
         emit (Console "Encryption failed:") >>
         ret data (* Fallback to unencrypted *)).

(** The value of a character of the base64 alphabet *)
Definition b64index (c : ascii) : option Z :=
  (fun r => Z.of_nat r.1) <$> list_find (fun x => x = c) b64alphabet.

(** Three bytes of every four sextets; five or three bits too many at
    the end are dropped. *)
Fixpoint decode_sextets (l : list Z) : list Z :=
  match l with
  | a :: b :: c :: d :: rest =>
      (a * 4 + b / 16) :: (b mod 16 * 16 + c / 4) :: (c mod 4 * 64 + d)
        :: decode_sextets rest
  | [a; b; c] => [a * 4 + b / 16; b mod 16 * 16 + c / 4]
  | [a; b] => [a * 4 + b / 16]
  | _ => []
  end.

Definition is_whitespace (c : ascii) : bool :=
  let n := N_of_ascii c in
  N.eqb n 9 || N.eqb n 10 || N.eqb n 12 || N.eqb n 13 || N.eqb n 32.

(** One or two [=] at the end are removed. *)
Definition strip_padding (cs : list ascii) : list ascii :=
  match rev cs with
  | last :: r =>
      if Ascii.eqb last "="%char then
        match r with
        | before :: r' => if Ascii.eqb before "="%char then rev r' else rev r
        | [] => rev r
        end
      else cs
  | [] => cs
  end.

(** [atob(data)], the bytes of the result; [None] when it throws
    [InvalidCharacterError]. *)
Definition atob (data : string) : option (list Z) :=
  let cs := List.filter (fun c => negb (is_whitespace c))
                        (list_ascii_of_string data) in
  let cs := if (length cs mod 4 =? 0)%nat then strip_padding cs else cs in
  if (length cs mod 4 =? 1)%nat then None
  else decode_sextets <$> mapM b64index cs.

Context {D : Decrypting}.

Definition subtle_decrypt_ (key : CryptoKey) (iv encrypted : list Z)
  : M (list Z) :=
  settled (subtle_decrypt key iv encrypted) "decrypt failed".

Definition decrypt (encryptedData : string) : M string :=
  if negb (truthy encryptedData) then ret encryptedData
  else
    try_catch
      (let* key := getKey in
       let* combined :=
         match atob encryptedData with
         | Some bytes => ret bytes
         | None => throw "InvalidCharacterError"
         end in
       let iv := take 12 combined in
       let encrypted := drop 12 combined in
       let* decrypted := subtle_decrypt_ key iv encrypted in
       ret (TextDecoder_decode decrypted))
      (fun error =>
         emit (Console "Decryption failed:") >>
         ret encryptedData (* Fallback to returning as-is *)).
End WithHost.
End Crypto.

(** ** utils/db.js *)

Module Backup.
(** The value of a property of [data]: an array of objects; a string; a
    request object, which is what [exportAllData] puts there; another
    object that is not iterable, with the number its property [length]
    holds, if it has one; or [null], a number or a boolean. *)
Inductive Listed :=
| Array (items : list Item)
| Text (text : string)
| Requested (request : IDBRequest (list Item))
| Object (length : option Z)
| Null.

(** The document built by [exportAllData] and read by [importData];
    [data = None] is a document without a [data] property. *)
Record t := mk {
  version : Z;
  timestamp : Z;
  data : option (list (string * Listed))
}.
End Backup.

Module Db.
Section WithHost.
Context {H : Host}.
Import Js.

Definition DB_NAME := "SpongeBob".
Definition DB_VERSION := 1.

Definition createObjectStore (keyPath : string) (autoIncrement : bool)
  : ObjectStore := mkStore keyPath autoIncrement 1 [].

(** [onupgradeneeded], run on a database that does not exist yet *)
Definition upgrade : Database :=
  <["completed" := createObjectStore "id" true]>
  (<["testnets" := createObjectStore "name" false]>
  (<["history" := createObjectStore "id" true]>
  (<["settings" := createObjectStore "key" false]>
  (<["wallets" := createObjectStore "index" false]> ∅)))).

Definition openDB : M IDBDatabase := fun s =>
  match idb s with
  | Some _ => (Ok Connection, s)
  | None => (Ok Connection, set_idb (Some upgrade) s)
  end.

(** [item[keyPath]] *)
Fixpoint property (p : string) (item : Item) : option JValue :=
  match item with
  | [] => None
  | (q, v) :: rest => if String.eqb p q then Some v else property p rest
  end.

Definition key_of_value (v : JValue) : option Key :=
  match v with
  | JNum n => Some (KNum n)
  | JStr s => Some (KStr s)
  | JStrs l => Some (KStrs l)
  | JNull => None
  end.

Fixpoint strings_ltb (a b : list string) : bool :=
  match a, b with
  | _, [] => false
  | [], _ :: _ => true
  | x :: a', y :: b' =>
      String.ltb x y || (String.eqb x y && strings_ltb a' b')
  end.

Definition key_ltb (a b : Key) : bool :=
  match a, b with
  | KNum m, KNum n => m <? n
  | KNum _, _ => true
  | KStr _, KNum _ => false
  | KStr s, KStr t => String.ltb s t
  | KStr _, KStrs _ => true
  | KStrs l, KStrs m => strings_ltb l m
  | KStrs _, _ => false
  end.

Definition has_key (k : Key) (rs : list (Key * Item)) : bool :=
  bool_decide (k ∈ rs.*1).

(** Records are kept in key order. *)
Fixpoint insert_record (k : Key) (item : Item) (rs : list (Key * Item))
  : list (Key * Item) :=
  match rs with
  | [] => [(k, item)]
  | (k', item') :: rest =>
      if key_ltb k k' then (k, item) :: rs
      else (k', item') :: insert_record k item rest
  end.

(** [db.transaction(storeName, mode)] followed by
    [tx.objectStore(storeName)] *)
Definition transaction (_ : IDBDatabase) (storeName : string)
  : M IDBTransaction := fun s =>
  match default ∅ (idb s) !! storeName with
  | Some store => (Ok (mkTx storeName store false (n_task s)), s)
  | None => (Throw "NotFoundError", s)
  end.

(** Whether the transaction still takes requests.  The requests below
    are written as functions of the transaction; they stand for calls
    made while it is active, which [saveWallets], the one caller that
    awaits a promise between two requests, checks with [active]. *)
Definition active (tx : IDBTransaction) : M bool :=
  get (fun s => (n_task s =? tx_task tx)%nat).

(** [store.clear()] *)
Definition clear (tx : IDBTransaction) : IDBTransaction :=
  let st := tx_store tx in
  mkTx (tx_name tx)
       (mkStore (keyPath st) (autoIncrement st) (keyGenerator st) [])
       (tx_failed tx) (tx_task tx).

(** A request whose key is already present fails with
    [ConstraintError] and aborts the transaction. *)
Definition put_record (k : Key) (item : Item) (gen : Z)
    (tx : IDBTransaction) : result unit * IDBTransaction :=
  let st := tx_store tx in
  if tx_failed tx then (Ok tt, tx)
  else if has_key k (records st) then
    (if request_error_throws then Throw "ConstraintError" else Ok tt,
     mkTx (tx_name tx) st true (tx_task tx))
  else
    (Ok tt,
     mkTx (tx_name tx)
          (mkStore (keyPath st) (autoIncrement st) gen
                   (insert_record k item (records st)))
          false (tx_task tx)).

(** [await store.add(item)].  The call throws [DataError] when the item
    carries no valid key and the store generates none. *)
Definition add (item : Item) (tx : IDBTransaction)
  : result unit * IDBTransaction :=
  let st := tx_store tx in
  match property (keyPath st) item with
  | Some v =>
      match key_of_value v with
      | Some k =>
          let gen :=
            match k with
            | KNum n =>
                if autoIncrement st && (keyGenerator st <=? n)
                then n + 1 else keyGenerator st
            | _ => keyGenerator st
            end in
          put_record k item gen tx
      | None => (Throw "DataError", tx)
      end
  | None =>
      if autoIncrement st then
        let n := keyGenerator st in
        put_record (KNum n) (item ++ [(keyPath st, JNum n)]) (n + 1) tx
      else (Throw "DataError", tx)
  end.

(** [store.getAll()] *)
Definition getAll (tx : IDBTransaction) : IDBRequest (list Item) :=
  mkRequest (records (tx_store tx)).*2.

(** The transaction completes once control returns to the event loop:
    its writes are kept unless a request failed. *)
Definition complete (tx : IDBTransaction) : M unit :=
  modify (fun s =>
    if tx_failed tx then s
    else set_idb (Some (<[tx_name tx := tx_store tx]> (default ∅ (idb s)))) s).

(** [for (const item of items) { await store.add(item); }] *)
Fixpoint add_items (items : list Item) (tx : IDBTransaction)
  : result unit * IDBTransaction :=
  match items with
  | [] => (Ok tt, tx)
  | item :: rest =>
      match add item tx with
      | (Ok _, tx') => add_items rest tx'
      | (Throw e, tx') => (Throw e, tx')
      end
  end.

Definition stores : list string :=
  ["wallets"; "settings"; "history"; "testnets"; "completed"].

(** The loop of [exportAllData].  [await store.getAll()] is the request
    object, not the array of records it will hold. *)
Fixpoint export_stores (db : IDBDatabase) (names : list string)
  : M (list (string * Backup.Listed)) :=
  match names with
  | [] => ret []
  | storeName :: rest =>
      let* tx := transaction db storeName in
      let request := getAll tx in
      let* tail := export_stores db rest in
      ret ((storeName, Backup.Requested request) :: tail)
  end.

Definition exportAllData : M Backup.t :=
  let* db := openDB in
  let* now := Date_now_ in
  let* data := export_stores db stores in
  ret (Backup.mk DB_VERSION now (Some data)).

(** [items && items.length > 0] *)
Definition has_items (items : Backup.Listed) : bool :=
  match items with
  | Backup.Array items => 0 <? Z.of_nat (length items)
  | Backup.Text text => truthy text && (0 <? Z.of_nat (String.length text))
  | Backup.Requested _ => false
  | Backup.Object (Some length) => 0 <? length
  | Backup.Object None => false
  | Backup.Null => false
  end.

(** The loop over [Object.entries(importData.data)].  After the store
    is cleared, the loop over an array adds its objects; the loop over a
    string meets a character first, which is no object and has none of
    the key paths of the stores, so that [store.add] throws; another
    object is not iterable. *)
Fixpoint import_entries (db : IDBDatabase)
    (entries : list (string * Backup.Listed)) : M unit :=
  match entries with
  | [] => ret tt
  | (storeName, items) :: rest =>
      (if has_items items then
         let* tx := transaction db storeName in
         let tx := clear tx in
         match items with
         | Backup.Array items =>
             let (r, tx) := add_items items tx in
             complete tx >> lift r
         | Backup.Text _ => complete tx >> throw "DataError"
         | _ => complete tx >> throw "TypeError"
         end
       else ret tt) >>
      import_entries db rest
  end.

Definition importData (importData : option Backup.t) : M unit :=
  match importData with
  | Some {| Backup.data := Some data |} =>
      let* db := openDB in
      import_entries db data
  | _ => throw "Invalid import data"
  end.

(** The records of a store but the one with key [k]. *)
Definition delete_record (k : Key) (rs : list (Key * Item))
  : list (Key * Item) :=
  filter (fun r => r.1 ≠ k) rs.

(** [await store.put(item)]: as [add], but a record with the same key
    is replaced. *)
Definition put (item : Item) (tx : IDBTransaction)
  : result unit * IDBTransaction :=
  let st := tx_store tx in
  let write k item gen :=
    if tx_failed tx then (Ok tt, tx)
    else
      (Ok tt,
       mkTx (tx_name tx)
            (mkStore (keyPath st) (autoIncrement st) gen
                     (insert_record k item (delete_record k (records st))))
            false (tx_task tx)) in
  match property (keyPath st) item with
  | Some v =>
      match key_of_value v with
      | Some k =>
          let gen :=
            match k with
            | KNum n =>
                if autoIncrement st && (keyGenerator st <=? n)
                then n + 1 else keyGenerator st
            | _ => keyGenerator st
            end in
          write k item gen
      | None => (Throw "DataError", tx)
      end
  | None =>
      if autoIncrement st then
        let n := keyGenerator st in
        write (KNum n) (item ++ [(keyPath st, JNum n)]) (n + 1)
      else (Throw "DataError", tx)
  end.

(** [store.get(key)]; a result [None] is [undefined]. *)
Definition get_record (k : Key) (tx : IDBTransaction)
  : IDBRequest (option Item) :=
  mkRequest
    (snd <$> (snd <$> list_find (fun r => r.1 = k) (records (tx_store tx)))).

Definition saveSettings (key value : JValue) : M unit :=
  let* db := openDB in
  let* tx := transaction db "settings" in
  let (r, tx) := put [("key", key); ("value", value)] tx in
  complete tx >> lift r.

(** [getSettings]; the result [None] is [undefined].
    [await store.get(key)] is the request object, which is truthy and
    has no property [value]: the record the request finds is not
    read. *)
Definition getSettings (key : JValue) : M (option JValue) :=
  let* db := openDB in
  let* tx := transaction db "settings" in
  match key_of_value key with
  | None => throw "DataError"
  | Some k =>
      let result := get_record k tx in
      ret None
  end.

(** The loop of [clearAllData] *)
Fixpoint clear_stores (db : IDBDatabase) (names : list string) : M unit :=
  match names with
  | [] => ret tt
  | storeName :: rest =>
      let* tx := transaction db storeName in
      let tx := clear tx in
      complete tx >>
      clear_stores db rest
  end.

Definition clearAllData : M unit :=
  let* db := openDB in
  clear_stores db stores.
End WithHost.
End Db.

(** ** modules/walletManager.js *)

Module WalletManager.
Section WithHost.
Context {H : Host} {P : Page}.
Import Js.

Definition WALLET_STORE := "wallets".

Definition hexdigits : list ascii := list_ascii_of_string "0123456789abcdef".

Fixpoint randomChars (n : nat) (chars : list ascii) (result : string)
  : M string :=
  match n with
  | O => ret result
  | S n' =>
      let* c := random_element "0"%char chars in
      randomChars n' chars (result +:+ String c "")
  end.

Definition _generateRandomHex (length : nat) : M string :=
  randomChars length hexdigits "".

(** ToInt32 *)
Definition int32 (n : Z) : Z := (n + 2 ^ 31) mod 2 ^ 32 - 2 ^ 31.

(** The digits of [num] in the given alphabet, most significant first:
    the loop [while (num > 0)] of [_base58Encode], which is also how
    [toString(16)] prints a positive integer. *)
Fixpoint digits (fuel : nat) (alphabet : list ascii) (num : Z)
    (result : string) : string :=
  match fuel with
  | O => result
  | S fuel' =>
      if 0 <? num then
        let radix := Z.of_nat (length alphabet) in
        let remainder := num mod radix in
        digits fuel' alphabet (num / radix)
               (String (nth (Z.to_nat remainder) alphabet "0"%char) result)
      else result
  end.

Definition enough (num : Z) : nat := S (Z.to_nat (Z.log2 num)).

Definition toString16 (n : Z) : string :=
  if n =? 0 then "0" else digits (enough n) hexdigits n "".

Fixpoint repeat_char (c : ascii) (n : nat) : string :=
  match n with O => "" | S n' => String c (repeat_char c n') end.

Definition padStart (targetLength : nat) (c : ascii) (s : string) : string :=
  repeat_char c (targetLength - String.length s) +:+ s.

Definition _simpleHash (input : string) : string :=
  let hash :=
    fold_left
      (fun hash c =>
         let char := Z.of_N (N_of_ascii c) in
         let hash := int32 (hash * 32) - hash + char in
         int32 hash)
      (list_ascii_of_string input) 0 in
  padStart 64 "0"%char (toString16 (Z.abs hash)).

Definition _privateKeyToAddress (privateKey : string) : string :=
  let hash := _simpleHash privateKey in
  "0x" +:+ substring 0 40 hash.

Definition base58alphabet : list ascii :=
  list_ascii_of_string
    "123456789ABCDEFGHJKLMNPQRSTUVWXYZabcdefghijkmnopqrstuvwxyz".

Definition hexval (c : ascii) : Z :=
  let n := Z.of_N (N_of_ascii c) in
  if (48 <=? n) && (n <=? 57) then n - 48
  else if (97 <=? n) && (n <=? 102) then n - 87
  else n - 55.

(** [BigInt('0x' + hex)] *)
Definition BigInt_hex (hex : string) : Z :=
  fold_left (fun acc c => acc * 16 + hexval c) (list_ascii_of_string hex) 0.

Definition _base58Encode (hex : string) : string :=
  let num := BigInt_hex hex in
  let result := digits (enough num) base58alphabet num "" in
  if truthy result then result else "1".

Definition _generateSolanaAddress (privateKey : string) : string :=
  let hash := _simpleHash privateKey in
  _base58Encode (substring 0 64 hash).

Definition words : list string :=
  ["abandon"; "ability"; "able"; "about"; "above"; "absent"; "absorb";
   "abstract"; "absurd"; "abuse"; "access"; "accident"; "account";
   "accuse"; "achieve"; "acid"].

Fixpoint randomWords (n : nat) (mnemonic : list string) : M (list string) :=
  match n with
  | O => ret mnemonic
  | S n' =>
      let* w := random_element "" words in
      randomWords n' (mnemonic ++ [w])
  end.

Definition _generateMnemonic : M string :=
  let* mnemonic := randomWords 12 [] in
  ret (String.concat " " mnemonic).

Definition _generateEVMWallet (index : Z) : M Wallet :=
  let* privateKey := _generateRandomHex 64 in
  let address := _privateKeyToAddress privateKey in
  let* mnemonic := _generateMnemonic in
  let* now := Date_now_ in
  ret (mkWallet index "evm" address privateKey mnemonic now "0" []).

Definition _generateSolanaWallet (index : Z) : M Wallet :=
  let* privateKey := _generateRandomHex 64 in
  let address := _generateSolanaAddress privateKey in
  let* mnemonic := _generateMnemonic in
  let* now := Date_now_ in
  ret (mkWallet index "solana" address privateKey mnemonic now "0" []).

Definition _generateSingleWallet (chainType : string) (index : Z)
  : M Wallet :=
  if String.eqb chainType "evm" then _generateEVMWallet index
  else if String.eqb chainType "solana" then _generateSolanaWallet index
  else throw "Unsupported chain type".

(** [for (let i = 0; i < count; i++)] with [n] iterations left *)
Fixpoint batch_from (n : nat) (i : Z) (chainType : string)
    (startIndex : Z) (wallets : list Wallet) : M (list Wallet) :=
  match n with
  | O => ret wallets
  | S n' =>
      let* wallet := _generateSingleWallet chainType (startIndex + i) in
      batch_from n' (i + 1) chainType startIndex (wallets ++ [wallet])
  end.

Definition _generateBatch (count : Z) (chainType : string) (startIndex : Z)
  : M (list Wallet) :=
  batch_from (Z.to_nat count) 0 chainType startIndex [].

Definition _updateProgress (progress : Z) : M unit := emit (Progress progress).

Definition _delay (ms : Z) : M unit := setTimeout ms.

Definition item_of_wallet (w : Wallet) : Item :=
  [("index", JNum (index w)); ("chainType", JStr (chainType w));
   ("address", JStr (address w)); ("privateKey", JStr (privateKey w));
   ("mnemonic", JStr (mnemonic w)); ("timestamp", JNum (timestamp w));
   ("balance", JStr (balance w)); ("completed", JStrs (completed w))].

(** The loop of [saveWallets]; a throw leaves the requests made so far
    with the transaction.  When [encrypt] has awaited a promise of Web
    Crypto the code is in a later task than the one that created the
    transaction, and [store.add] throws. *)
Fixpoint save_each (ws : list Wallet) (tx : IDBTransaction) : M unit :=
  match ws with
  | [] => Db.complete tx
  | wallet :: rest =>
      let* pk := Crypto.encrypt (privateKey wallet) in
      let* mn := Crypto.encrypt (mnemonic wallet) in
      let encryptedWallet := set_secrets pk mn wallet in
      record (StoreAdd (item_of_wallet encryptedWallet)) >>
      let* active := Db.active tx in
      if negb active then Db.complete tx >> throw "TransactionInactiveError"
      else
        match Db.add (item_of_wallet encryptedWallet) tx with
        | (Ok _, tx') => save_each rest tx'
        | (Throw e, tx') => Db.complete tx' >> throw e
        end
  end.

Definition saveWallets : M unit :=
  let* db := get db in
  match db with
  | None => ret tt
  | Some db =>
      let* tx := Db.transaction db WALLET_STORE in
      let tx := Db.clear tx in
      let* ws := get wallets in
      save_each ws tx
  end.

Definition batchSize := 100.

(** [for (let i = 0; i < count; i += batchSize)] *)
Fixpoint generate_from (fuel : nat) (count : Z) (chainType : string)
    (i : Z) (newWallets : list Wallet) : M (list Wallet) :=
  if i <? count then
    match fuel with
    | O => throw "out of fuel"
    | S fuel' =>
        let batch := Z.min batchSize (count - i) in
        let* batchWallets := _generateBatch batch chainType i in
        let newWallets := newWallets ++ batchWallets in
        let progress :=
          Math_round (inject_Z (i + batch) / inject_Z count * inject_Z 100) in
        _updateProgress progress >>
        _delay 10 >>
        generate_from fuel' count chainType (i + batchSize) newWallets
    end
  else ret newWallets.

Definition generateWallets (count : Z) (chainType : string)
  : M (list Wallet) :=
  if (count <? 1) || (20000 <? count) then
    throw "Wallet count must be between 1 and 20,000"
  else
    let* newWallets := generate_from (Z.to_nat count) count chainType 0 [] in
    modify (fun s => set_wallets (wallets s ++ newWallets) s) >>
    saveWallets >>
    ret newWallets.

Definition getWallets : M (list Wallet) := get wallets.

(** [this.wallets.find(w => w.index === index)], with the position of
    the wallet found *)
Definition getWalletByIndex (idx : Z) : M (option (nat * Wallet)) :=
  get (fun s => list_find (fun w => index w = idx) (wallets s)).

Definition markTestnetCompleted (walletIndex : Z) (testnetName : string)
  : M unit :=
  let* found := getWalletByIndex walletIndex in
  match found with
  | Some (p, wallet) =>
      if bool_decide (testnetName ∈ completed wallet) then ret tt
      else
        modify (fun s =>
          set_wallets
            (<[p := set_completed (completed wallet ++ [testnetName]) wallet]>
               (wallets s)) s) >>
        saveWallets
  | None => ret tt
  end.

(** [deleteAllWallets]; [confirmed] is the answer to [confirm(...)]. *)
Definition deleteAllWallets (confirmed : bool) : M unit :=
  if negb confirmed then ret tt
  else
    modify (set_wallets []) >>
    saveWallets >>
    emit (Toast "All wallets deleted" "success").
End WithHost.
End WalletManager.

(** ** modules/testnetExecutor.js *)

Module TestnetExecutor.
Section WithHost.
Context {H : Host} {P : Page}.
Import Js.

Definition Qlt_bool (x y : Q) : bool := negb (Qle_bool y x).

Definition stop : M unit :=
  modify (set_exec_isRunning false) >>
  emit (Activity "Stopping automation..." "warning").

Definition getStats : M Stats.t := get stats.

Definition incr_completed (st : Stats.t) : Stats.t :=
  Stats.mk (Stats.totalTasks st) (Stats.completed st + 1)
           (Stats.successful st) (Stats.failed st).
Definition incr_successful (st : Stats.t) : Stats.t :=
  Stats.mk (Stats.totalTasks st) (Stats.completed st)
           (Stats.successful st + 1) (Stats.failed st).
Definition incr_failed (st : Stats.t) : Stats.t :=
  Stats.mk (Stats.totalTasks st) (Stats.completed st)
           (Stats.successful st) (Stats.failed st + 1).
Definition with_totalTasks (n : Z) (st : Stats.t) : Stats.t :=
  Stats.mk n (Stats.completed st) (Stats.successful st) (Stats.failed st).

Definition update_stats (f : Stats.t -> Stats.t) : M unit :=
  modify (fun s => set_stats (f (stats s)) s).

Definition updateProgress : M unit :=
  let* st := get stats in
  let progressPercent :=
    Math_round (inject_Z (Stats.completed st) / inject_Z (Stats.totalTasks st)
                * inject_Z 100) in
  emit (Progress progressPercent).

Definition simulateTransaction : M unit :=
  let* r := Math_random in
  let delay := (r * inject_Z 3000 + inject_Z 2000)%Q in
  setTimeout (Math_floor delay).

Definition randomAmount (min max : Q) : M Q :=
  let* r := Math_random in
  ret (r * (max - min) + min)%Q.

Definition wallet_label (wallet : Wallet) : string := pretty (index wallet + 1).

(** [if (Math.random() > p) return ...; else throw new Error(msg)] *)
Definition succeed_above (p : Q) (msg : string) : M unit :=
  let* r := Math_random in
  if Qlt_bool p r then ret tt else throw msg.

Definition claimFaucet (testnet : Testnet) (wallet : Wallet) : M unit :=
  emit (Activity ("Claiming faucet for wallet " +:+ wallet_label wallet) "info") >>
  simulateTransaction >>
  succeed_above 0.1 "Faucet claim failed".

Definition executeSwap (testnet : Testnet) (wallet : Wallet) (config : Config)
  : M unit :=
  emit (Activity ("Executing swap for wallet " +:+ wallet_label wallet) "info") >>
  let* amount :=
    if randomizeGas config then randomAmount 0.001 0.01 else ret 0.005%Q in
  simulateTransaction >>
  succeed_above 0.15 "Swap failed".

Definition executeBridge (testnet : Testnet) (wallet : Wallet) (config : Config)
  : M unit :=
  emit (Activity ("Executing bridge for wallet " +:+ wallet_label wallet) "info") >>
  let* amount :=
    if randomizeGas config then randomAmount 0.001 0.01 else ret 0.005%Q in
  simulateTransaction >>
  succeed_above 0.1 "Bridge failed".

Definition mintNFT (testnet : Testnet) (wallet : Wallet) (config : Config)
  : M unit :=
  emit (Activity ("Minting NFT for wallet " +:+ wallet_label wallet) "info") >>
  let* mintCount :=
    if randomizeOrder config then
      let* r := Math_random in ret (Math_floor (r * inject_Z 3) + 1)
    else ret 1 in
  simulateTransaction >>
  succeed_above 0.1 "NFT mint failed".

Definition executeStake (testnet : Testnet) (wallet : Wallet) : M unit :=
  emit (Activity ("Staking for wallet " +:+ wallet_label wallet) "info") >>
  simulateTransaction >>
  succeed_above 0.15 "Stake failed".

Definition executeCustomTask (testnet : Testnet) (wallet : Wallet) : M unit :=
  emit (Activity ("Executing custom task for wallet " +:+ wallet_label wallet)
                 "info") >>
  simulateTransaction >>
  succeed_above 0.2 "Custom task failed".

Definition executeTask (taskType : string) (testnet : Testnet)
    (wallet : Wallet) (config : Config) : M unit :=
  if String.eqb taskType "faucet" then claimFaucet testnet wallet
  else if String.eqb taskType "swap" then executeSwap testnet wallet config
  else if String.eqb taskType "bridge" then executeBridge testnet wallet config
  else if String.eqb taskType "nft_mint" then mintNFT testnet wallet config
  else if String.eqb taskType "stake" then executeStake testnet wallet
  else if String.eqb taskType "custom" then executeCustomTask testnet wallet
  else emit (Console ("Unknown task type: " +:+ taskType)).

Fixpoint tasks_loop (tasks : list string) (testnet : Testnet)
    (wallet : Wallet) (config : Config) : M unit :=
  match tasks with
  | [] => ret tt
  | task :: rest =>
      let* running := get exec_isRunning in
      if negb running then ret tt
      else
        executeTask task testnet wallet config >>
        Helpers.randomDelay 1000 (Some 3000) >>
        tasks_loop rest testnet wallet config
  end.

Definition executeWalletTasks (testnet : Testnet) (wallet : Wallet)
    (config : Config) : M unit :=
  let tasks := default ["custom"] (tasks testnet) in
  tasks_loop tasks testnet wallet config.

(** One wallet of [executeTestnet] that has not completed the testnet:
    the rest of the loop body. *)
Definition run_wallet (p : nat) (wallet : Wallet) (testnet : Testnet)
    (config : Config) : M unit :=
  try_catch
    (record (ExecuteWalletTasks (name testnet) p) >>
     executeWalletTasks testnet wallet config >>
     WalletManager.markTestnetCompleted (index wallet) (name testnet) >>
     update_stats incr_successful >>
     emit (Activity ("Wallet " +:+ wallet_label wallet +:+ ": "
                     +:+ name testnet +:+ " completed") "info"))
    (fun message =>
       update_stats incr_failed >>
       emit (Activity ("Wallet " +:+ wallet_label wallet +:+ ": "
                       +:+ message) "error")) >>
  update_stats incr_completed >>
  updateProgress >>
  let* running := get exec_isRunning in
  when (negb (walletDelay config =? 0) && running)
       (Helpers.randomDelay (walletDelay config * 1000) None).

(** The loop of [executeTestnet] over [orderedWallets], given as the
    positions of its elements in [walletManager.wallets]. *)
Fixpoint wallets_loop (orderedWallets : list nat) (testnet : Testnet)
    (config : Config) : M unit :=
  match orderedWallets with
  | [] => ret tt
  | p :: rest =>
      let* running := get exec_isRunning in
      if negb running then ret tt
      else
        let* ws := get wallets in
        match ws !! p with
        | None => ret tt
        | Some wallet =>
            if bool_decide (name testnet ∈ completed wallet) then
              record (SkipCompleted (name testnet) p) >>
              update_stats incr_completed >>
              wallets_loop rest testnet config
            else
              run_wallet p wallet testnet config >>
              wallets_loop rest testnet config
        end
  end.

Definition executeTestnet (testnet : Testnet) (config : Config) : M unit :=
  let* ws := get wallets in
  let positions := seq 0 (length ws) in
  let* orderedWallets :=
    if randomizeOrder config then Helpers.shuffleArray positions
    else ret positions in
  wallets_loop orderedWallets testnet config.

Fixpoint testnets_loop (orderedTestnets : list Testnet) (config : Config)
  : M unit :=
  match orderedTestnets with
  | [] => ret tt
  | testnet :: rest =>
      let* running := get exec_isRunning in
      if negb running then ret tt
      else
        emit (Activity ("Starting testnet: " +:+ name testnet) "info") >>
        executeTestnet testnet config >>
        (let* running := get exec_isRunning in
         when (negb (testnetDelay config =? 0) && running)
              (Helpers.randomDelay (testnetDelay config * 1000) None)) >>
        testnets_loop rest config
  end.

Definition executeAll (testnets : list Testnet) (config : Config) : M unit :=
  let* running := get exec_isRunning in
  if running then emit (Toast "Automation already running" "warning")
  else
    modify (set_exec_isRunning true) >>
    modify (set_stats (Stats.mk 0 0 0 0)) >>
    try_finally
      (try_catch
         (let* wallets := WalletManager.getWallets in
          if (length wallets =? 0)%nat then
            throw "No wallets available. Please generate wallets first."
          else if (length testnets =? 0)%nat then
            throw "No testnets available to execute."
          else
            emit (Activity "Starting automation..." "success") >>
            let* orderedTestnets :=
              if randomizeOrder config then Helpers.shuffleArray testnets
              else ret testnets in
            update_stats
              (with_totalTasks
                 (Z.of_nat (length orderedTestnets) * Z.of_nat (length wallets))) >>
            testnets_loop orderedTestnets config >>
            let* running := get exec_isRunning in
            if running then
              emit (Activity "Automation completed!" "success") >>
              let* st := get stats in
              emit (Toast ("Completed: " +:+ pretty (Stats.successful st) +:+ "/"
                           +:+ pretty (Stats.totalTasks st)) "success")
            else
              emit (Activity "Automation stopped by user" "warning") >>
              emit (Toast "Automation stopped" "warning"))
         (fun message =>
            emit (Activity ("Error: " +:+ message) "error") >>
            emit (Toast message "error")))
      (set_exec_isRunning false).
End WithHost.
End TestnetExecutor.

(** ** modules/cascadeFunding.js *)

Module CascadeFunding.
Section WithHost.
Context {H : Host} {P : Page}.
Import Js.

Definition Qlt_bool (x y : Q) : bool := negb (Qle_bool y x).

Definition stop : M unit :=
  modify (set_fund_isRunning false) >>
  emit (Activity "Stopping cascade funding..." "warning").

Definition generateMockTxHash : M string :=
  WalletManager.randomChars 64 WalletManager.hexdigits "0x".

(** [parseFloat(x)] for a number [x] *)
Definition parseFloat_number (x : number) : number :=
  parseFloat (num_toString x).

(** [parseFloat(wallet.balance || 0)] *)
Definition balance_of (wallet : Wallet) : number :=
  if truthy (balance wallet) then parseFloat (balance wallet)
  else parseFloat_number num_0.

Definition update_wallet (p : nat) (f : Wallet -> Wallet) : M unit :=
  modify (fun s =>
    match wallets s !! p with
    | Some w => set_wallets (<[p := f w]> (wallets s)) s
    | None => s
    end).

Record Receipt := mkReceipt {
  from : string;
  to : string;
  amount : number;
  txHash : string
}.

Definition address_at (p : nat) : M string :=
  get (fun s => default "" (address <$> wallets s !! p)).

(** [fromWallet] and [toWallet] are given by position. *)
Definition simulateFunding (fromWallet toWallet : nat)
    (amount gasBuffer : number) : M Receipt :=
  record (SimulateFunding fromWallet toWallet) >>
  let* r := Math_random in
  setTimeout (Math_floor (inject_Z 2000 + r * inject_Z 3000)) >>
  let* r := Math_random in
  if Qlt_bool r 0.1 then throw "Transaction failed: insufficient gas"
  else
    let amountToSend :=
      num_sub (parseFloat_number amount) (parseFloat_number gasBuffer) in
    update_wallet fromWallet (fun w =>
      set_balance (toFixed6 (num_sub (balance_of w) (parseFloat_number amount))) w) >>
    update_wallet toWallet (fun w =>
      set_balance (toFixed6 (num_add (balance_of w) amountToSend)) w) >>
    let* from := address_at fromWallet in
    let* to := address_at toWallet in
    let* txHash := generateMockTxHash in
    ret (mkReceipt from to amountToSend txHash).

Definition simulateReverseFunding (fromWallet : nat) (toAddress : string)
  : M Receipt :=
  record (SimulateReverseFunding fromWallet toAddress) >>
  let* r := Math_random in
  setTimeout (Math_floor (inject_Z 2000 + r * inject_Z 3000)) >>
  let* r := Math_random in
  if Qlt_bool r 0.05 then throw "Transaction failed: network congestion"
  else
    let* ws := get wallets in
    let balance := default (parseFloat_number num_0) (balance_of <$> ws !! fromWallet) in
    let gasReserve := num_0_001 in
    let amountToSend := num_max num_0 (num_sub balance gasReserve) in
    if num_le amountToSend num_0 then throw "Insufficient balance to send"
    else
      update_wallet fromWallet (set_balance (toFixed6 gasReserve)) >>
      let* from := address_at fromWallet in
      let* txHash := generateMockTxHash in
      ret (mkReceipt from toAddress amountToSend txHash).

(** The body of the loop of [fundForward], after the check of
    [isRunning] *)
Definition forward_link (i : nat) (amount gasBuffer : number) : M unit :=
  emit (Activity ("Funding wallet " +:+ pretty (i + 2)%nat
                  +:+ " from wallet " +:+ pretty (i + 1)%nat) "info") >>
  try_catch
    (simulateFunding i (i + 1) amount gasBuffer >>
     Helpers.randomDelay 2000 (Some 8000) >>
     emit (Activity ("Wallet " +:+ pretty (i + 2)%nat
                     +:+ " funded successfully") "info"))
    (fun message =>
       record (TransferFailed i message) >>
       emit (Activity ("Failed to fund wallet " +:+ pretty (i + 2)%nat
                       +:+ ": " +:+ message) "error") >>
       throw message).

(** [for (let i = 0; i < wallets.length - 1; i++)], over the values of
    [i] still to come *)
Fixpoint forward_loop (indices : list nat) (amount gasBuffer : number)
  : M unit :=
  match indices with
  | [] => ret tt
  | i :: rest =>
      let* running := get fund_isRunning in
      if negb running then ret tt
      else
        forward_link i amount gasBuffer >>
        forward_loop rest amount gasBuffer
  end.

Definition fundForward (amount : number) (gasBuffer : option number) : M unit :=
  let gasBuffer := default num_0_001 gasBuffer in
  let* running := get fund_isRunning in
  if running then emit (Toast "Funding already in progress" "warning")
  else
    let* wallets := WalletManager.getWallets in
    if (length wallets <? 2)%nat then
      emit (Toast "Need at least 2 wallets for cascade funding" "error")
    else
      modify (set_fund_isRunning true) >>
      emit (Activity "Starting forward cascade funding..." "info") >>
      try_finally
        (try_catch
           (emit (Activity "Please fund the first wallet manually" "info") >>
            emit (Toast "Fund wallet #1 with testnet tokens to start" "warning") >>
            forward_loop (seq 0 (length wallets - 1)) amount gasBuffer >>
            emit (Activity "Forward cascade completed!" "success") >>
            emit (Toast "Forward funding completed" "success"))
           (fun message =>
              emit (Toast ("Funding failed: " +:+ message) "error")))
        (set_fund_isRunning false).

(** The body of the loop of [fundReverse], after the check of
    [isRunning] *)
Definition reverse_link (i : nat) (destinationAddress : string) : M unit :=
  let* toAddress :=
    if (0 <? i)%nat then address_at (i - 1) else ret destinationAddress in
  emit (Activity ("Sending from wallet " +:+ pretty (i + 1)%nat +:+ " to "
                  +:+ (if (0 <? i)%nat then "wallet " +:+ pretty i
                       else "destination")) "info") >>
  try_catch
    (simulateReverseFunding i toAddress >>
     Helpers.randomDelay 2000 (Some 8000) >>
     emit (Activity ("Wallet " +:+ pretty (i + 1)%nat
                     +:+ " funds sent successfully") "info"))
    (fun message =>
       record (TransferFailed i message) >>
       emit (Activity ("Failed to send from wallet " +:+ pretty (i + 1)%nat
                       +:+ ": " +:+ message) "error")
       (* Continue with other wallets even if one fails *)).

(** [for (let i = wallets.length - 1; i >= 0; i--)], over the values of
    [i] still to come *)
Fixpoint reverse_loop (indices : list nat) (destinationAddress : string)
  : M unit :=
  match indices with
  | [] => ret tt
  | i :: rest =>
      let* running := get fund_isRunning in
      if negb running then ret tt
      else
        reverse_link i destinationAddress >>
        reverse_loop rest destinationAddress
  end.

Definition fundReverse (destinationAddress : string) : M unit :=
  let* running := get fund_isRunning in
  if running then emit (Toast "Funding already in progress" "warning")
  else
    let* wallets := WalletManager.getWallets in
    if (length wallets <? 1)%nat then emit (Toast "No wallets available" "error")
    else if negb (truthy destinationAddress) then
      emit (Toast "Please provide a destination address" "error")
    else
      modify (set_fund_isRunning true) >>
      emit (Activity "Starting reverse cascade funding..." "info") >>
      try_finally
        (try_catch
           (reverse_loop (rev (seq 0 (length wallets))) destinationAddress >>
            emit (Activity "Reverse cascade completed!" "success") >>
            emit (Toast "Reverse funding completed" "success"))
           (fun message =>
              emit (Toast ("Reverse funding failed: " +:+ message) "error")))
        (set_fund_isRunning false).
End WithHost.
End CascadeFunding.

(** ** A concrete host

    Numbers are fixed-point decimals with six places, the cipher is a toy
    one that appends a 16-byte tag; the random draws, the stop schedule and
    whether Web Crypto works are chosen by the caller.  When it does not
    work its calls fail at once, as they do where [crypto.subtle] is
    missing. *)

Module Example.
Definition digit (c : ascii) : option Z :=
  let n := Z.of_N (N_of_ascii c) in
  if (48 <=? n) && (n <=? 57) then Some (n - 48) else None.

Fixpoint int_part (cs : list ascii) (acc : Z) : Z * list ascii :=
  match cs with
  | c :: rest =>
      match digit c with
      | Some d => int_part rest (acc * 10 + d)
      | None => (acc, cs)
      end
  | [] => (acc, [])
  end.

Fixpoint frac_part (cs : list ascii) (scale acc : Z) : Z :=
  match cs with
  | c :: rest =>
      match digit c with
      | Some d => frac_part rest (scale / 10) (acc + d * scale)
      | None => acc
      end
  | [] => acc
  end.

Definition parse_unsigned (cs : list ascii) : Z :=
  let (i, rest) := int_part cs 0 in
  i * 1000000 +
  match rest with
  | "."%char :: f => frac_part f 100000 0
  | _ => 0
  end.

(** micro-units denoted by a decimal numeral *)
Definition parse (s : string) : Z :=
  match list_ascii_of_string s with
  | "-"%char :: cs => - parse_unsigned cs
  | cs => parse_unsigned cs
  end.

Definition decimal (n : Z) : string :=
  if n =? 0 then "0"
  else WalletManager.digits (WalletManager.enough n)
         (list_ascii_of_string "0123456789") n "".

Definition print (n : Z) : string :=
  let a := Z.abs n in
  (if n <? 0 then "-" else "") +:+ decimal (a / 1000000) +:+ "." +:+
  WalletManager.padStart 6 "0"%char (decimal (a mod 1000000)).

Definition host (draws : nat -> Z) (stops : nat -> bool) (crypto : bool)
  : Host := {|
  random_num := draws;
  stop_requested := stops;
  Date_now := fun k => 1700000000000 + Z.of_nat k;
  number := Z;
  parseFloat := parse;
  toFixed6 := print;
  num_toString := print;
  num_add := Z.add;
  num_sub := Z.sub;
  num_max := Z.max;
  num_le := Z.leb;
  num_0 := 0;
  num_0_001 := 1000;
  CryptoKey := unit;
  importKey := fun _ => if crypto then Some tt else None;
  generateKey := fun _ => if crypto then Some tt else None;
  exportKey := fun _ => Some "{}";
  getRandomValues := fun k len => repeat (Z.of_nat k mod 256) len;
  subtle_encrypt := fun _ iv data =>
    Some (map (fun b => Z.lxor b 90) data ++ repeat 0 16);
  rejects_later := false;
  request_error_throws := false
|}.

(** draws: every call of [Math.random] returns one half *)
Definition half : nat -> Z := fun _ => 2 ^ 52.
Definition never : nat -> bool := fun _ => false.

Definition initial : State :=
  mkState [] None None None false (Stats.mk 0 0 0 0) false 0 0 0 0 [] [] [].

(** the state after [walletManager.init()] on a fresh profile *)
Definition ready : State :=
  set_db (Some Connection) (set_idb (Some Db.upgrade) initial).

Definition wallet (i : Z) (balance : string) (completed : list string)
  : Wallet :=
  mkWallet i "evm" ("0xaddr" +:+ decimal i) "c0ffee" "abandon ability"
           1700000000000 balance completed.
End Example.

(** * Reasoning about monadic code *)

(** [respects R m]: running [m] moves the state along [R], whether [m]
    returns or throws.  [throws_along R m]: the same, for the runs of [m]
    that throw.  [no_throw m]: [m] always returns. *)
Definition respects (R : relation State) {A} (m : M A) : Prop :=
  ∀ s, R s (m s).2.

Definition throws_along (R : relation State) {A} (m : M A) : Prop :=
  ∀ s e s', m s = (Throw e, s') → R s s'.

Definition no_throw {A} (m : M A) : Prop :=
  ∀ s, ∃ a, (m s).1 = Ok a.

(** Two states agree on what [f] reads. *)
Definition same {X} (f : State → X) : relation State :=
  fun s s' => f s' = f s.

#[export] Instance same_preorder {X} (f : State → X) : PreOrder (same f).
Proof. split; unfold same; [intros ?; reflexivity | intros ? ? ? ? ?; congruence]. Qed.

Lemma bind_inv {A B} (m : M A) (f : A → M B) s r s' :
  bind m f s = (r, s') →
  (∃ a s1, m s = (Ok a, s1) ∧ f a s1 = (r, s')) ∨
  (∃ e, m s = (Throw e, s') ∧ r = Throw e).
Proof.
  unfold bind. destruct (m s) as [[a|e] s1]; intros Heq.
  - left. eauto.
  - right. inversion Heq; subst. eauto.
Qed.

Lemma try_catch_inv {A} (m : M A) (h : string → M A) s r s' :
  try_catch m h s = (r, s') →
  (∃ a, m s = (Ok a, s') ∧ r = Ok a) ∨
  (∃ e s1, m s = (Throw e, s1) ∧ h e s1 = (r, s')).
Proof.
  unfold try_catch. destruct (m s) as [[a|e] s1]; intros Heq.
  - left. inversion Heq; subst. eauto.
  - right. eauto.
Qed.

Section Respects.
Context (R : relation State) `{!PreOrder R}.

Lemma respects_ret {A} (a : A) : respects R (ret a).
Proof. intros s. reflexivity. Qed.

Lemma respects_throw {A} e : respects R (@throw A e).
Proof. intros s. reflexivity. Qed.

Lemma respects_get {A} (f : State → A) : respects R (get f).
Proof. intros s. reflexivity. Qed.

Lemma respects_lift {A} (r : result A) : respects R (lift r).
Proof. intros s. reflexivity. Qed.

Lemma respects_modify f : (∀ s, R s (f s)) → respects R (modify f).
Proof. intros Hf s. apply Hf. Qed.

Lemma respects_bind {A B} (m : M A) (f : A → M B) :
  respects R m → (∀ a, respects R (f a)) → respects R (bind m f).
Proof.
  intros Hm Hf s. unfold bind. specialize (Hm s).
  destruct (m s) as [[a|e] s1]; simpl in *; [|done].
  etrans; [exact Hm | apply Hf].
Qed.

Lemma respects_try_catch {A} (m : M A) h :
  respects R m → (∀ e, respects R (h e)) → respects R (try_catch m h).
Proof.
  intros Hm Hh s. unfold try_catch. specialize (Hm s).
  destruct (m s) as [[a|e] s1]; simpl in *; [done|].
  etrans; [exact Hm | apply Hh].
Qed.

Lemma respects_try_finally {A} (m : M A) f :
  respects R m → (∀ s, R s (f s)) → respects R (try_finally m f).
Proof.
  intros Hm Hf s. unfold try_finally. specialize (Hm s).
  destruct (m s) as [r s1]; simpl in *. etrans; [exact Hm | apply Hf].
Qed.

Lemma respects_when b m : respects R m → respects R (when b m).
Proof. intros Hm. destruct b; [done | apply respects_ret]. Qed.

Lemma respects_throws {A} (m : M A) : respects R m → throws_along R m.
Proof. intros Hm s e s' Heq. specialize (Hm s). by rewrite Heq in Hm. Qed.

Lemma no_throw_throws {A} (m : M A) : no_throw m → throws_along R m.
Proof. intros Hm s e s' Heq. destruct (Hm s) as [a Ha]. by rewrite Heq in Ha. Qed.

Lemma throws_along_bind {A B} (m : M A) (f : A → M B) :
  respects R m → (∀ a, throws_along R (f a)) → throws_along R (bind m f).
Proof.
  intros Hm Hf s e s' [(a & s1 & Hms & Hfs)|(e' & Hms & _)]%bind_inv.
  - etrans; [| eapply Hf, Hfs]. specialize (Hm s). by rewrite Hms in Hm.
  - specialize (Hm s). by rewrite Hms in Hm.
Qed.
End Respects.

Lemma no_throw_ret {A} (a : A) : no_throw (ret a).
Proof. intros s. by eexists. Qed.

Lemma no_throw_get {A} (f : State → A) : no_throw (get f).
Proof. intros s. by eexists. Qed.

Lemma no_throw_modify f : no_throw (modify f).
Proof. intros s. by eexists. Qed.

Lemma no_throw_bind {A B} (m : M A) (f : A → M B) :
  no_throw m → (∀ a, no_throw (f a)) → no_throw (bind m f).
Proof.
  intros Hm Hf s. unfold bind. destruct (Hm s) as [a Ha].
  destruct (m s) as [[a'|e] s1]; simpl in *; [apply Hf | done].
Qed.

Lemma no_throw_when b m : no_throw m → no_throw (when b m).
Proof. intros Hm. destruct b; [done | apply no_throw_ret]. Qed.

Lemma no_throw_try_catch {A} (m : M A) h :
  (∀ e, no_throw (h e)) → no_throw (try_catch m h).
Proof.
  intros Hh s. unfold try_catch.
  destruct (m s) as [[a|e] s1]; simpl; [by eexists | apply Hh].
Qed.

Lemma no_throw_emit o : no_throw (emit o).
Proof. apply no_throw_modify. Qed.

Lemma no_throw_record c : no_throw (record c).
Proof. apply no_throw_modify. Qed.

Lemma no_throw_run {A} (m : M A) s :
  no_throw m → ∃ a, m s = (Ok a, (m s).2).
Proof.
  intros Hm. destruct (Hm s) as [a Ha]. exists a.
  destruct (m s); simpl in *; by subst.
Qed.

Lemma respects_run R {A} (m : M A) s r s' :
  respects R m → m s = (r, s') → R s s'.
Proof. intros Hm Heq. specialize (Hm s). by rewrite Heq in Hm. Qed.

Lemma no_throw_ok {A} (m : M A) s r s' :
  no_throw m → m s = (r, s') → ∃ a, r = Ok a.
Proof. intros Hm Heq. destruct (Hm s) as [a Ha]. rewrite Heq in Ha. eauto. Qed.

(** The steps every part of the program takes: draws, timers and what
    may happen while one is pending, and output. *)
Class Ambient {H : Host} (R : relation State) := {
  #[global] amb_preorder :: PreOrder R;
  amb_random v s : R s (set_n_random v s);
  amb_timer v s : R s (set_n_timer v s);
  amb_task v s : R s (set_n_task v s);
  amb_observe s : R s (set_observed (observed s ++ [(stats s, calls s)]) s);
  amb_output o s : R s (set_output (output s ++ [o]) s);
  amb_exec_off k s :
    stop_requested k = true → R s (set_exec_isRunning false s);
  amb_fund_off k s :
    stop_requested k = true → R s (set_fund_isRunning false s)
}.

(** The steps of encryption, and those of encrypted persistence. *)
Class Encrypting (R : relation State) := {
  sto_crypto v s : R s (set_n_crypto v s);
  sto_key v s : R s (set_encryptionKey v s)
}.

Class Storage (R : relation State) := {
  #[global] sto_encrypting :: Encrypting R;
  sto_idb v s : R s (set_idb v s);
  sto_add item s : R s (set_calls (calls s ++ [StoreAdd item]) s)
}.

Ltac solve_preorder :=
  try lazymatch goal with |- PreOrder _ => apply _ end.

Ltac respects_step :=
  lazymatch goal with
  | |- respects _ (bind _ _) =>
      apply respects_bind; [.. | intros ?]; solve_preorder
  | |- respects _ (ret _) => apply respects_ret; solve_preorder
  | |- respects _ (throw _) => apply respects_throw; solve_preorder
  | |- respects _ (get _) => apply respects_get; solve_preorder
  | |- respects _ (lift _) => apply respects_lift; solve_preorder
  | |- respects _ (try_catch _ _) =>
      apply respects_try_catch; [.. | intros ?]; solve_preorder
  | |- respects _ (when _ _) => apply respects_when; solve_preorder
  | |- respects _ (if ?b then _ else _) => destruct b
  | |- respects _ (match ?x with _ => _ end) => destruct x
  | |- no_throw (bind _ _) => apply no_throw_bind; [| intros ?]
  | |- no_throw (ret _) => apply no_throw_ret
  | |- no_throw (get _) => apply no_throw_get
  | |- no_throw (modify _) => apply no_throw_modify
  | |- no_throw (emit _) => apply no_throw_emit
  | |- no_throw (record _) => apply no_throw_record
  | |- no_throw (when _ _) => apply no_throw_when
  | |- no_throw (try_catch _ _) => apply no_throw_try_catch; intros ?
  | |- no_throw (if ?b then _ else _) => destruct b
  | |- no_throw (match ?x with _ => _ end) => destruct x
  end.

Create HintDb frame.

Ltac respects_auto := repeat respects_step; eauto with frame.

Section AmbientSteps.
Context {H : Host} (R : relation State) `{!Ambient R}.
Import Js.

Lemma respects_emit o : respects R (emit o).
Proof. apply respects_modify. intros s. apply amb_output. Qed.

Lemma respects_Math_random : respects R Math_random.
Proof. intros s. apply amb_random. Qed.

Lemma respects_stopAutomation k :
  stop_requested k = true → respects R stopAutomation.
Proof.
  intros Hk. unfold stopAutomation.
  repeat respects_step; try apply respects_emit; apply respects_modify;
    intros s; first [by eapply amb_exec_off | by eapply amb_fund_off].
Qed.

Lemma respects_next_task : respects R next_task.
Proof. apply respects_modify. intros s. apply amb_task. Qed.

Lemma respects_setTimeout ms : respects R (setTimeout ms).
Proof.
  unfold setTimeout. respects_step; [respects_step|].
  respects_step; [apply respects_modify; intros s; apply amb_observe|].
  respects_step; [apply respects_modify; intros s; apply amb_timer|].
  respects_step; [|apply respects_next_task].
  unfold handler. respects_step; [|apply respects_ret; apply _].
  cbn [during isolated]. destruct (stop_requested a) eqn:Hk; simpl.
  - by eapply respects_stopAutomation.
  - apply respects_ret. apply _.
Qed.
End AmbientSteps.

#[export] Hint Extern 0 (Ambient _) => solve [apply _] : frame.
#[export] Hint Extern 0 (Storage _) => solve [apply _] : frame.
#[export] Hint Extern 0 (Encrypting _) => solve [apply _] : frame.
#[export] Hint Extern 0 (PreOrder _) => solve [apply _] : frame.
#[export] Hint Resolve respects_emit respects_Math_random respects_setTimeout
  respects_next_task : frame.

Section AmbientHelpers.
Context {H : Host} (R : relation State) `{!Ambient R}.
Import Js.

Lemma respects_random_element {A} (d : A) l : respects R (random_element d l).
Proof. unfold random_element. respects_auto. Qed.

Lemma respects_randomDelay lo hi : respects R (Helpers.randomDelay lo hi).
Proof. unfold Helpers.randomDelay. respects_auto. Qed.

Lemma respects_shuffle_from {A} i (l : list A) :
  respects R (Helpers.shuffle_from i l).
Proof. revert l. induction i as [|i IH]; intros l; simpl; respects_auto. Qed.

Lemma respects_shuffleArray {A} (l : list A) :
  respects R (Helpers.shuffleArray l).
Proof. apply respects_shuffle_from. Qed.

Lemma respects_randomChars n chars acc :
  respects R (WalletManager.randomChars n chars acc).
Proof.
  revert acc. induction n as [|n IH]; intros acc; simpl; respects_auto.
  apply respects_random_element.
Qed.

Lemma respects_Date_now : respects R Date_now_.
Proof. unfold Date_now_. respects_auto. Qed.
End AmbientHelpers.

#[export] Hint Resolve respects_random_element respects_randomDelay
  respects_shuffleArray respects_randomChars respects_Date_now : frame.

Section NoThrowHelpers.
Context {H : Host}.
Import Js.

Lemma no_throw_Math_random : no_throw Math_random.
Proof. intros s. by eexists. Qed.

Lemma no_throw_stopAutomation : no_throw stopAutomation.
Proof. unfold stopAutomation. repeat respects_step. Qed.

Lemma no_throw_setTimeout ms : no_throw (setTimeout ms).
Proof.
  unfold setTimeout, next_task, handler. repeat respects_step.
Qed.

Lemma no_throw_random_element {A} (d : A) l : no_throw (random_element d l).
Proof. unfold random_element. repeat respects_step. apply no_throw_Math_random. Qed.

Lemma no_throw_randomDelay lo hi : no_throw (Helpers.randomDelay lo hi).
Proof.
  unfold Helpers.randomDelay. repeat respects_step;
    [apply no_throw_Math_random | apply no_throw_setTimeout].
Qed.

Lemma no_throw_shuffle_from {A} i (l : list A) :
  no_throw (Helpers.shuffle_from i l).
Proof.
  revert l. induction i as [|i IH]; intros l; simpl; repeat respects_step;
    [apply no_throw_Math_random | apply IH].
Qed.

Lemma no_throw_randomChars n chars acc :
  no_throw (WalletManager.randomChars n chars acc).
Proof.
  revert acc. induction n as [|n IH]; intros acc; simpl; repeat respects_step;
    [apply no_throw_random_element | apply IH].
Qed.
End NoThrowHelpers.

#[export] Hint Resolve no_throw_Math_random no_throw_setTimeout
  no_throw_random_element no_throw_randomDelay no_throw_shuffle_from
  no_throw_randomChars no_throw_emit no_throw_record : frame.

(** * Cascade funding *)

Ltac solve_ambient := split; [apply _ | intros; reflexivity ..].

(** Wallets at the positions that satisfy [P] may change, the others are
    the same objects with the same contents. *)
Definition only_at (P : nat → Prop) : relation State :=
  fun s s' => ∀ j, ¬ P j → wallets s' !! j = wallets s !! j.

#[export] Instance only_at_preorder P : PreOrder (only_at P).
Proof.
  split.
  - intros s j _. reflexivity.
  - intros s1 s2 s3 H12 H23 j Hj. rewrite H23, H12; auto.
Qed.

#[export] Hint Extern 1 (same _ _ _) => reflexivity : frame.

Section Cascade.
Context {H : Host}.
Import Js CascadeFunding.

#[local] Instance ambient_wallets : Ambient (same wallets).
Proof. solve_ambient. Qed.

#[local] Instance ambient_calls : Ambient (same calls).
Proof. solve_ambient. Qed.

#[local] Instance ambient_only_at P : Ambient (only_at P).
Proof. split; [apply _ | intros; intros j _; reflexivity ..]. Qed.

Lemma respects_record_wallets c : respects (same wallets) (record c).
Proof. apply respects_modify. reflexivity. Qed.

Lemma respects_update_wallet_calls p f :
  respects (same calls) (update_wallet p f).
Proof.
  apply respects_modify. intros s. unfold same.
  by destruct (wallets s !! p).
Qed.

Lemma respects_update_wallet_only_at (P : nat → Prop) p f :
  P p → respects (only_at P) (update_wallet p f).
Proof.
  intros Hp. apply respects_modify. intros s j Hj.
  destruct (wallets s !! p) eqn:Hw; [|done]. simpl.
  apply list_lookup_insert_ne. intros ->. done.
Qed.

Lemma no_throw_update_wallet p f : no_throw (update_wallet p f).
Proof. apply no_throw_modify. Qed.

Lemma no_throw_generateMockTxHash : no_throw generateMockTxHash.
Proof. unfold generateMockTxHash. apply no_throw_randomChars. Qed.

Hint Resolve respects_record_wallets respects_update_wallet_calls
  no_throw_update_wallet no_throw_generateMockTxHash : frame.

Lemma record_run c s : record c s = (Ok tt, set_calls (calls s ++ [c]) s).
Proof. reflexivity. Qed.

(** A simulated forward transfer: it is recorded, it touches the two
    wallets of the link only, and when it throws it has touched none. *)
Lemma simulateFunding_spec fromW toW amount gas s r s' :
  simulateFunding fromW toW amount gas s = (r, s') →
  calls s' = calls s ++ [SimulateFunding fromW toW] ∧
  (∀ j, j ≠ fromW → j ≠ toW → wallets s' !! j = wallets s !! j) ∧
  (∀ e, r = Throw e → wallets s' = wallets s).
Proof.
  unfold simulateFunding.
  intros [(? & s1 & Hrec & Hrest) | (e & Hrec & _)]%bind_inv;
    rewrite record_run in Hrec; [|done].
  injection Hrec as _ <-. split_and!.
  - eapply (respects_run (same calls)) in Hrest; [exact Hrest|].
    unfold generateMockTxHash, address_at. respects_auto.
  - intros j Hf Ht.
    eapply (respects_run (only_at (fun j => j = fromW ∨ j = toW))) in Hrest.
    + rewrite Hrest; [done | tauto].
    + unfold generateMockTxHash, address_at.
      respects_auto; apply respects_update_wallet_only_at; auto.
  - intros e ->.
    assert (throws_along (same wallets)
      (let* r := Math_random in
       setTimeout (Math_floor (inject_Z 2000 + r * inject_Z 3000)) >>
       let* r := Math_random in
       if Qlt_bool r 0.1 then throw "Transaction failed: insufficient gas"
       else
         let amountToSend :=
           num_sub (parseFloat_number amount) (parseFloat_number gas) in
         update_wallet fromW (fun w =>
           set_balance (toFixed6 (num_sub (balance_of w) (parseFloat_number amount))) w) >>
         update_wallet toW (fun w =>
           set_balance (toFixed6 (num_add (balance_of w) amountToSend)) w) >>
         let* from := address_at fromW in
         let* to := address_at toW in
         let* txHash := generateMockTxHash in
         ret (mkReceipt from to amountToSend txHash))) as Hthrows.
    { apply throws_along_bind; [apply _ | respects_auto | intros r1].
      apply throws_along_bind; [apply _ | respects_auto | intros _].
      apply throws_along_bind; [apply _ | respects_auto | intros r2].
      destruct (Qlt_bool r2 0.1).
      - apply respects_throws. respects_auto.
      - apply no_throw_throws. unfold address_at. respects_auto. }
    apply (Hthrows _ _ _ Hrest).
Qed.

(** The same for a simulated reverse transfer. *)
Lemma simulateReverseFunding_spec fromW toAddress s r s' :
  simulateReverseFunding fromW toAddress s = (r, s') →
  calls s' = calls s ++ [SimulateReverseFunding fromW toAddress] ∧
  (∀ j, j ≠ fromW → wallets s' !! j = wallets s !! j) ∧
  (∀ e, r = Throw e → wallets s' = wallets s).
Proof.
  unfold simulateReverseFunding.
  intros [(? & s1 & Hrec & Hrest) | (e & Hrec & _)]%bind_inv;
    rewrite record_run in Hrec; [|done].
  injection Hrec as _ <-. split_and!.
  - eapply (respects_run (same calls)) in Hrest; [exact Hrest|].
    unfold generateMockTxHash, address_at. respects_auto.
  - intros j Hf.
    eapply (respects_run (only_at (fun j => j = fromW))) in Hrest.
    + rewrite Hrest; [done | tauto].
    + unfold generateMockTxHash, address_at.
      respects_auto; apply respects_update_wallet_only_at; auto.
  - intros e ->.
    assert (throws_along (same wallets)
      (let* r := Math_random in
       setTimeout (Math_floor (inject_Z 2000 + r * inject_Z 3000)) >>
       let* r := Math_random in
       if Qlt_bool r 0.05 then throw "Transaction failed: network congestion"
       else
         let* ws := get wallets in
         let balance :=
           default (parseFloat_number num_0) (balance_of <$> ws !! fromW) in
         let gasReserve := num_0_001 in
         let amountToSend := num_max num_0 (num_sub balance gasReserve) in
         if num_le amountToSend num_0 then throw "Insufficient balance to send"
         else
           update_wallet fromW (set_balance (toFixed6 gasReserve)) >>
           let* from := address_at fromW in
           let* txHash := generateMockTxHash in
           ret (mkReceipt from toAddress amountToSend txHash))) as Hthrows.
    { apply throws_along_bind; [apply _ | respects_auto | intros r1].
      apply throws_along_bind; [apply _ | respects_auto | intros _].
      apply throws_along_bind; [apply _ | respects_auto | intros r2].
      destruct (Qlt_bool r2 0.05).
      - apply respects_throws. respects_auto.
      - apply throws_along_bind; [apply _ | respects_auto | intros ws].
        simpl. destruct (num_le _ _).
        + apply respects_throws. respects_auto.
        + apply no_throw_throws. unfold address_at. respects_auto. }
    apply (Hthrows _ _ _ Hrest).
Qed.

(** What the transfers leave behind: the steps recorded and the
    wallets. *)
Definition ledger (s : State) := (calls s, wallets s).

#[local] Instance ambient_ledger : Ambient (same ledger).
Proof. solve_ambient. Qed.

Lemma same_ledger s s' :
  same ledger s s' → calls s' = calls s ∧ wallets s' = wallets s.
Proof. unfold same, ledger. intros Heq. by injection Heq. Qed.

Lemma emit_run o s : emit o s = (Ok tt, set_output (output s ++ [o]) s).
Proof. reflexivity. Qed.

(** One link of the forward chain either succeeds, touching the wallets
    of the link only, or fails, touching none; the failure is recorded
    and thrown again. *)
Lemma forward_link_spec i amount gas s r s' :
  forward_link i amount gas s = (r, s') →
  (r = Ok tt ∧ calls s' = calls s ++ [SimulateFunding i (i + 1)] ∧
   ∀ j, (i + 1 < j)%nat → wallets s' !! j = wallets s !! j) ∨
  (∃ e, r = Throw e ∧
     calls s' = calls s ++ [SimulateFunding i (i + 1); TransferFailed i e] ∧
     wallets s' = wallets s).
Proof.
  unfold forward_link.
  intros [(? & s0 & Hemit & Hrest) | (e & Hemit & _)]%bind_inv;
    rewrite emit_run in Hemit; [|done].
  injection Hemit as _ <-.
  apply try_catch_inv in Hrest as [([] & Hbody & ->) | (e & s1 & Hbody & Hh)].
  - left. split; [done|].
    apply bind_inv in Hbody as [(rc & s1 & Hsim & Hrest) | (e & _ & ?)]; [|done].
    apply simulateFunding_spec in Hsim as (Hc & Hw & _).
    eapply (respects_run (same ledger)) in Hrest; [|respects_auto].
    apply same_ledger in Hrest as [-> ->]. split; [done|].
    intros j Hj. apply Hw; lia.
  - right. exists e.
    apply bind_inv in Hbody as [(rc & s2 & Hsim & Hrest) | (e' & Hsim & He)].
    { eapply no_throw_ok in Hrest as [? ?]; [done | respects_auto]. }
    injection He as <-.
    apply simulateFunding_spec in Hsim as (Hc & _ & Hw).
    specialize (Hw e eq_refl).
    cbv [bind record emit modify throw] in Hh. injection Hh as <- <-.
    simpl. rewrite Hc, Hw, <- app_assoc. done.
Qed.

(** The steps of a run of the forward loop from link [a] on concern
    links from [a] on. *)
Definition links_from (a : nat) (new : list Call) : Prop :=
  ∀ c, c ∈ new →
    ∃ j, (a ≤ j)%nat ∧ (c = SimulateFunding j (j + 1) ∨ ∃ e, c = TransferFailed j e).

(** After a failed link no later link is attempted, and the wallets
    after the failed link are as before. *)
Definition aborted_at_failure (s s' : State) (new : list Call) : Prop :=
  ∀ i e, TransferFailed i e ∈ new →
    (∀ j t, SimulateFunding j t ∈ new → (j ≤ i)%nat) ∧
    (∀ j, (i < j)%nat → wallets s' !! j = wallets s !! j).

Lemma forward_loop_spec amount gas n : ∀ a s r s',
  forward_loop (seq a n) amount gas s = (r, s') →
  ∃ new, calls s' = calls s ++ new ∧ links_from a new ∧
         aborted_at_failure s s' new.
Proof.
  induction n as [|n IH]; intros a s r s'; simpl.
  { intros [= <- <-]. exists []. rewrite app_nil_r. split; [done|].
    split; [intros c Hc | intros i e Hc]; by apply elem_of_nil in Hc. }
  unfold bind at 1, get at 1. destruct (fund_isRunning s); simpl.
  2:{ intros [= <- <-]. exists []. rewrite app_nil_r. split; [done|].
      split; [intros c Hc | intros i e Hc]; by apply elem_of_nil in Hc. }
  intros [(? & s1 & Hlink & Hrest) | (e & Hlink & ->)]%bind_inv.
  - apply forward_link_spec in Hlink as [(_ & Hc1 & Hw1) | (e & ? & _)]; [|done].
    apply IH in Hrest as (new & Hc & Hfrom & Habort).
    exists (SimulateFunding a (a + 1) :: new). split_and!.
    + rewrite Hc, Hc1, <- app_assoc. done.
    + intros c [->|Hin]%elem_of_cons.
      * exists a. split; [lia | by left].
      * destruct (Hfrom c Hin) as (j & Hj & Hcase). exists j. split; [lia | done].
    + intros i e [?|Hin]%elem_of_cons; [done|].
      destruct (Hfrom _ Hin) as (j & Hj & [?|[e' [= -> ->]]]); [done|].
      destruct (Habort _ _ Hin) as [Hsim Hwal]. split.
      * intros j' t [[= -> ->]|Hin']%elem_of_cons; [lia | eauto].
      * intros j' Hj'. rewrite Hwal by done. apply Hw1. lia.
  - apply forward_link_spec in Hlink as [(? & _) | (e' & [= <-] & Hc1 & Hw1)]; [done|].
    exists [SimulateFunding a (a + 1); TransferFailed a e]. split_and!; [done | |].
    + intros c [->|[->|Hin%elem_of_nil]%elem_of_cons]%elem_of_cons; [| |done];
        exists a; split; eauto.
    + intros i e' [?|[[= -> ->]|Hin%elem_of_nil]%elem_of_cons]%elem_of_cons; try done.
      split.
      * intros j t [[= -> ->]|[?|Hin%elem_of_nil]%elem_of_cons]%elem_of_cons; done.
      * intros j _. by rewrite Hw1.
Qed.

Lemma fundForward_spec amount gasBuffer s :
  let s' := (fundForward amount gasBuffer s).2 in
  ∃ new, calls s' = calls s ++ new ∧ aborted_at_failure s s' new.
Proof.
  assert (∀ s s', aborted_at_failure s s' []) as Hnil.
  { intros s0 s1 i e Hin. by apply elem_of_nil in Hin. }
  unfold fundForward, WalletManager.getWallets.
  cbv [bind get ret emit modify try_finally try_catch].
  destruct (fund_isRunning s); simpl.
  { exists []. rewrite app_nil_r. auto. }
  destruct (length (wallets s) <? 2)%nat; simpl.
  { exists []. rewrite app_nil_r. auto. }
  cbv zeta.
  match goal with
  | |- context [forward_loop ?l ?a ?g ?s0] =>
      destruct (forward_loop l a g s0) as [[[]|e] s3] eqn:Hloop
  end;
    apply forward_loop_spec in Hloop as (new & Hc & _ & Habort);
    simpl in *; exists new; (split; [done|]);
    intros i e' Hin; destruct (Habort i e' Hin) as [? Hw]; split; auto.
Qed.
End Cascade.

(** C5.  In [fundForward], when the simulated transfer at link [i]
    fails, the cascade aborts: no transfer at a link after [i] is
    attempted in that run, and every wallet after position [i] is left as
    it was before the run. *)
Theorem fundForward_failure_aborts {H : Host} amount gasBuffer s i e :
  let s' := (CascadeFunding.fundForward amount gasBuffer s).2 in
  let new := drop (length (calls s)) (calls s') in
  TransferFailed i e ∈ new →
  (∀ j t, (i < j)%nat → SimulateFunding j t ∉ new) ∧
  (∀ j, (i < j)%nat → wallets s' !! j = wallets s !! j).
Proof.
  intros s' new. subst new.
  destruct (fundForward_spec amount gasBuffer s) as (new & Hc & Habort).
  fold s' in Hc, Habort. rewrite Hc, drop_app_length. intros Hin.
  destruct (Habort i e Hin) as [Hsim Hw]. split; [|done].
  intros j t Hj Hin'. apply Hsim in Hin'. lia.
Qed.

(** Draws that make the second link of a forward cascade fail: the
    failure draw of link 1 is the 69th draw. *)
Definition second_link_fails : nat → Z :=
  fun k => if (k =? 68)%nat then 0 else 2 ^ 52.

Lemma fundForward_failure_aborts_witness :
  let H := Example.host second_link_fails Example.never true in
  let s := set_wallets [Example.wallet 0 "1.000000" []; Example.wallet 1 "0" [];
                        Example.wallet 2 "0" []; Example.wallet 3 "0" []]
                       Example.ready in
  let s' := (CascadeFunding.fundForward (H:=H) 500000 None s).2 in
  let new := drop (length (calls s)) (calls s') in
  TransferFailed 1 "Transaction failed: insufficient gas" ∈ new ∧
  (∀ j t, (1 < j)%nat → SimulateFunding j t ∉ new) ∧
  (∀ j, (1 < j)%nat → wallets s' !! j = wallets s !! j).
Proof.
  intros H s s' new.
  assert (TransferFailed 1 "Transaction failed: insufficient gas" ∈ new) as Hin.
  { apply (bool_decide_unpack _). vm_compute. exact I. }
  split; [exact Hin|].
  exact (fundForward_failure_aborts (H:=H) 500000 None s 1 _ Hin).
Defined.

(** C10.  A simulated cascade transfer that fails, forward or reverse and
    whatever the cause, leaves every wallet (so every balance) as it
    was. *)
Theorem failed_transfer_keeps_wallets {H : Host}
    fromW toW amount gasBuffer toAddress s e s' :
  CascadeFunding.simulateFunding fromW toW amount gasBuffer s = (Throw e, s') ∨
  CascadeFunding.simulateReverseFunding fromW toAddress s = (Throw e, s') →
  wallets s' = wallets s.
Proof.
  intros [Hf | Hr].
  - apply simulateFunding_spec in Hf as (_ & _ & Hw). by eapply Hw.
  - apply simulateReverseFunding_spec in Hr as (_ & _ & Hw). by eapply Hw.
Qed.

Lemma failed_transfer_keeps_wallets_witness :
  let H := Example.host Example.half Example.never true in
  let s := set_wallets [Example.wallet 0 "0.000500" []; Example.wallet 1 "0" []]
                       Example.ready in
  let r := CascadeFunding.simulateReverseFunding (H:=H) 0 "0xdest" s in
  is_ok r.1 = false ∧ wallets r.2 = wallets s.
Proof.
  intros H s r.
  assert (is_ok r.1 = false) as Hfail by (vm_compute; reflexivity).
  split; [exact Hfail|]. subst r.
  destruct (CascadeFunding.simulateReverseFunding 0 "0xdest" s)
    as [[a|e] s'] eqn:Hr; [discriminate Hfail|].
  exact (failed_transfer_keeps_wallets (H:=H) 0%nat 0%nat 0 0 "0xdest" s e s'
           (or_intror Hr)).
Defined.

(** ** The reverse cascade *)

Definition logs_kept : relation State :=
  fun s s' => ∀ o, o ∈ output s → o ∈ output s'.

#[export] Instance logs_kept_preorder : PreOrder logs_kept.
Proof. split; [intros s o; done | intros s1 s2 s3 H12 H23 o Ho; auto]. Qed.








Section ReverseCascade.
Context {H : Host}.
Hypothesis no_stop : ∀ k, stop_requested k = false.
Import Js CascadeFunding.

(** What a reverse run must keep when nobody presses stop: the steps,
    the flag and the log. *)
Definition reverse_view (s : State) := (calls s, fund_isRunning s, output s).

#[local] Instance ambient_logs_kept : Ambient logs_kept.
Proof.
  split; [apply _ | try (intros; intros o Ho; exact Ho) ..].
  intros o s o' Ho. simpl. apply elem_of_app. by left.
Qed.

#[local] Instance ambient_running : Ambient (same (fun s => (calls s, fund_isRunning s))).
Proof.
  split; [apply _ | try (intros; reflexivity) ..];
    intros k s Hk; by rewrite no_stop in Hk.
Qed.

Lemma respects_update_wallet_running p f :
  respects (same (fun s => (calls s, fund_isRunning s))) (update_wallet p f).
Proof.
  apply respects_modify. intros s. unfold same. by destruct (wallets s !! p).
Qed.

Lemma respects_update_wallet_logs p f : respects logs_kept (update_wallet p f).
Proof.
  apply respects_modify. intros s o Ho. by destruct (wallets s !! p).
Qed.

Lemma respects_record_logs c : respects logs_kept (record c).
Proof. apply respects_modify. intros s o Ho. exact Ho. Qed.

Hint Resolve respects_update_wallet_running respects_update_wallet_logs
  respects_record_logs no_throw_update_wallet no_throw_generateMockTxHash
  : frame.




End ReverseCascade.



(** * Encrypted persistence and the executor: frame lemmas *)

Section EncryptingSteps.
Context {H : Host} (R : relation State) `{!Ambient R} `{!Encrypting R}.
Import Js.

Lemma respects_settled {A} (outcome : option A) message :
  respects R (Crypto.settled outcome message).
Proof. unfold Crypto.settled. respects_auto. Qed.

Lemma respects_generateNewKey : respects R Crypto.generateNewKey.
Proof.
  unfold Crypto.generateNewKey.
  respects_auto; try apply respects_settled;
    apply respects_modify; intros s; [apply sto_crypto | apply sto_key].
Qed.

Lemma respects_getKey : respects R Crypto.getKey.
Proof.
  unfold Crypto.getKey.
  respects_auto; first [apply respects_settled | apply respects_generateNewKey].
Qed.

Lemma respects_getRandomValues len : respects R (Crypto.getRandomValues_ len).
Proof. intros s. apply sto_crypto. Qed.

Lemma respects_subtle_encrypt key iv encoded :
  respects R (Crypto.subtle_encrypt_ key iv encoded).
Proof. apply respects_settled. Qed.

Lemma respects_encrypt data : respects R (Crypto.encrypt data).
Proof.
  unfold Crypto.encrypt. respects_auto;
    auto using respects_getKey, respects_getRandomValues, respects_subtle_encrypt.
Qed.

End EncryptingSteps.

Section StorageSteps.
Context {H : Host} (R : relation State) `{!Ambient R} `{!Storage R}.
Import Js.

Lemma respects_transaction db storeName : respects R (Db.transaction db storeName).
Proof.
  intros s. unfold Db.transaction.
  destruct (default ∅ (idb s) !! storeName); reflexivity.
Qed.

Lemma respects_complete tx : respects R (Db.complete tx).
Proof.
  apply respects_modify. intros s. destruct (tx_failed tx); [reflexivity|].
  apply sto_idb.
Qed.

Lemma respects_save_each ws : ∀ tx, respects R (WalletManager.save_each ws tx).
Proof.
  induction ws as [|w ws IH]; intros tx; simpl.
  - apply respects_complete.
  - respects_auto; auto using respects_complete;
      try (apply respects_encrypt; apply _).
    + apply respects_modify. intros s. apply sto_add.
    + unfold Db.active. respects_auto.
Qed.

Lemma respects_saveWallets : respects R WalletManager.saveWallets.
Proof.
  unfold WalletManager.saveWallets. respects_auto;
    auto using respects_transaction, respects_save_each.
Qed.

Lemma respects_markTestnetCompleted idx testnetName :
  (∀ s p w,
     list_find (fun w => index w = idx) (wallets s) = Some (p, w) →
     R s (set_wallets
            (<[p := set_completed (completed w ++ [testnetName]) w]> (wallets s)) s)) →
  respects R (WalletManager.markTestnetCompleted idx testnetName).
Proof.
  intros Hmark s. unfold WalletManager.markTestnetCompleted,
    WalletManager.getWalletByIndex.
  unfold bind at 1, get at 1.
  destruct (list_find _ (wallets s)) as [[p w]|] eqn:Hfind; [|reflexivity].
  destruct (bool_decide _); [reflexivity|].
  unfold bind, modify.
  etrans; [by apply Hmark | apply respects_saveWallets].
Qed.
End StorageSteps.

Section ExecutorSteps.
Context {H : Host} (R : relation State) `{!Ambient R}.
Import Js TestnetExecutor.

Lemma respects_simulateTransaction : respects R simulateTransaction.
Proof. unfold simulateTransaction. respects_auto. Qed.

Lemma respects_succeed_above p msg : respects R (succeed_above p msg).
Proof. unfold succeed_above. respects_auto. Qed.

Lemma respects_executeTask taskType testnet wallet config :
  respects R (executeTask taskType testnet wallet config).
Proof.
  unfold executeTask, claimFaucet, executeSwap, executeBridge, mintNFT,
    executeStake, executeCustomTask, randomAmount.
  respects_auto;
    auto using respects_simulateTransaction, respects_succeed_above.
Qed.

Lemma respects_tasks_loop tasks testnet wallet config :
  respects R (tasks_loop tasks testnet wallet config).
Proof.
  induction tasks as [|task tasks IH]; simpl; respects_auto.
  apply respects_executeTask.
Qed.

Lemma respects_executeWalletTasks testnet wallet config :
  respects R (executeWalletTasks testnet wallet config).
Proof. apply respects_tasks_loop. Qed.

Lemma respects_updateProgress : respects R updateProgress.
Proof. unfold updateProgress. respects_auto. Qed.
End ExecutorSteps.

#[export] Hint Resolve respects_executeWalletTasks respects_updateProgress
  respects_saveWallets : frame.

(** * The executor: statistics *)

(** Bookkeeping steps of the executor that a relation on the wallet store
    does not see. *)
Class Bookkeeping (R : relation State) := {
  bk_stats v s : R s (set_stats v s);
  bk_calls v s : R s (set_calls v s);
  bk_running v s : R s (set_exec_isRunning v s)
}.

Section WholeRun.
Context {H : Host} (R : relation State)
  `{!Ambient R} `{!Storage R} `{!Bookkeeping R}.
Hypothesis mark :
  ∀ idx testnetName s p w,
    list_find (fun w => index w = idx) (wallets s) = Some (p, w) →
    R s (set_wallets
           (<[p := set_completed (completed w ++ [testnetName]) w]> (wallets s)) s).
Import Js TestnetExecutor.

Lemma respects_update_stats f : respects R (update_stats f).
Proof. apply respects_modify. intros s. apply bk_stats. Qed.

Lemma respects_record c : respects R (record c).
Proof. apply respects_modify. intros s. apply bk_calls. Qed.

Lemma respects_run_wallet p wallet testnet config :
  respects R (run_wallet p wallet testnet config).
Proof.
  unfold run_wallet. respects_auto;
    auto using respects_update_stats, respects_record.
  apply respects_markTestnetCompleted; [apply _ .. |]. apply mark.
Qed.

Lemma respects_wallets_loop ps testnet config :
  respects R (wallets_loop ps testnet config).
Proof.
  induction ps as [|p ps IH]; simpl; respects_auto;
    auto using respects_update_stats, respects_record, respects_run_wallet.
Qed.

Lemma respects_executeTestnet testnet config :
  respects R (executeTestnet testnet config).
Proof.
  unfold executeTestnet. respects_auto; apply respects_wallets_loop.
Qed.

Lemma respects_testnets_loop ts config : respects R (testnets_loop ts config).
Proof.
  induction ts as [|t ts IH]; simpl; respects_auto.
  apply respects_executeTestnet.
Qed.

Lemma respects_executeAll testnets config :
  respects R (executeAll testnets config).
Proof.
  unfold executeAll, WalletManager.getWallets. respects_step; [respects_step|].
  destruct a; [respects_auto|].
  respects_step; [apply respects_modify; intros s; apply bk_running|].
  respects_step; [apply respects_modify; intros s; apply bk_stats|].
  apply respects_try_finally; [apply _ | | intros s; apply bk_running].
  respects_auto; auto using respects_update_stats, respects_testnets_loop.
Qed.
End WholeRun.

(** The number of units skipped because the wallet had completed the
    testnet already. *)
Fixpoint skips (cs : list Call) : Z :=
  match cs with
  | [] => 0
  | SkipCompleted _ _ :: rest => 1 + skips rest
  | _ :: rest => skips rest
  end.

Lemma skips_app cs1 cs2 : skips (cs1 ++ cs2) = skips cs1 + skips cs2.
Proof. induction cs1 as [|[] cs1 IH]; simpl; lia. Qed.

(** What an observer of the statistics sees of a state, and of a
    snapshot taken at a suspension. *)
Definition view (s : State) : Stats.t * Z := (stats s, skips (calls s)).

Definition snapshot_view (o : Stats.t * list Call) : Stats.t * Z :=
  (o.1, skips o.2).

(** A stretch of the run that changes neither the statistics nor the
    number of skipped units: every snapshot it takes shows them as they
    were. *)
Definition quiet : relation State := fun s s' =>
  view s' = view s ∧
  ∃ obs, observed s' = observed s ++ obs ∧
         Forall (fun o => snapshot_view o = view s) obs.

Lemma quiet_intro s s' :
  stats s' = stats s → skips (calls s') = skips (calls s) →
  observed s' = observed s → quiet s s'.
Proof.
  intros Hs Hc Ho. split; [unfold view; congruence|].
  exists []. by rewrite app_nil_r.
Qed.

#[export] Instance quiet_preorder : PreOrder quiet.
Proof.
  split.
  - intros s. by apply quiet_intro.
  - intros s1 s2 s3 (Hv12 & obs1 & Ho1 & Hf1) (Hv23 & obs2 & Ho2 & Hf2).
    split; [congruence|]. exists (obs1 ++ obs2). split.
    + by rewrite Ho2, Ho1, app_assoc.
    + apply Forall_app. split; [done|].
      eapply Forall_impl; [exact Hf2|]. intros o Ho. by rewrite Ho.
Qed.

Section Statistics.
Context {H : Host}.
Import Js TestnetExecutor.

#[local] Instance ambient_quiet : Ambient quiet.
Proof.
  split; [apply _ | try (intros; by apply quiet_intro) ..].
  intros s. split; [done|]. exists [(stats s, calls s)]. split; [done|].
  by apply Forall_singleton.
Qed.

#[local] Instance storage_quiet : Storage quiet.
Proof.
  split; [split|..]; try (intros; by apply quiet_intro).
  intros item s. apply quiet_intro; [done | | done]. simpl.
  rewrite skips_app. simpl. lia.
Qed.

Definition wlen (s : State) : nat := length (wallets s).

#[local] Instance ambient_wlen : Ambient (same wlen).
Proof. solve_ambient. Qed.

#[local] Instance storage_wlen : Storage (same wlen).
Proof. split; [split|..]; intros; reflexivity. Qed.

#[local] Instance bookkeeping_wlen : Bookkeeping (same wlen).
Proof. split; intros; reflexivity. Qed.

Lemma mark_wlen idx testnetName s p w :
  list_find (fun w => index w = idx) (wallets s) = Some (p, w) →
  same wlen s
    (set_wallets
       (<[p := set_completed (completed w ++ [testnetName]) w]> (wallets s)) s).
Proof. intros _. unfold same, wlen. simpl. apply length_insert. Qed.

(** The statistics are balanced: the total is [T], and every completed
    unit was successful, failed or skipped (skips are counted from
    [k0]). *)
Definition balanced (k0 T : Z) (v : Stats.t * Z) : Prop :=
  Stats.totalTasks v.1 = T ∧ k0 ≤ v.2 ∧
  Stats.completed v.1 = Stats.successful v.1 + Stats.failed v.1 + (v.2 - k0).

(** The invariant of a run that began with [n0] snapshots taken: the
    state is balanced, and so is every snapshot taken since, none of
    which is ahead of the state. *)
Definition RunInv (k0 : Z) (n0 : nat) (T : Z) (s : State) : Prop :=
  balanced k0 T (view s) ∧ (n0 ≤ length (observed s))%nat ∧
  Forall (fun o => balanced k0 T (snapshot_view o) ∧
                   Stats.completed o.1 ≤ Stats.completed (stats s))
         (drop n0 (observed s)).

Lemma RunInv_quiet k0 n0 T s s' : RunInv k0 n0 T s → quiet s s' → RunInv k0 n0 T s'.
Proof.
  intros (Hb & Hn & Hf) (Hv & obs & Ho & Hobs).
  assert (stats s' = stats s) as Hst by (unfold view in Hv; congruence).
  split_and!.
  - by rewrite Hv.
  - rewrite Ho, length_app. lia.
  - rewrite Ho, drop_app_le by done. apply Forall_app. split.
    + eapply Forall_impl; [exact Hf|]. intros o [? ?]. by rewrite Hst.
    + eapply Forall_impl; [exact Hobs|]. intros o Hov. rewrite Hov. split; [done|].
      unfold snapshot_view, view in Hov. injection Hov as -> _. by rewrite Hst.
Qed.

(** One more unit is completed: as a success, as a failure, or skipped. *)
Lemma RunInv_completed k0 n0 T s s' :
  RunInv k0 n0 T s →
  observed s' = observed s →
  (stats s' = incr_completed (incr_successful (stats s)) ∧
   skips (calls s') = skips (calls s)) ∨
  (stats s' = incr_completed (incr_failed (stats s)) ∧
   skips (calls s') = skips (calls s)) ∨
  (stats s' = incr_completed (stats s) ∧
   skips (calls s') = skips (calls s) + 1) →
  RunInv k0 n0 T s' ∧
  Stats.completed (stats s') = Stats.completed (stats s) + 1.
Proof.
  intros ((Ht & Hk & Hb) & Hn & Hf) Ho Hcase. unfold view in *. simpl in *.
  assert (Stats.completed (stats s') = Stats.completed (stats s) + 1) as Hc.
  { destruct Hcase as [[-> _]|[[-> _]|[-> _]]]; done. }
  split; [|done]. split_and!.
  - unfold balanced. simpl.
    destruct Hcase as [[-> ->]|[[-> ->]|[-> ->]]]; simpl; split_and!; lia.
  - by rewrite Ho.
  - rewrite Ho. eapply Forall_impl; [exact Hf|]. intros o [? ?]. split; [done | lia].
Qed.

Lemma mark_quiet idx testnetName s p w :
  list_find (fun w => index w = idx) (wallets s) = Some (p, w) →
  quiet s
    (set_wallets
       (<[p := set_completed (completed w ++ [testnetName]) w]> (wallets s)) s).
Proof. intros _. by apply quiet_intro. Qed.

Lemma update_stats_run f s :
  update_stats f s = (Ok tt, set_stats (f (stats s)) s).
Proof. reflexivity. Qed.

(** The guarded part of [run_wallet]: after a quiet stretch the unit is
    counted as successful or as failed, and nothing is thrown. *)
Lemma run_wallet_try p wallet testnet config s r s' :
  try_catch
    (record (ExecuteWalletTasks (name testnet) p) >>
     executeWalletTasks testnet wallet config >>
     WalletManager.markTestnetCompleted (index wallet) (name testnet) >>
     update_stats incr_successful >>
     emit (Activity ("Wallet " +:+ wallet_label wallet +:+ ": "
                     +:+ name testnet +:+ " completed") "info"))
    (fun message =>
       update_stats incr_failed >>
       emit (Activity ("Wallet " +:+ wallet_label wallet +:+ ": "
                       +:+ message) "error")) s = (r, s') →
  r = Ok tt ∧
  ∃ sq, quiet s sq ∧ observed s' = observed sq ∧
        skips (calls s') = skips (calls sq) ∧
        (exec_isRunning s' = exec_isRunning sq) ∧
        (stats s' = incr_successful (stats sq) ∨ stats s' = incr_failed (stats sq)).
Proof.
  assert (respects quiet (record (ExecuteWalletTasks (name testnet) p))) as Hrec.
  { apply respects_modify. intros s0. apply quiet_intro; [done | | done].
    simpl. rewrite skips_app. simpl. lia. }
  assert (respects quiet
            (WalletManager.markTestnetCompleted (index wallet) (name testnet)))
    as Hmark.
  { apply respects_markTestnetCompleted; [apply _ .. |]. intros s0 p0 w0.
    apply mark_quiet. }
  intros [([] & Hbody & ->) | (e & st & Hbody & Hh)]%try_catch_inv.
  - split; [done|].
    apply bind_inv in Hbody as [(? & s1 & H1 & Hbody) | (e & _ & ?)]; [|done].
    apply bind_inv in Hbody as [(? & s2 & H2 & Hbody) | (e & _ & ?)]; [|done].
    apply bind_inv in Hbody as [(? & s3 & H3 & Hbody) | (e & _ & ?)]; [|done].
    cbv [bind update_stats emit modify] in Hbody. injection Hbody as <-.
    exists s3. split_and!; try done; [|by left].
    etrans; [eapply respects_run, H1; exact Hrec|].
    etrans; [eapply respects_run, H2; apply respects_executeWalletTasks, _|].
    eapply respects_run, H3. exact Hmark.
  - cbv [bind update_stats emit modify] in Hh. injection Hh as <- <-.
    split; [done|]. exists st. split_and!; try done; [|by right].
    revert Hbody. generalize st. generalize e. generalize s.
    change (throws_along quiet
      (record (ExecuteWalletTasks (name testnet) p) >>
       executeWalletTasks testnet wallet config >>
       WalletManager.markTestnetCompleted (index wallet) (name testnet) >>
       update_stats incr_successful >>
       emit (Activity ("Wallet " +:+ wallet_label wallet +:+ ": "
                       +:+ name testnet +:+ " completed") "info"))).
    apply throws_along_bind; [apply _ | exact Hrec | intros _].
    apply throws_along_bind;
      [apply _ | apply respects_executeWalletTasks, _ | intros _].
    apply throws_along_bind; [apply _ | exact Hmark | intros _].
    apply no_throw_throws. unfold update_stats. respects_auto.
Qed.

Lemma no_throw_updateProgress : no_throw updateProgress.
Proof. unfold updateProgress. respects_auto. Qed.

Lemma run_wallet_spec k0 n0 T p wallet testnet config s r s' :
  RunInv k0 n0 T s →
  run_wallet p wallet testnet config s = (r, s') →
  r = Ok tt ∧ RunInv k0 n0 T s' ∧
  Stats.completed (stats s') = Stats.completed (stats s) + 1.
Proof.
  intros Hinv. unfold run_wallet.
  intros [(? & sa & Htry & Hrest) | (e & Htry & _)]%bind_inv.
  2:{ by apply run_wallet_try in Htry as [? _]. }
  apply run_wallet_try in Htry as (_ & sq & Hq & Ho & Hk & _ & Hst).
  apply bind_inv in Hrest as [(? & sb & Hupd & Hrest) | (e & Hupd & _)];
    rewrite update_stats_run in Hupd; [|done].
  injection Hupd as _ <-.
  assert (quiet (set_stats (incr_completed (stats sa)) sa) s') as Hq'.
  { eapply respects_run, Hrest. respects_auto. }
  assert (∃ a, r = Ok a) as [[] ->].
  { eapply no_throw_ok, Hrest. respects_auto. apply no_throw_updateProgress. }
  split; [done|].
  pose proof (RunInv_quiet _ _ _ _ _ Hinv Hq) as Hinvq.
  destruct (RunInv_completed k0 n0 T sq (set_stats (incr_completed (stats sa)) sa)
              Hinvq) as [Hinvb Hcb].
  { done. }
  { simpl. destruct Hst as [-> | ->]; [left | right; left]; done. }
  split; [by eapply RunInv_quiet|].
  destruct Hq as [Hv _], Hq' as [Hv' _]. unfold view in Hv, Hv'.
  injection Hv as Hv _. injection Hv' as Hv' _.
  rewrite Hv', <- Hv. simpl in *. lia.
Qed.

Lemma wallets_loop_spec k0 n0 T testnet config ps : ∀ s r s',
  RunInv k0 n0 T s →
  wallets_loop ps testnet config s = (r, s') →
  r = Ok tt ∧ RunInv k0 n0 T s' ∧
  Stats.completed (stats s) ≤ Stats.completed (stats s')
    ≤ Stats.completed (stats s) + Z.of_nat (length ps).
Proof.
  induction ps as [|p ps IH]; intros s r s' Hinv; simpl.
  { intros [= <- <-]. split_and!; [done | done | lia..]. }
  unfold bind at 1, get at 1. destruct (exec_isRunning s); simpl.
  2:{ intros [= <- <-]. split_and!; [done | done | lia..]. }
  unfold bind at 1, get at 1. destruct (wallets s !! p) as [wallet|]; simpl.
  2:{ intros [= <- <-]. split_and!; [done | done | lia..]. }
  destruct (bool_decide _).
  - intros Hrun. cbv [bind record modify update_stats] in Hrun.
    match type of Hrun with
    | wallets_loop _ _ _ ?s1 = _ =>
        destruct (RunInv_completed k0 n0 T s s1 Hinv) as [Hinv1 Hc1]
    end.
    { done. }
    { right; right. split; [done|]. simpl. rewrite skips_app. simpl. lia. }
    apply IH in Hrun as (-> & Hinv' & Hc'); [|done].
    simpl in *. split_and!; [done | done | lia..].
  - intros [([] & s1 & Hunit & Hrest) | (e & Hunit & _)]%bind_inv.
    2:{ by eapply run_wallet_spec in Hunit as [? _]. }
    eapply run_wallet_spec in Hunit as (_ & Hinv1 & Hc1); [|done].
    apply IH in Hrest as (-> & Hinv' & Hc'); [|done].
    split_and!; [done | done | lia..].
Qed.

(** [shuffleArray] returns a permutation of its argument and only
    consumes random draws. *)
Lemma swap_Permutation {A} i j (l : list A) : Helpers.swap i j l ≡ₚ l.
Proof.
  unfold Helpers.swap.
  destruct (l !! i) as [x|] eqn:Hx; [|done].
  destruct (l !! j) as [y|] eqn:Hy; [|done].
  by apply Permutation_insert_swap.
Qed.

Lemma shuffle_from_run {A} i : ∀ (l : list A) s r s',
  Helpers.shuffle_from i l s = (r, s') →
  (∃ n, s' = set_n_random n s) ∧ ∃ l', r = Ok l' ∧ l' ≡ₚ l.
Proof.
  induction i as [|i IH]; intros l s r s'; cbn [Helpers.shuffle_from].
  { intros [= <- <-]. split; [by exists (n_random s); destruct s | by exists l]. }
  unfold bind at 1, Math_random at 1.
  intros ([n ->] & l' & -> & Hp)%IH. split; [by eexists|].
  exists l'. split; [done|]. rewrite Hp. apply swap_Permutation.
Qed.

Lemma shuffleArray_run {A} (l : list A) s r s' :
  Helpers.shuffleArray l s = (r, s') →
  (∃ n, s' = set_n_random n s) ∧ ∃ l', r = Ok l' ∧ l' ≡ₚ l.
Proof. apply shuffle_from_run. Qed.

Lemma executeTestnet_spec k0 n0 T testnet config s r s' :
  RunInv k0 n0 T s →
  executeTestnet testnet config s = (r, s') →
  r = Ok tt ∧ RunInv k0 n0 T s' ∧
  Stats.completed (stats s) ≤ Stats.completed (stats s')
    ≤ Stats.completed (stats s) + Z.of_nat (wlen s).
Proof.
  intros Hinv. unfold executeTestnet. unfold bind at 1, get at 1.
  destruct (randomizeOrder config).
  - intros [(ps & s1 & Hsh & Hloop) | (e & Hsh & _)]%bind_inv.
    2:{ by apply shuffleArray_run in Hsh as (_ & ? & ? & _). }
    apply shuffleArray_run in Hsh as ([n ->] & l' & [= <-] & Hp).
    eapply wallets_loop_spec in Hloop as (-> & Hinv' & Hc).
    2:{ eapply RunInv_quiet; [exact Hinv|]. by apply quiet_intro. }
    rewrite Hp, length_seq in Hc. done.
  - unfold bind at 1, ret at 1. intros Hloop.
    eapply wallets_loop_spec in Hloop as (-> & Hinv' & Hc); [|done].
    rewrite length_seq in Hc. done.
Qed.

Lemma testnets_loop_spec k0 n0 T config ts : ∀ s r s',
  RunInv k0 n0 T s →
  testnets_loop ts config s = (r, s') →
  r = Ok tt ∧ RunInv k0 n0 T s' ∧
  Stats.completed (stats s) ≤ Stats.completed (stats s')
    ≤ Stats.completed (stats s) + Z.of_nat (length ts) * Z.of_nat (wlen s).
Proof.
  induction ts as [|t ts IH]; intros s r s' Hinv; simpl length.
  { simpl. intros [= <- <-]. split_and!; [done | done | lia..]. }
  simpl. unfold bind at 1, get at 1. destruct (exec_isRunning s); simpl.
  2:{ intros [= <- <-]. split_and!; [done | done | nia..]. }
  intros [(? & s0 & Hemit & Hrest) | (e & Hemit & _)]%bind_inv;
    rewrite emit_run in Hemit; [|done].
  injection Hemit as _ <-.
  apply bind_inv in Hrest as [(? & s1 & Htest & Hrest) | (e & Htest & _)].
  2:{ eapply executeTestnet_spec in Htest as [? _]; [done|].
      eapply RunInv_quiet; [exact Hinv|]. by apply quiet_intro. }
  pose proof Htest as Hlen.
  eapply (respects_run (same wlen)) in Hlen;
    [|apply respects_executeTestnet; try apply _; apply mark_wlen].
  eapply executeTestnet_spec in Htest as (_ & Hinv1 & Hc1).
  2:{ eapply RunInv_quiet; [exact Hinv|]. by apply quiet_intro. }
  apply bind_inv in Hrest as [(? & s2 & Hdelay & Hrest) | (e & Hdelay & _)].
  2:{ eapply no_throw_ok in Hdelay as [? ?]; [done | respects_auto]. }
  pose proof Hdelay as Hlen2.
  eapply (respects_run (same wlen)) in Hlen2; [|respects_auto].
  eapply (respects_run quiet) in Hdelay; [|respects_auto].
  apply IH in Hrest as (-> & Hinv' & Hc'); [|by eapply RunInv_quiet].
  assert (Stats.completed (stats s2) = Stats.completed (stats s1)) as Hs2.
  { destruct Hdelay as [Hv _]. unfold view in Hv. by injection Hv as -> _. }
  unfold same in Hlen, Hlen2. unfold wlen in *. simpl in *.
  rewrite Hlen2, Hlen in Hc'.
  split_and!; [done | done | lia | nia].
Qed.

(** A run that starts keeps the invariant from its first step to its
    last, with the total fixed at networks times wallets, and never
    completes more units than that. *)
Lemma executeAll_spec testnets config s :
  exec_isRunning s = false →
  let s' := (executeAll testnets config s).2 in
  let T := Z.of_nat (length testnets) * Z.of_nat (length (wallets s)) in
  RunInv (skips (calls s)) (length (observed s)) T s' ∧
  Stats.completed (stats s') ≤ T.
Proof.
  intros Hidle s' T. subst s'.
  remember T as T' eqn:HT. subst T.
  assert (∀ s0 : State,
            0 ≤ T' →
            stats s0 = Stats.mk T' 0 0 0 → skips (calls s0) = skips (calls s) →
            observed s0 = observed s →
            RunInv (skips (calls s)) (length (observed s)) T' s0 ∧
            Stats.completed (stats s0) ≤ T') as Hstart.
  { intros s0 HT0 Hst Hk Ho. unfold RunInv, balanced, view. rewrite Hst, Hk, Ho.
    simpl. rewrite drop_all. split_and!; try done; lia. }
  destruct (executeAll testnets config s) as [r s'] eqn:Hrun. simpl.
  unfold executeAll, WalletManager.getWallets in Hrun.
  unfold bind at 1, get at 1 in Hrun. rewrite Hidle in Hrun.
  cbv [bind modify try_finally try_catch get] in Hrun. simpl in Hrun.
  destruct (wallets s) as [|w ws] eqn:Hws; simpl in Hrun.
  { injection Hrun as <- <-. simpl in HT. rewrite Z.mul_0_r in HT. subst T'.
    apply Hstart; done. }
  destruct testnets as [|t ts] eqn:Hts; simpl in Hrun.
  { injection Hrun as <- <-. simpl in HT. subst T'. apply Hstart; done. }
  rewrite <- Hts in *. cbv [emit modify update_stats] in Hrun.
  set (s0 := set_output _ _) in Hrun.
  destruct ((if randomizeOrder config then Helpers.shuffleArray testnets
             else ret testnets) s0) as [r1 s1] eqn:Hsh.
  assert (∃ ordered, r1 = Ok ordered ∧ length ordered = length testnets ∧
                     ∃ n, s1 = set_n_random n s0) as (ordered & -> & Hlen & n & ->).
  { destruct (randomizeOrder config).
    - apply shuffleArray_run in Hsh as (Hn & l' & -> & Hp).
      exists l'. split_and!; [done | by apply Permutation_length | done].
    - injection Hsh as <- <-. exists testnets. split_and!; try done.
      exists (n_random s0). by destruct s0. }
  set (s2 := set_stats _ _) in Hrun.
  assert (RunInv (skips (calls s)) (length (observed s)) T' s2) as Hinv2.
  { apply Hstart; try done; [lia|]. subst s2 s0 T'. simpl. by rewrite Hlen. }
  destruct (testnets_loop ordered config s2) as [r3 s3] eqn:Hloop.
  eapply testnets_loop_spec in Hloop as (-> & Hinv3 & Hc3); [|exact Hinv2].
  assert (Stats.completed (stats s3) ≤ T') as Hbound.
  { subst s2 s0 T'. unfold wlen in Hc3.
    cbn [stats wallets set_stats set_n_random set_output set_exec_isRunning
         Stats.completed TestnetExecutor.with_totalTasks] in Hc3.
    rewrite Hlen, Hws in Hc3. lia. }
  destruct (exec_isRunning s3); simpl in Hrun; injection Hrun as <- <-;
    (split; [|done]);
    (eapply RunInv_quiet; [exact Hinv3 | by apply quiet_intro]).
Qed.
End Statistics.

(** ** Two overlapping runs

    While the k-th timer of a run is pending the user presses Stop and
    then Start.  [stopAutomation] clears [isRunning] and shows the Start
    button again; [startAutomation] then calls [executeAll], which is
    admitted because the flag is clear, although the first run is only
    suspended.  [restarted k testnets config] is the page on which this
    happens, once; the second run is itself undisturbed. *)
Definition restarted {H : Host} (k : nat) (testnets : list Testnet)
    (config : Config) : Page := {|
  during j :=
    if (j =? k)%nat then
      Js.stopAutomation >>
      TestnetExecutor.executeAll (P := isolated) testnets config
    else ret tt
|}.

(** C9 (amended).  In every run of [executeAll] that starts and during
    which no other call of [executeAll] starts (the page is [isolated]:
    while the run is suspended nothing happens but, possibly, Stop),
    [stats.totalTasks] is the number of networks times the number of
    wallets, whatever tasks the networks list: at every suspension of
    the run and when it ends. *)
Theorem executeAll_totalTasks {H : Host} testnets config s :
  exec_isRunning s = false →
  let s' := (TestnetExecutor.executeAll (P := isolated) testnets config s).2 in
  let T := Z.of_nat (length testnets) * Z.of_nat (length (wallets s)) in
  Stats.totalTasks (stats s') = T ∧
  Forall (fun o => Stats.totalTasks o.1 = T)
         (drop (length (observed s)) (observed s')).
Proof.
  intros Hidle s' T.
  destruct (executeAll_spec testnets config s Hidle) as [(Hb & _ & Hf) _].
  fold s' T in Hb, Hf. split; [apply Hb|].
  eapply Forall_impl; [exact Hf|]. intros o [Ho _]. apply Ho.
Qed.

Lemma executeAll_totalTasks_witness :
  let H := Example.host Example.half Example.never true in
  let s := set_wallets [Example.wallet 0 "0" []; Example.wallet 1 "0" []]
                       Example.ready in
  let testnets := [mkTestnet "A" "eth" (Some ["faucet"; "swap"; "stake"]);
                   mkTestnet "B" "sol" None; mkTestnet "C" "eth" (Some [])] in
  let s' := (TestnetExecutor.executeAll (H:=H) (P := isolated) testnets
               (mkConfig false 0 0 false) s).2 in
  Stats.totalTasks (stats s') = 6 ∧
  Forall (fun o => Stats.totalTasks o.1 = 6)
         (drop (length (observed s)) (observed s')).
Proof.
  intros H s testnets s'.
  exact (executeAll_totalTasks (H:=H) testnets (mkConfig false 0 0 false) s eq_refl).
Defined.

(** C9 as stated fails.  A run over one network and one wallet is
    suspended in its first task when the user presses Stop and then
    Start, for two networks that the wallet has completed already.  The
    second run is admitted, replaces the statistics and sets its own
    total; it has nothing to wait for and ends at once.  The first run
    then resumes: the snapshot of its first suspension showed the total
    1, the one of its second suspension and its end show the total 2,
    and it completes a third unit of these two. *)
Lemma second_run_rewrites_totalTasks :
  let H := Example.host Example.half Example.never true in
  let s := set_wallets [Example.wallet 0 "0" ["B"; "C"]] Example.initial in
  let config := mkConfig false 0 0 false in
  let second := [mkTestnet "B" "eth" None; mkTestnet "C" "eth" None] in
  let s' := (TestnetExecutor.executeAll (H:=H) (P := restarted 0 second config)
               [mkTestnet "A" "eth" None] config s).2 in
  (Stats.totalTasks ∘ fst) <$> observed s' = [1; 2] ∧
  stats s' = Stats.mk 2 3 1 0 ∧
  ¬ Forall (fun o => Stats.totalTasks o.1 = 1 * 1) (observed s').
Proof.
  intros H s config second s'.
  assert ((Stats.totalTasks ∘ fst) <$> observed s' = [1; 2]) as Hobs
    by (vm_compute; reflexivity).
  assert (stats s' = Stats.mk 2 3 1 0) as Hst by (vm_compute; reflexivity).
  split_and!; [done | done |]. intros Hall.
  assert (Forall (fun n => n = 1) ((Stats.totalTasks ∘ fst) <$> observed s'))
    as Hones.
  { apply Forall_fmap. eapply Forall_impl; [exact Hall|]. by intros o. }
  rewrite Hobs in Hones. apply Forall_cons in Hones as [_ Hones].
  by apply Forall_cons in Hones as [? _].
Qed.

(** The steps skipped since the state [s]. *)
Definition skipped_since (s : State) (cs : list Call) : Z :=
  skips cs - skips (calls s).

(** What holds of the statistics [o.1] seen together with the steps
    [o.2], in a run that began in state [s]. *)
Definition stats_consistent (s : State) (o : Stats.t * list Call) : Prop :=
  Stats.completed o.1 =
    Stats.successful o.1 + Stats.failed o.1 + skipped_since s o.2 ∧
  Stats.successful o.1 + Stats.failed o.1 ≤ Stats.completed o.1 ∧
  Stats.completed o.1 ≤ Stats.totalTasks o.1.

(** C1 (amended).  In every run of [executeAll] that starts and during
    which no other call of [executeAll] starts (the page is [isolated]:
    while the run is suspended nothing happens but, possibly, Stop), at
    every suspension of the run and when it ends: [completed] is
    [successful + failed] plus the number of units skipped in this run
    because the wallet had completed the network already, so
    [successful + failed <= completed]; and [completed <= totalTasks]. *)
Theorem executeAll_stats_consistent {H : Host} testnets config s :
  exec_isRunning s = false →
  let s' := (TestnetExecutor.executeAll (P := isolated) testnets config s).2 in
  stats_consistent s (stats s', calls s') ∧
  Forall (stats_consistent s) (drop (length (observed s)) (observed s')).
Proof.
  intros Hidle s'.
  destruct (executeAll_spec testnets config s Hidle) as [(Hb & _ & Hf) Hc].
  fold s' in Hb, Hf, Hc.
  destruct Hb as (Ht & Hk & Hb). unfold view in *. simpl in *. split.
  - unfold stats_consistent, skipped_since. simpl. split_and!; lia.
  - eapply Forall_impl; [exact Hf|].
    intros o [(Hot & Hok & Hob) Hoc]. unfold stats_consistent, skipped_since.
    simpl in *. split_and!; lia.
Qed.

Lemma executeAll_stats_consistent_witness :
  let H := Example.host Example.half Example.never true in
  let s := set_wallets [Example.wallet 0 "0" ["A"]; Example.wallet 1 "0" []]
                       Example.ready in
  let testnets := [mkTestnet "A" "eth" (Some ["faucet"]); mkTestnet "B" "sol" None] in
  let s' := (TestnetExecutor.executeAll (H:=H) (P := isolated) testnets
               (mkConfig false 0 1 false) s).2 in
  stats_consistent s (stats s', calls s') ∧
  Forall (stats_consistent s) (drop (length (observed s)) (observed s')).
Proof.
  intros H s testnets s'.
  exact (executeAll_stats_consistent (H:=H) testnets (mkConfig false 0 1 false) s
           eq_refl).
Defined.

(** C1 as stated fails, in both of its parts.  A wallet that lists the
    network already is counted in [completed] and in neither [successful]
    nor [failed], so [completed] is not their sum.  And when the user
    presses Stop and then Start while a run is suspended, the second run
    replaces the statistics and the first run goes on counting in them:
    the first run, over one network and one wallet, ends with three
    units completed of two. *)
Lemma completed_counts_skipped_units :
  let H := Example.host Example.half Example.never true in
  let config := mkConfig false 0 0 false in
  let s := set_wallets [Example.wallet 0 "0" ["A"]] Example.ready in
  let s' := (TestnetExecutor.executeAll (H:=H) (P := isolated)
               [mkTestnet "A" "eth" None] config s).2 in
  let t := set_wallets [Example.wallet 0 "0" ["B"; "C"]] Example.initial in
  let second := [mkTestnet "B" "eth" None; mkTestnet "C" "eth" None] in
  let t' := (TestnetExecutor.executeAll (H:=H) (P := restarted 0 second config)
               [mkTestnet "A" "eth" None] config t).2 in
  (Stats.completed (stats s') = 1 ∧
   Stats.successful (stats s') + Stats.failed (stats s') = 0 ∧
   ¬ Stats.completed (stats s') =
       Stats.successful (stats s') + Stats.failed (stats s')) ∧
  (Stats.completed (stats t') = 3 ∧ Stats.totalTasks (stats t') = 2 ∧
   ¬ Stats.completed (stats t') ≤ Stats.totalTasks (stats t')).
Proof.
  intros H config s s' t second t'.
  assert (stats s' = Stats.mk 1 1 0 0) as -> by (vm_compute; reflexivity).
  assert (stats t' = Stats.mk 2 3 1 0) as -> by (vm_compute; reflexivity).
  simpl. split_and!; [done .. | lia].
Qed.

(** * The executor: running twice *)

(** Every wallet lists every one of the given networks as completed. *)
Definition all_marked (testnets : list Testnet) (s : State) : Prop :=
  ∀ t w, t ∈ testnets → w ∈ wallets s → name t ∈ completed w.

(** What a run over marked wallets leaves alone. *)
Definition outcome (s : State) :=
  (wallets s, Stats.successful (stats s), Stats.failed (stats s)).

Section Rerun.
Context {H : Host}.
Import Js TestnetExecutor.

#[local] Instance ambient_outcome : Ambient (same outcome).
Proof. solve_ambient. Qed.

Lemma same_outcome s s' :
  same outcome s s' →
  wallets s' = wallets s ∧
  Stats.successful (stats s') = Stats.successful (stats s) ∧
  Stats.failed (stats s') = Stats.failed (stats s).
Proof. unfold same, outcome. intros Heq. by injection Heq. Qed.

Lemma wallets_loop_marked testnet config ps : ∀ s r s',
  (∀ w, w ∈ wallets s → name testnet ∈ completed w) →
  wallets_loop ps testnet config s = (r, s') →
  r = Ok tt ∧ same outcome s s'.
Proof.
  induction ps as [|p ps IH]; intros s r s' Hmarked; simpl.
  { by intros [= <- <-]. }
  unfold bind at 1, get at 1. destruct (exec_isRunning s); simpl.
  2:{ by intros [= <- <-]. }
  unfold bind at 1, get at 1.
  destruct (wallets s !! p) as [wallet|] eqn:Hp; simpl.
  2:{ by intros [= <- <-]. }
  rewrite bool_decide_eq_true_2.
  2:{ apply Hmarked. by eapply list_elem_of_lookup_2. }
  intros Hrun. cbv [bind record modify update_stats] in Hrun.
  apply IH in Hrun as [-> Ho]; [|done]. split; [done|].
  etrans; [|exact Ho]. reflexivity.
Qed.

Lemma executeTestnet_marked testnet config s r s' :
  (∀ w, w ∈ wallets s → name testnet ∈ completed w) →
  executeTestnet testnet config s = (r, s') →
  r = Ok tt ∧ same outcome s s'.
Proof.
  intros Hmarked. unfold executeTestnet. unfold bind at 1, get at 1.
  destruct (randomizeOrder config).
  - intros [(ps & s1 & Hsh & Hloop) | (e & Hsh & _)]%bind_inv.
    2:{ by apply shuffleArray_run in Hsh as (_ & ? & ? & _). }
    apply shuffleArray_run in Hsh as ([n ->] & _).
    by eapply wallets_loop_marked in Hloop.
  - unfold bind at 1, ret at 1. by apply wallets_loop_marked.
Qed.

Lemma testnets_loop_marked config ts : ∀ s r s',
  all_marked ts s →
  testnets_loop ts config s = (r, s') →
  r = Ok tt ∧ same outcome s s'.
Proof.
  induction ts as [|t ts IH]; intros s r s' Hmarked; simpl.
  { by intros [= <- <-]. }
  unfold bind at 1, get at 1. destruct (exec_isRunning s); simpl.
  2:{ by intros [= <- <-]. }
  intros [(? & s0 & Hemit & Hrest) | (e & Hemit & _)]%bind_inv;
    rewrite emit_run in Hemit; [|done].
  injection Hemit as _ <-.
  apply bind_inv in Hrest as [(? & s1 & Htest & Hrest) | (e & Htest & _)].
  2:{ eapply executeTestnet_marked in Htest as [? _]; [done|].
      intros w Hw. apply Hmarked; [by left | done]. }
  eapply executeTestnet_marked in Htest as (_ & Ho1).
  2:{ intros w Hw. apply Hmarked; [by left | done]. }
  apply bind_inv in Hrest as [(? & s2 & Hdelay & Hrest) | (e & Hdelay & _)].
  2:{ eapply no_throw_ok in Hdelay as [? ?]; [done | respects_auto]. }
  eapply (respects_run (same outcome)) in Hdelay; [|respects_auto].
  assert (same outcome s s2) as Ho2 by (etrans; [exact Ho1 | exact Hdelay]).
  apply IH in Hrest as (-> & Ho'); [split; [done | by etrans]|].
  intros t' w Ht' Hw. apply same_outcome in Ho2 as (Hw2 & _).
  rewrite Hw2 in Hw. apply Hmarked; [by right | done].
Qed.

(** A run over wallets that list every network already executes
    nothing: no success, no failure, no wallet changed. *)
Lemma executeAll_marked testnets config s :
  exec_isRunning s = false → all_marked testnets s →
  let s' := (executeAll testnets config s).2 in
  Stats.successful (stats s') = 0 ∧ Stats.failed (stats s') = 0 ∧
  wallets s' = wallets s.
Proof.
  intros Hidle Hmarked.
  destruct (executeAll testnets config s) as [r s'] eqn:Hrun. simpl.
  unfold executeAll, WalletManager.getWallets in Hrun.
  unfold bind at 1, get at 1 in Hrun. rewrite Hidle in Hrun.
  cbv [bind modify try_finally try_catch get] in Hrun. simpl in Hrun.
  destruct (wallets s) as [|w ws] eqn:Hws; simpl in Hrun.
  { by injection Hrun as <- <-. }
  destruct testnets as [|t ts] eqn:Hts; simpl in Hrun.
  { by injection Hrun as <- <-. }
  rewrite <- Hts in *. cbv [emit modify update_stats] in Hrun.
  set (s0 := set_output _ _) in Hrun.
  destruct ((if randomizeOrder config then Helpers.shuffleArray testnets
             else ret testnets) s0) as [r1 s1] eqn:Hsh.
  assert (∃ ordered, r1 = Ok ordered ∧ ordered ≡ₚ testnets ∧
                     ∃ n, s1 = set_n_random n s0) as (ordered & -> & Hp & n & ->).
  { destruct (randomizeOrder config).
    - apply shuffleArray_run in Hsh as (Hn & l' & -> & Hp). by exists l'.
    - injection Hsh as <- <-. exists testnets. split_and!; try done.
      exists (n_random s0). by destruct s0. }
  set (s2 := set_stats _ _) in Hrun.
  destruct (testnets_loop ordered config s2) as [r3 s3] eqn:Hloop.
  eapply testnets_loop_marked in Hloop as (-> & Ho).
  2:{ intros t' w' Ht' Hw'. apply Hmarked; [by rewrite <- Hp|].
      subst s2 s0. exact Hw'. }
  apply same_outcome in Ho as (Hw3 & Hs3 & Hf3).
  destruct (exec_isRunning s3); simpl in Hrun; injection Hrun as <- <-;
    simpl; rewrite Hw3, Hs3, Hf3; subst s2 s0; simpl; by rewrite Hws.
Qed.
End Rerun.

(** The wallet store grows: the wallets keep their positions and index
    values, and their lists of completed networks only get longer. *)
Definition grows : relation State := fun s s' =>
  index <$> wallets s' = index <$> wallets s ∧
  ∀ p w, wallets s !! p = Some w →
         ∃ w', wallets s' !! p = Some w' ∧ completed w ⊆ completed w'.

Lemma grows_intro s s' : wallets s' = wallets s → grows s s'.
Proof. intros Hw. split; [by rewrite Hw|]. intros p w Hp. exists w. by rewrite Hw. Qed.

#[export] Instance grows_preorder : PreOrder grows.
Proof.
  split.
  - intros s. by apply grows_intro.
  - intros s1 s2 s3 [Hi12 Hg12] [Hi23 Hg23]. split; [congruence|].
    intros p w Hp. destruct (Hg12 p w Hp) as (w2 & Hp2 & Hsub2).
    destruct (Hg23 p w2 Hp2) as (w3 & Hp3 & Hsub3).
    exists w3. split; [done | by etrans].
Qed.

(** What the tasks of one unit leave alone. *)
Definition books (s : State) := (stats s, wallets s).

Section FirstRun.
Context {H : Host}.
Import Js TestnetExecutor.

#[local] Instance ambient_grows : Ambient grows.
Proof. split; [apply _ | intros; by apply grows_intro ..]. Qed.

#[local] Instance storage_grows : Storage grows.
Proof. split; [split|..]; intros; by apply grows_intro. Qed.

#[local] Instance bookkeeping_grows : Bookkeeping grows.
Proof. split; intros; by apply grows_intro. Qed.

#[local] Instance ambient_books : Ambient (same books).
Proof. solve_ambient. Qed.

#[local] Instance storage_books : Storage (same books).
Proof. split; [split|..]; intros; reflexivity. Qed.

Lemma same_books s s' :
  same books s s' → stats s' = stats s ∧ wallets s' = wallets s.
Proof. unfold same, books. intros Heq. by injection Heq. Qed.

Lemma mark_grows idx testnetName s p w :
  list_find (fun w => index w = idx) (wallets s) = Some (p, w) →
  grows s
    (set_wallets
       (<[p := set_completed (completed w ++ [testnetName]) w]> (wallets s)) s).
Proof.
  intros (Hp & _ & _)%list_find_Some. split; simpl.
  - rewrite list_fmap_insert. simpl. apply list_insert_id.
    by rewrite list_lookup_fmap, Hp.
  - intros q w0 Hq. destruct (decide (q = p)) as [->|Hne].
    + rewrite Hp in Hq. injection Hq as <-.
      eexists. split; [apply list_lookup_insert_eq; by eapply lookup_lt_Some|].
      simpl. intros x Hx. apply elem_of_app. by left.
    + exists w0. by rewrite list_lookup_insert_ne.
Qed.

(** With distinct index values, marking through the index of the wallet
    at position [p] marks that very wallet. *)
Lemma markTestnetCompleted_spec p wallet testnetName s r s' :
  wallets s !! p = Some wallet → NoDup (index <$> wallets s) →
  WalletManager.markTestnetCompleted (index wallet) testnetName s = (r, s') →
  stats s' = stats s ∧ grows s s' ∧
  ∃ w', wallets s' !! p = Some w' ∧ testnetName ∈ completed w'.
Proof.
  intros Hp Hnodup. unfold WalletManager.markTestnetCompleted,
    WalletManager.getWalletByIndex.
  unfold bind at 1, get at 1.
  destruct (list_find _ (wallets s)) as [[q w]|] eqn:Hfind.
  2:{ apply list_find_None in Hfind.
      apply list_elem_of_lookup_2 in Hp.
      by eapply Forall_forall in Hfind. }
  pose proof Hfind as (Hq & Hidx & _)%list_find_Some.
  assert (q = p) as ->.
  { eapply NoDup_lookup; [exact Hnodup | |];
      rewrite list_lookup_fmap; [rewrite Hq | rewrite Hp]; simpl; by f_equal. }
  assert (w = wallet) as -> by congruence.
  destruct (bool_decide _) eqn:Hin.
  - intros [= <- <-]. split_and!; [done | reflexivity |].
    exists wallet. split; [done|]. by apply bool_decide_eq_true_1 in Hin.
  - unfold bind, modify. intros Hsave.
    match type of Hsave with
    | context [WalletManager.saveWallets ?s1] =>
        destruct (WalletManager.saveWallets s1) as [r1 s2] eqn:Hs
    end.
    assert (s' = s2) as -> by (destruct r1; by injection Hsave).
    eapply (respects_run (same books)) in Hs;
      [|apply respects_saveWallets; apply _].
    apply same_books in Hs as [Hst Hw]. simpl in Hst, Hw. split_and!.
    + done.
    + etrans; [exact (mark_grows _ testnetName _ _ _ Hfind)|].
      apply grows_intro. by rewrite Hw.
    + rewrite Hw. eexists. split.
      * apply list_lookup_insert_eq. by eapply lookup_lt_Some.
      * simpl. apply elem_of_app. right. by apply list_elem_of_singleton.
Qed.

#[local] Instance ambient_stats : Ambient (same stats).
Proof. solve_ambient. Qed.

#[local] Instance storage_stats : Storage (same stats).
Proof. split; [split|..]; intros; reflexivity. Qed.

(** One unit of work either fails, or leaves its wallet marked. *)
Lemma run_wallet_marks p wallet testnet config s r s' :
  wallets s !! p = Some wallet → NoDup (index <$> wallets s) →
  run_wallet p wallet testnet config s = (r, s') →
  Stats.completed (stats s') = Stats.completed (stats s) + 1 ∧
  (Stats.failed (stats s') = Stats.failed (stats s) + 1 ∨
   (Stats.failed (stats s') = Stats.failed (stats s) ∧
    ∃ w', wallets s' !! p = Some w' ∧ name testnet ∈ completed w')).
Proof.
  intros Hp Hnodup. unfold run_wallet.
  intros [(? & sa & Htry & Hrest) | (e & Htry & _)]%bind_inv.
  2:{ by apply run_wallet_try in Htry as [? _]. }
  apply bind_inv in Hrest as [(? & sb & Hupd & Hrest) | (e & Hupd & _)];
    rewrite update_stats_run in Hupd; [|done].
  injection Hupd as _ <-.
  eapply (respects_run (same books)) in Hrest; [|respects_auto].
  apply same_books in Hrest as [Hst' Hw']. simpl in Hst', Hw'.
  rewrite Hst', Hw'. clear Hst' Hw'.
  apply try_catch_inv in Htry as [([] & Hbody & _) | (e & st & Hbody & Hh)].
  - apply bind_inv in Hbody as [(? & s1 & H1 & Hbody) | (e & _ & ?)]; [|done].
    rewrite record_run in H1. injection H1 as _ <-.
    apply bind_inv in Hbody as [(? & s2 & H2 & Hbody) | (e & _ & ?)]; [|done].
    apply bind_inv in Hbody as [(? & s3 & H3 & Hbody) | (e & _ & ?)]; [|done].
    cbv [bind update_stats emit modify] in Hbody. injection Hbody as <-.
    eapply (respects_run (same books)) in H2;
      [|apply respects_executeWalletTasks, _].
    apply same_books in H2 as [Hst2 Hw2]. simpl in Hst2, Hw2.
    eapply markTestnetCompleted_spec in H3 as (Hst3 & _ & w' & Hp3 & Hin);
      [| by rewrite Hw2 | by rewrite Hw2].
    simpl. rewrite Hst3, Hst2. simpl. split; [lia|]. right. split; [lia|].
    by exists w'.
  - cbv [bind update_stats emit modify] in Hh. injection Hh as _ <-.
    assert (stats st = stats s) as Hst.
    { revert Hbody. generalize st. generalize e. generalize s.
      change (throws_along (same stats)
        (record (ExecuteWalletTasks (name testnet) p) >>
         executeWalletTasks testnet wallet config >>
         WalletManager.markTestnetCompleted (index wallet) (name testnet) >>
         update_stats incr_successful >>
         emit (Activity ("Wallet " +:+ wallet_label wallet +:+ ": "
                         +:+ name testnet +:+ " completed") "info"))).
      apply throws_along_bind;
        [apply _ | by apply respects_modify | intros _].
      apply throws_along_bind;
        [apply _ | apply respects_executeWalletTasks, _ | intros _].
      apply throws_along_bind; [apply _ | | intros _].
      { apply respects_markTestnetCompleted; [apply _ .. | done]. }
      apply no_throw_throws. unfold update_stats. respects_auto. }
    simpl. rewrite Hst. simpl. split; [lia | left; lia].
Qed.

Lemma grows_lookup s s' p w x :
  grows s s' → wallets s !! p = Some w → x ∈ completed w →
  ∃ w', wallets s' !! p = Some w' ∧ x ∈ completed w'.
Proof.
  intros [_ Hg] Hp Hx. destruct (Hg p w Hp) as (w' & Hp' & Hsub).
  exists w'. split; [done | by apply Hsub].
Qed.

Lemma grows_NoDup s s' :
  grows s s' → NoDup (index <$> wallets s) → NoDup (index <$> wallets s').
Proof. intros [-> _]. done. Qed.

Lemma wallets_loop_marks testnet config ps : ∀ s r s',
  NoDup (index <$> wallets s) →
  wallets_loop ps testnet config s = (r, s') →
  r = Ok tt ∧
  Stats.failed (stats s) ≤ Stats.failed (stats s') ∧
  Stats.completed (stats s') ≤ Stats.completed (stats s) + Z.of_nat (length ps) ∧
  (Stats.failed (stats s') = Stats.failed (stats s) →
   Stats.completed (stats s') = Stats.completed (stats s) + Z.of_nat (length ps) →
   ∀ p, p ∈ ps → ∃ w, wallets s' !! p = Some w ∧ name testnet ∈ completed w).
Proof.
  induction ps as [|p ps IH]; intros s r s' Hnodup; simpl.
  { intros [= <- <-]. split_and!; try done; try lia.
    intros _ _ p Hp. by apply elem_of_nil in Hp. }
  unfold bind at 1, get at 1. destruct (exec_isRunning s); simpl.
  2:{ intros [= <- <-]. split_and!; try done; try lia. }
  unfold bind at 1, get at 1.
  destruct (wallets s !! p) as [wallet|] eqn:Hp; simpl.
  2:{ intros [= <- <-]. split_and!; try done; try lia. }
  destruct (bool_decide _) eqn:Hin.
  - apply bool_decide_eq_true_1 in Hin.
    intros Hrun. cbv [bind record modify update_stats] in Hrun.
    match type of Hrun with
    | wallets_loop _ _ _ ?s1 = _ => set (s1' := s1) in *
    end.
    pose proof Hrun as Hg1.
    eapply (respects_run grows) in Hg1;
      [|apply respects_wallets_loop; try apply _; intros; by eapply mark_grows].
    apply IH in Hrun as (-> & Hf & Hc & Hm); [|done].
    subst s1'. simpl in *. split_and!; try done; try lia.
    intros Hf' Hc' q [->|Hq]%elem_of_cons.
    + by eapply (grows_lookup _ _ _ _ _ Hg1).
    + apply Hm; [lia | lia | done].
  - intros [([] & s1 & Hunit & Hrest) | (e & Hunit & _)]%bind_inv.
    2:{ exfalso. unfold run_wallet in Hunit.
        apply bind_inv in Hunit as [(? & sa & Htry & Hunit) | (e' & Htry & _)].
        - eapply no_throw_ok in Hunit as [? ?]; [done|].
          unfold update_stats. respects_auto. apply no_throw_updateProgress.
        - by apply run_wallet_try in Htry as [? _]. }
    pose proof Hunit as Hg0.
    eapply (respects_run grows) in Hg0;
      [|apply respects_run_wallet; try apply _; intros; by eapply mark_grows].
    pose proof Hrest as Hg1.
    eapply (respects_run grows) in Hg1;
      [|apply respects_wallets_loop; try apply _; intros; by eapply mark_grows].
    eapply run_wallet_marks in Hunit as (Hc1 & Hcase); [|done..].
    apply IH in Hrest as (-> & Hf & Hc & Hm); [|by eapply grows_NoDup].
    split_and!; try done; try lia.
    intros Hf' Hc' q [->|Hq]%elem_of_cons.
    + destruct Hcase as [?|(_ & w' & Hp1 & Hin1)]; [lia|].
      by eapply (grows_lookup _ _ _ _ _ Hg1).
    + apply Hm; [lia | lia | done].
Qed.

Lemma respects_grows_executeTestnet testnet config :
  respects grows (executeTestnet testnet config).
Proof.
  apply respects_executeTestnet; try apply _. intros. by eapply mark_grows.
Qed.

Lemma executeTestnet_marks testnet config s r s' :
  NoDup (index <$> wallets s) →
  executeTestnet testnet config s = (r, s') →
  r = Ok tt ∧
  Stats.failed (stats s) ≤ Stats.failed (stats s') ∧
  Stats.completed (stats s') ≤ Stats.completed (stats s) + Z.of_nat (wlen s) ∧
  (Stats.failed (stats s') = Stats.failed (stats s) →
   Stats.completed (stats s') = Stats.completed (stats s) + Z.of_nat (wlen s) →
   ∀ w, w ∈ wallets s' → name testnet ∈ completed w).
Proof.
  intros Hnodup Hrun.
  pose proof Hrun as Hg.
  eapply (respects_run grows) in Hg; [|apply respects_grows_executeTestnet].
  assert (∃ ps s0, ps ≡ₚ seq 0 (wlen s) ∧ stats s0 = stats s ∧
                   wallets s0 = wallets s ∧
                   wallets_loop ps testnet config s0 = (r, s'))
    as (ps & s0 & Hperm & Hst0 & Hw0 & Hloop).
  { revert Hrun. unfold executeTestnet. unfold bind at 1, get at 1.
    destruct (randomizeOrder config).
    - intros [(ps & s1 & Hsh & Hloop) | (e & Hsh & _)]%bind_inv.
      2:{ by apply shuffleArray_run in Hsh as (_ & ? & ? & _). }
      apply shuffleArray_run in Hsh as ([n ->] & l' & [= <-] & Hp).
      by exists ps, (set_n_random n s).
    - unfold bind at 1, ret at 1. intros Hloop.
      by exists (seq 0 (length (wallets s))), s. }
  eapply wallets_loop_marks in Hloop as (-> & Hf & Hc & Hm); [|by rewrite Hw0].
  rewrite Hst0 in Hf, Hc, Hm.
  assert (length ps = wlen s) as Hlen.
  { rewrite Hperm. apply length_seq. }
  rewrite Hlen in Hc, Hm. split_and!; try done.
  intros Hf' Hc' w [p Hp]%list_elem_of_lookup_1.
  destruct (Hm Hf' Hc' p) as (w' & Hp' & Hin); [|congruence].
  rewrite Hperm. apply elem_of_seq. split; [lia|]. simpl.
  apply lookup_lt_Some in Hp. destruct Hg as [Hidx _].
  apply (f_equal length) in Hidx. rewrite !length_fmap in Hidx.
  unfold wlen. lia.
Qed.

Lemma testnets_loop_marks config ts : ∀ s r s',
  NoDup (index <$> wallets s) →
  testnets_loop ts config s = (r, s') →
  r = Ok tt ∧
  Stats.failed (stats s) ≤ Stats.failed (stats s') ∧
  Stats.completed (stats s')
    ≤ Stats.completed (stats s) + Z.of_nat (length ts) * Z.of_nat (wlen s) ∧
  (Stats.failed (stats s') = Stats.failed (stats s) →
   Stats.completed (stats s')
     = Stats.completed (stats s) + Z.of_nat (length ts) * Z.of_nat (wlen s) →
   all_marked ts s').
Proof.
  induction ts as [|t ts IH]; intros s r s' Hnodup; simpl length.
  { simpl. intros [= <- <-]. split_and!; try done; try lia.
    intros _ _ t w Ht. by apply elem_of_nil in Ht. }
  simpl. unfold bind at 1, get at 1. destruct (exec_isRunning s); simpl.
  2:{ intros [= <- <-]. split_and!; try done; try lia. intros _ Hc t' w _ Hw.
      assert (wlen s = 0%nat) as Hz by nia.
      unfold wlen in Hz. apply nil_length_inv in Hz. rewrite Hz in Hw.
      by apply elem_of_nil in Hw. }
  intros [(? & s0 & Hemit & Hrest) | (e & Hemit & _)]%bind_inv;
    rewrite emit_run in Hemit; [|done].
  injection Hemit as _ <-.
  apply bind_inv in Hrest as [(? & s1 & Htest & Hrest) | (e & Htest & _)].
  2:{ by eapply executeTestnet_marks in Htest as [? _]. }
  pose proof Htest as Hg1.
  eapply (respects_run grows) in Hg1; [|apply respects_grows_executeTestnet].
  eapply executeTestnet_marks in Htest as (_ & Hf1 & Hc1 & Hm1); [|done].
  apply bind_inv in Hrest as [(? & s2 & Hdelay & Hrest) | (e & Hdelay & _)].
  2:{ eapply no_throw_ok in Hdelay as [? ?]; [done | respects_auto]. }
  eapply (respects_run (same books)) in Hdelay; [|respects_auto].
  apply same_books in Hdelay as [Hst2 Hw2].
  assert (grows s s2) as Hg2.
  { etrans; [exact Hg1 | by apply grows_intro]. }
  pose proof Hrest as Hg'.
  eapply (respects_run grows) in Hg';
    [|apply respects_testnets_loop; try apply _; intros; by eapply mark_grows].
  apply IH in Hrest as (-> & Hf' & Hc' & Hm'); [|by eapply grows_NoDup].
  assert (wlen s2 = wlen s) as Hlen.
  { destruct Hg2 as [Hidx _]. apply (f_equal length) in Hidx.
    rewrite !length_fmap in Hidx. done. }
  rewrite Hlen, Hst2 in *. unfold wlen in *. simpl in *.
  split_and!; try done; try lia; try nia.
  intros Hfe Hce t' w [->|Ht']%elem_of_cons Hw.
  - apply list_elem_of_lookup_1 in Hw as [p Hp].
    assert (∃ w1, wallets s1 !! p = Some w1) as [w1 Hp1].
    { apply lookup_lt_is_Some. apply lookup_lt_Some in Hp.
      destruct Hg' as [Hidx _]. apply (f_equal length) in Hidx.
      rewrite !length_fmap, Hw2 in Hidx. lia. }
    assert (name t ∈ completed w1) as Hin1.
    { apply Hm1; [lia | nia | by eapply list_elem_of_lookup_2]. }
    rewrite <- Hw2 in Hp1.
    destruct (grows_lookup _ _ _ _ _ Hg' Hp1 Hin1) as (w' & Hp' & Hin').
    congruence.
  - apply Hm'; [lia | nia | done | done].
Qed.

(** A first run that completes every unit without a failure leaves every
    wallet marked with every network. *)
Lemma executeAll_marks testnets config s :
  exec_isRunning s = false → NoDup (index <$> wallets s) →
  let s' := (executeAll testnets config s).2 in
  Stats.failed (stats s') = 0 →
  Stats.completed (stats s') = Stats.totalTasks (stats s') →
  all_marked testnets s' ∧ exec_isRunning s' = false.
Proof.
  intros Hidle Hnodup s' Hfail Hall.
  destruct (executeAll_spec testnets config s Hidle) as [((Ht & _) & _) _].
  fold s' in Ht. unfold view in Ht. simpl in Ht. rewrite Ht in Hall. clear Ht.
  revert Hfail Hall. subst s'.
  destruct (executeAll testnets config s) as [r s'] eqn:Hrun. simpl.
  unfold executeAll, WalletManager.getWallets in Hrun.
  unfold bind at 1, get at 1 in Hrun. rewrite Hidle in Hrun.
  cbv [bind modify try_finally try_catch get] in Hrun. simpl in Hrun.
  destruct (wallets s) as [|w ws] eqn:Hws; simpl in Hrun.
  { injection Hrun as <- <-. simpl. intros _ _. split; [|done].
    intros t w _ Hw. simpl in Hw. rewrite Hws in Hw.
    by apply elem_of_nil in Hw. }
  destruct testnets as [|t ts] eqn:Hts; simpl in Hrun.
  { injection Hrun as <- <-. simpl. intros _ _. split; [|done].
    intros t0 w0 Ht. by apply elem_of_nil in Ht. }
  rewrite <- Hts in *. cbv [emit modify update_stats] in Hrun.
  set (s0 := set_output _ _) in Hrun.
  destruct ((if randomizeOrder config then Helpers.shuffleArray testnets
             else ret testnets) s0) as [r1 s1] eqn:Hsh.
  assert (∃ ordered, r1 = Ok ordered ∧ ordered ≡ₚ testnets ∧
                     ∃ n, s1 = set_n_random n s0) as (ordered & -> & Hp & n & ->).
  { destruct (randomizeOrder config).
    - apply shuffleArray_run in Hsh as (Hn & l' & -> & Hp). by exists l'.
    - injection Hsh as <- <-. exists testnets. split_and!; try done.
      exists (n_random s0). by destruct s0. }
  set (s2 := set_stats _ _) in Hrun.
  destruct (testnets_loop ordered config s2) as [r3 s3] eqn:Hloop.
  eapply testnets_loop_marks in Hloop as (-> & _ & _ & Hm).
  2:{ subst s2 s0. simpl. by rewrite Hws. }
  assert (stats s' = stats s3 ∧ wallets s' = wallets s3 ∧
          exec_isRunning s' = false) as (Hst & Hw & Hoff).
  { destruct (exec_isRunning s3); simpl in Hrun; by injection Hrun as <- <-. }
  rewrite Hst. intros Hfail Hall. split; [|done].
  intros t' w' Ht' Hw'. rewrite Hw in Hw'.
  apply (Hm Hfail); [|by rewrite Hp | done].
  rewrite Hall. subst s2 s0. unfold wlen. simpl.
  rewrite Hws. apply Permutation_length in Hp. rewrite Hp. simpl length. lia.
Qed.
End FirstRun.

(** The units of work that a stretch of steps has executed. *)
Fixpoint executed (cs : list Call) : Z :=
  match cs with
  | [] => 0
  | ExecuteWalletTasks _ _ :: rest => 1 + executed rest
  | _ :: rest => executed rest
  end.

Lemma executed_app cs1 cs2 : executed (cs1 ++ cs2) = executed cs1 + executed cs2.
Proof. induction cs1 as [|[] cs1 IH]; simpl; lia. Qed.

(** What a run has counted as successful or failed, and the units it
    has executed. *)
Definition counted (s : State) : Z * Z * Z :=
  (Stats.successful (stats s), Stats.failed (stats s), executed (calls s)).

(** The units counted, less the units executed. *)
Definition tally (s : State) : Z :=
  Stats.successful (stats s) + Stats.failed (stats s) - executed (calls s).

(** A stretch of a run that executes a unit only if its wallet does not
    list the network: the wallets keep their positions, their lists of
    completed networks only grow, and every unit executed was not
    listed when the stretch began. *)
Definition skips_listed : relation State := fun s s' =>
  grows s s' ∧
  ∃ new, calls s' = calls s ++ new ∧
         ∀ n p w, ExecuteWalletTasks n p ∈ new →
                  wallets s !! p = Some w → n ∉ completed w.

Lemma skips_listed_intro s s' :
  wallets s' = wallets s → calls s' = calls s → skips_listed s s'.
Proof.
  intros Hw Hc. split; [by apply grows_intro|]. exists [].
  split; [by rewrite app_nil_r|]. intros n p w Hin. by apply elem_of_nil in Hin.
Qed.

Lemma skips_listed_step s c :
  (∀ n p w, c = ExecuteWalletTasks n p →
            wallets s !! p = Some w → n ∉ completed w) →
  skips_listed s (set_calls (calls s ++ [c]) s).
Proof.
  intros Hc. split; [by apply grows_intro|]. exists [c]. split; [done|].
  intros n p w Hin%list_elem_of_singleton Hp. by eapply Hc.
Qed.

#[export] Instance skips_listed_preorder : PreOrder skips_listed.
Proof.
  split.
  - intros s. by apply skips_listed_intro.
  - intros s1 s2 s3 (Hg12 & new1 & Hc1 & Hu1) (Hg23 & new2 & Hc2 & Hu2).
    split; [by etrans|]. exists (new1 ++ new2).
    split; [by rewrite Hc2, Hc1, app_assoc|].
    intros n p w [Hin | Hin]%elem_of_app Hp; [by eapply Hu1|].
    intros Hlisted.
    destruct (grows_lookup _ _ _ _ _ Hg12 Hp Hlisted) as (w2 & Hp2 & Hin2).
    by eapply Hu2.
Qed.

(** The loops of a run, for a relation that the units of work respect. *)
Section RunByUnits.
Context {H : Host} (R : relation State) `{!Ambient R}.
Import Js TestnetExecutor.
Hypothesis skip : ∀ n p, respects R (record (SkipCompleted n p)).
Hypothesis count : respects R (update_stats incr_completed).
Hypothesis unit :
  ∀ p wallet testnet config s,
    wallets s !! p = Some wallet → name testnet ∉ completed wallet →
    R s (run_wallet p wallet testnet config s).2.

Lemma units_wallets_loop ps testnet config :
  respects R (wallets_loop ps testnet config).
Proof.
  induction ps as [|p ps IH]; intros s; simpl; [reflexivity|].
  unfold bind at 1, get at 1. destruct (exec_isRunning s); simpl; [|reflexivity].
  unfold bind at 1, get at 1.
  destruct (wallets s !! p) as [wallet|] eqn:Hp; simpl; [|reflexivity].
  destruct (bool_decide _) eqn:Hin.
  - exact (respects_bind R _ _ (skip _ _)
             (fun _ => respects_bind R _ _ count (fun _ => IH)) s).
  - apply bool_decide_eq_false_1 in Hin.
    pose proof (unit p wallet testnet config s Hp Hin) as Hunit.
    unfold bind. destruct (run_wallet p wallet testnet config s) as [[[]|e] s1];
      simpl in *; [|done].
    etrans; [exact Hunit | apply IH].
Qed.

Lemma units_executeTestnet testnet config :
  respects R (executeTestnet testnet config).
Proof. unfold executeTestnet. respects_auto; apply units_wallets_loop. Qed.

Lemma units_testnets_loop ts config : respects R (testnets_loop ts config).
Proof.
  induction ts as [|t ts IH]; simpl; respects_auto.
  apply units_executeTestnet.
Qed.
End RunByUnits.

Section ListedUnits.
Context {H : Host}.
Import Js TestnetExecutor.

#[local] Instance ambient_skips_listed : Ambient skips_listed.
Proof. split; [apply _ | intros; by apply skips_listed_intro ..]. Qed.

#[local] Instance storage_skips_listed : Storage skips_listed.
Proof.
  split; [split|..]; try (intros; by apply skips_listed_intro).
  intros item s. by apply skips_listed_step.
Qed.

#[local] Instance ambient_executed : Ambient (same (fun s => executed (calls s))).
Proof. solve_ambient. Qed.

#[local] Instance storage_executed : Storage (same (fun s => executed (calls s))).
Proof.
  split; [split|..]; try (intros; reflexivity).
  intros item s. unfold same. simpl. rewrite executed_app. simpl. lia.
Qed.

#[local] Instance ambient_counted : Ambient (same counted).
Proof. solve_ambient. Qed.

#[local] Instance ambient_tally : Ambient (same tally).
Proof. solve_ambient. Qed.

Lemma mark_skips_listed idx testnetName s p w :
  list_find (fun w => index w = idx) (wallets s) = Some (p, w) →
  skips_listed s
    (set_wallets
       (<[p := set_completed (completed w ++ [testnetName]) w]> (wallets s)) s).
Proof.
  intros Hfind. split; [by eapply mark_grows|]. exists [].
  split; [by rewrite app_nil_r|]. intros n q w0 Hin. by apply elem_of_nil in Hin.
Qed.

(** The unit of work after its first step, which records it. *)
Lemma run_wallet_recorded p wallet testnet config s :
  run_wallet p wallet testnet config s =
  (try_catch
     (executeWalletTasks testnet wallet config >>
      WalletManager.markTestnetCompleted (index wallet) (name testnet) >>
      update_stats incr_successful >>
      emit (Activity ("Wallet " +:+ wallet_label wallet +:+ ": "
                      +:+ name testnet +:+ " completed") "info"))
     (fun message =>
        update_stats incr_failed >>
        emit (Activity ("Wallet " +:+ wallet_label wallet +:+ ": "
                        +:+ message) "error")) >>
   update_stats incr_completed >>
   updateProgress >>
   let* running := get exec_isRunning in
   when (negb (walletDelay config =? 0) && running)
        (Helpers.randomDelay (walletDelay config * 1000) None))
    (set_calls (calls s ++ [ExecuteWalletTasks (name testnet) p]) s).
Proof. reflexivity. Qed.

Lemma run_wallet_skips_listed p wallet testnet config s :
  wallets s !! p = Some wallet → name testnet ∉ completed wallet →
  skips_listed s (run_wallet p wallet testnet config s).2.
Proof.
  intros Hp Hin. rewrite run_wallet_recorded.
  etrans.
  { apply (skips_listed_step s (ExecuteWalletTasks (name testnet) p)).
    intros n q w [= <- <-] Hq. congruence. }
  match goal with |- skips_listed ?s1 (?m ?s1).2 => generalize s1 end.
  change (respects skips_listed
    (try_catch
       (executeWalletTasks testnet wallet config >>
        WalletManager.markTestnetCompleted (index wallet) (name testnet) >>
        update_stats incr_successful >>
        emit (Activity ("Wallet " +:+ wallet_label wallet +:+ ": "
                        +:+ name testnet +:+ " completed") "info"))
       (fun message =>
          update_stats incr_failed >>
          emit (Activity ("Wallet " +:+ wallet_label wallet +:+ ": "
                          +:+ message) "error")) >>
     update_stats incr_completed >>
     updateProgress >>
     let* running := get exec_isRunning in
     when (negb (walletDelay config =? 0) && running)
          (Helpers.randomDelay (walletDelay config * 1000) None))).
  assert (∀ f, respects skips_listed (update_stats f)) as Hstats.
  { intros f. apply respects_modify. intros s0. by apply skips_listed_intro. }
  respects_auto.
  apply respects_markTestnetCompleted; [apply _ .. |].
  intros s0 q w. apply mark_skips_listed.
Qed.

Lemma respects_skips_listed_executeAll testnets config :
  respects skips_listed (executeAll testnets config).
Proof.
  assert (∀ f, respects skips_listed (update_stats f)) as Hstats.
  { intros f. apply respects_modify. intros s0. by apply skips_listed_intro. }
  assert (∀ f, (∀ s, wallets (f s) = wallets s ∧ calls (f s) = calls s) →
               respects skips_listed (modify f)) as Hmodify.
  { intros f Hf. apply respects_modify. intros s0.
    apply skips_listed_intro; apply Hf. }
  unfold executeAll, WalletManager.getWallets. respects_step; [respects_step|].
  destruct a; [respects_auto|].
  respects_step; [by apply Hmodify|].
  respects_step; [by apply Hmodify|].
  apply respects_try_finally; [apply _ | | intros s; by apply skips_listed_intro].
  respects_auto.
  apply units_testnets_loop; try apply _.
  - intros n p. apply respects_modify. intros s. by apply skips_listed_step.
  - apply Hstats.
  - intros. by apply run_wallet_skips_listed.
Qed.

(** A unit of work adds one to the units executed and one to the units
    counted as successful or failed. *)
Lemma run_wallet_tally p wallet testnet config s :
  same tally s (run_wallet p wallet testnet config s).2.
Proof.
  destruct (run_wallet p wallet testnet config s) as [r s'] eqn:Hrun.
  assert (executed (calls s') = executed (calls s) + 1) as Hexecuted.
  { rewrite run_wallet_recorded in Hrun.
    eapply (respects_run (same (fun s => executed (calls s)))) in Hrun.
    - unfold same in Hrun. rewrite Hrun. simpl. rewrite executed_app. simpl. lia.
    - assert (∀ f, respects (same (fun s => executed (calls s)))
                     (update_stats f)) as Hstats.
      { intros f. by apply respects_modify. }
      respects_auto.
      apply respects_markTestnetCompleted; [apply _ .. |]. done. }
  simpl. unfold run_wallet in Hrun.
  apply bind_inv in Hrun as [(? & sa & Htry & Hrest) | (e & Htry & _)].
  2:{ by apply run_wallet_try in Htry as [? _]. }
  apply run_wallet_try in Htry as (_ & sq & [Hv _] & _ & _ & _ & Hst).
  assert (stats sq = stats s) as Hsq by (unfold view in Hv; congruence).
  eapply (respects_run (same (fun s => (Stats.successful (stats s),
                                         Stats.failed (stats s))))) in Hrest.
  2:{ assert (Ambient (same (fun s => (Stats.successful (stats s),
                                        Stats.failed (stats s)))))
        by solve_ambient.
      respects_auto. by apply respects_modify. }
  unfold same in Hrest. injection Hrest as Hs Hf.
  unfold same, tally. rewrite Hs, Hf, Hexecuted.
  destruct Hst as [-> | ->]; rewrite Hsq; simpl; lia.
Qed.

Lemma executeAll_ends_idle testnets config s :
  exec_isRunning s = false →
  exec_isRunning (executeAll testnets config s).2 = false.
Proof.
  intros Hidle. unfold executeAll, bind at 1, get at 1. rewrite Hidle.
  unfold bind at 1, modify at 1, bind at 1, modify at 1, try_finally.
  by destruct (try_catch _ _ _).
Qed.

(** A run that starts counts as successful or failed exactly the units
    it executes. *)
Lemma executeAll_tally testnets config s :
  exec_isRunning s = false →
  let s' := (executeAll testnets config s).2 in
  Stats.successful (stats s') + Stats.failed (stats s')
  = executed (calls s') - executed (calls s).
Proof.
  intros Hidle.
  destruct (executeAll testnets config s) as [r s'] eqn:Hrun. simpl.
  unfold executeAll, WalletManager.getWallets in Hrun.
  unfold bind at 1, get at 1 in Hrun. rewrite Hidle in Hrun.
  cbv [bind modify try_finally try_catch get] in Hrun. simpl in Hrun.
  destruct (wallets s) as [|w ws] eqn:Hws; simpl in Hrun.
  { injection Hrun as <- <-. simpl. lia. }
  destruct testnets as [|t ts] eqn:Hts; simpl in Hrun.
  { injection Hrun as <- <-. simpl. lia. }
  rewrite <- Hts in *. cbv [emit modify update_stats] in Hrun.
  set (s0 := set_output _ _) in Hrun.
  destruct ((if randomizeOrder config then Helpers.shuffleArray testnets
             else ret testnets) s0) as [r1 s1] eqn:Hsh.
  assert (∃ ordered, r1 = Ok ordered ∧ ∃ n, s1 = set_n_random n s0)
    as (ordered & -> & n & ->).
  { destruct (randomizeOrder config).
    - apply shuffleArray_run in Hsh as (Hn & l' & -> & Hp). by exists l'.
    - injection Hsh as <- <-. exists testnets. split; [done|].
      exists (n_random s0). by destruct s0. }
  set (s2 := set_stats _ _) in Hrun.
  destruct (testnets_loop ordered config s2) as [r3 s3] eqn:Hloop.
  eapply (respects_run (same tally)) in Hloop.
  2:{ apply units_testnets_loop; try apply _.
      - intros n0 p. apply respects_modify. intros s4. unfold same, tally.
        simpl. rewrite executed_app. simpl. lia.
      - by apply respects_modify.
      - intros. apply run_wallet_tally. }
  unfold same, tally in Hloop. subst s2 s0. simpl in Hloop.
  destruct r3 as [[]|e]; simpl in Hrun;
    [destruct (exec_isRunning s3); simpl in Hrun|];
    injection Hrun as <- <-; simpl; lia.
Qed.
End ListedUnits.

(** C8 (amended).  In a second run of [executeAll] over the same networks
    and wallets, whatever the first run did, a unit whose wallet lists
    the network is skipped: no task of it is executed.  The second run
    counts as successful or failed exactly the units it executes, none
    of which was listed.  So when the first run completed every unit
    without a failure (and the wallets have distinct index values), the
    second run counts no success and no failure and changes no wallet.
    Both runs are taken alone: nothing else of the page starts a run
    while one is suspended. *)
Theorem executeAll_rerun_skips {H : Host} testnets config config' s :
  exec_isRunning s = false →
  let s1 := (TestnetExecutor.executeAll (P := isolated) testnets config s).2 in
  let s2 := (TestnetExecutor.executeAll (P := isolated) testnets config' s1).2 in
  (∃ second,
     calls s2 = calls s1 ++ second ∧
     (∀ n p w, wallets s1 !! p = Some w → n ∈ completed w →
               ExecuteWalletTasks n p ∉ second) ∧
     Stats.successful (stats s2) + Stats.failed (stats s2) = executed second) ∧
  (NoDup (index <$> wallets s) →
   Stats.failed (stats s1) = 0 →
   Stats.completed (stats s1) = Stats.totalTasks (stats s1) →
   Stats.successful (stats s2) = 0 ∧ Stats.failed (stats s2) = 0 ∧
   wallets s2 = wallets s1).
Proof.
  intros Hidle s1 s2.
  pose proof (executeAll_ends_idle testnets config s Hidle) as Hidle1.
  fold s1 in Hidle1. split.
  - destruct (respects_skips_listed_executeAll testnets config' s1)
      as (_ & second & Hcalls & Hunlisted).
    fold s2 in Hcalls. exists second. split_and!; [done| |].
    + intros n p w Hp Hin Hex. by eapply Hunlisted.
    + pose proof (executeAll_tally testnets config' s1 Hidle1) as Htally.
      simpl in Htally. fold s2 in Htally.
      rewrite Htally, Hcalls, executed_app. lia.
  - intros Hnodup Hfail Hall.
    destruct (executeAll_marks testnets config s Hidle Hnodup Hfail Hall)
      as [Hmarked _].
    exact (executeAll_marked testnets config' s1 Hidle1 Hmarked).
Qed.

Lemma executeAll_rerun_skips_witness :
  let H := Example.host Example.half Example.never true in
  let s := set_wallets [Example.wallet 0 "0" []; Example.wallet 1 "0" []]
                       Example.initial in
  let testnets := [mkTestnet "A" "eth" (Some ["faucet"; "swap"]);
                   mkTestnet "B" "sol" None] in
  let s1 := (TestnetExecutor.executeAll (H:=H) (P := isolated) testnets
               (mkConfig false 0 0 false) s).2 in
  let s2 := (TestnetExecutor.executeAll (H:=H) (P := isolated) testnets
               (mkConfig true 1 1 true) s1).2 in
  stats s1 = Stats.mk 4 4 4 0 ∧
  Stats.successful (stats s2) = 0 ∧ Stats.failed (stats s2) = 0 ∧
  wallets s2 = wallets s1.
Proof.
  intros H s testnets s1 s2.
  assert (stats s1 = Stats.mk 4 4 4 0) as Hst1 by (vm_compute; reflexivity).
  split; [done|].
  destruct (executeAll_rerun_skips (H:=H) testnets (mkConfig false 0 0 false)
              (mkConfig true 1 1 true) s eq_refl) as [_ Hall].
  fold s1 s2 in Hall. apply Hall.
  - apply (bool_decide_unpack _). vm_compute. exact I.
  - by rewrite Hst1.
  - by rewrite Hst1.
Defined.

(** Draws that make the first two calls of [Math.random] return 0 and
    the later ones one half. *)
Definition fails_once : nat → Z := fun k => if (k <? 2)%nat then 0 else 2 ^ 52.

(** C8 as stated fails: a unit whose task failed in the first run is not
    in [completed], so the second run executes it again and counts it. *)
Lemma rerun_retries_failed_units :
  let H := Example.host fails_once Example.never true in
  let s := set_wallets [Example.wallet 0 "0" []] Example.initial in
  let testnets := [mkTestnet "A" "eth" None] in
  let config := mkConfig false 0 0 false in
  let s1 := (TestnetExecutor.executeAll (H:=H) (P := isolated) testnets
               config s).2 in
  let s2 := (TestnetExecutor.executeAll (H:=H) (P := isolated) testnets
               config s1).2 in
  Stats.failed (stats s1) = 1 ∧ completed <$> wallets s1 = [[]] ∧
  ¬ (Stats.successful (stats s2) = 0 ∧ Stats.failed (stats s2) = 0).
Proof.
  intros H s testnets config s1 s2.
  assert (stats s1 = Stats.mk 1 1 0 1) as Hst1 by (vm_compute; reflexivity).
  assert (completed <$> wallets s1 = [[]]) as Hw1 by (vm_compute; reflexivity).
  assert (stats s2 = Stats.mk 1 1 1 0) as Hst2 by (vm_compute; reflexivity).
  rewrite Hst1, Hst2. simpl. split_and!; [done | done | intros [? _]; done].
Qed.

(** * Wallet generation *)

Section GenerationSteps.
Context {H : Host} (R : relation State) `{!Ambient R}.
Import Js WalletManager.

Lemma respects_randomWords n acc : respects R (randomWords n acc).
Proof. revert acc. induction n as [|n IH]; intros acc; simpl; respects_auto. Qed.

Lemma respects_generateSingleWallet chainType idx :
  respects R (_generateSingleWallet chainType idx).
Proof.
  unfold _generateSingleWallet, _generateEVMWallet, _generateSolanaWallet,
    _generateRandomHex, _generateMnemonic.
  respects_auto; apply respects_randomWords.
Qed.

Lemma respects_batch_from n : ∀ i chainType startIndex acc,
  respects R (batch_from n i chainType startIndex acc).
Proof.
  induction n as [|n IH]; intros i chainType startIndex acc; simpl;
    respects_auto. apply respects_generateSingleWallet.
Qed.

Lemma respects_generate_from fuel count chainType : ∀ i acc,
  respects R (generate_from fuel count chainType i acc).
Proof.
  induction fuel as [|fuel IH]; intros i acc; cbn [generate_from];
    destruct (i <? count); respects_auto;
    first [ unfold _generateBatch; apply respects_batch_from
          | unfold _updateProgress, _delay; respects_auto ].
Qed.
End GenerationSteps.

Section Generation.
Context {H : Host}.
Import Js WalletManager.

Lemma no_throw_randomWords n acc : no_throw (randomWords n acc).
Proof.
  revert acc. induction n as [|n IH]; intros acc; simpl; respects_auto.
Qed.

Definition supported (chainType : string) : Prop :=
  chainType = "evm" ∨ chainType = "solana".

(** A wallet of a supported chain is always produced, with the index
    asked for. *)
Lemma generateSingleWallet_ok chainType idx s r s' :
  supported chainType →
  _generateSingleWallet chainType idx s = (r, s') →
  ∃ w, r = Ok w ∧ index w = idx.
Proof.
  intros Hsup. unfold _generateSingleWallet.
  assert (∀ (ct addr : string → string) tag,
            (let* privateKey := _generateRandomHex 64 in
             let address := addr privateKey in
             let* mnemonic := _generateMnemonic in
             let* now := Date_now_ in
             ret (mkWallet idx tag address privateKey mnemonic now "0" [])) s
            = (r, s') → ∃ w, r = Ok w ∧ index w = idx) as Hgen.
  { intros _ addr tag Hrun.
    apply bind_inv in Hrun as [(pk & s1 & _ & Hrun) | (e & Hpk & _)].
    2:{ eapply no_throw_ok in Hpk as [? ?]; [done|].
        unfold _generateRandomHex. respects_auto. }
    apply bind_inv in Hrun as [(mn & s2 & _ & Hrun) | (e & Hmn & _)].
    2:{ eapply no_throw_ok in Hmn as [? ?]; [done|].
        unfold _generateMnemonic. respects_auto. apply no_throw_randomWords. }
    cbv [bind Date_now_ get ret] in Hrun. injection Hrun as <- _.
    by eexists. }
  destruct Hsup as [-> | ->]; simpl.
  - apply (Hgen id _privateKeyToAddress "evm").
  - apply (Hgen id _generateSolanaAddress "solana").
Qed.


Lemma batch_from_spec chainType startIndex n : ∀ i acc s r s',
  supported chainType →
  batch_from n i chainType startIndex acc s = (r, s') →
  ∃ ws, r = Ok (acc ++ ws) ∧
        index <$> ws = seqZ (startIndex + i) (Z.of_nat n).
Proof.
  induction n as [|n IH]; intros i acc s r s' Hsup; simpl batch_from.
  { intros [= <- <-]. exists []. by rewrite app_nil_r. }
  intros [(w & s1 & Hw & Hrest) | (e & Hw & _)]%bind_inv.
  2:{ by eapply generateSingleWallet_ok in Hw as (? & ? & _). }
  eapply generateSingleWallet_ok in Hw as (? & [= <-] & Hidx); [|done].
  apply IH in Hrest as (ws & -> & Hws); [|done].
  exists (w :: ws). split; [by rewrite <- app_assoc|].
  rewrite seqZ_cons by lia. rewrite fmap_cons, Hidx, Hws.
  do 2 f_equal; lia.
Qed.

Lemma generateBatch_spec count chainType startIndex s r s' :
  supported chainType → 0 ≤ count →
  _generateBatch count chainType startIndex s = (r, s') →
  ∃ ws, r = Ok ws ∧ index <$> ws = seqZ startIndex count.
Proof.
  intros Hsup Hc. unfold _generateBatch. intros Hrun.
  apply (batch_from_spec chainType startIndex (Z.to_nat count) 0 [] s r s' Hsup)
    in Hrun as (ws & -> & Hws).
  exists ws. split; [done|]. by rewrite Hws, Z.add_0_r, Z2Nat.id.
Qed.

(** The batches of one run number its wallets from [i] up to
    [count - 1], and the fuel given is enough. *)
Lemma generate_from_spec count chainType fuel : ∀ i acc s r s',
  supported chainType → 0 ≤ i → count - i ≤ Z.of_nat fuel →
  generate_from fuel count chainType i acc s = (r, s') →
  ∃ ws, r = Ok (acc ++ ws) ∧ index <$> ws = seqZ i (count - i).
Proof.
  induction fuel as [|fuel IH]; intros i acc s r s' Hsup Hi Hfuel;
    simpl generate_from; destruct (Z.ltb_spec i count).
  - lia.
  - intros [= <- <-]. exists []. rewrite app_nil_r, seqZ_nil by lia. done.
  - intros [(b & s1 & Hb & Hrest) | (e & Hb & _)]%bind_inv.
    2:{ apply generateBatch_spec in Hb as (? & ? & _);
          [done | done | unfold batchSize; lia]. }
    apply generateBatch_spec in Hb as (ws1 & [= ->] & Hws1);
      [|done | unfold batchSize; lia].
    apply bind_inv in Hrest as [(? & s2 & _ & Hrest) | (e & Hp & _)]; [|done].
    apply bind_inv in Hrest as [(? & s3 & _ & Hrest) | (e & Hd & _)].
    2:{ eapply no_throw_ok in Hd as [? ?]; [done|].
        unfold _delay. respects_auto. }
    apply IH in Hrest as (ws2 & -> & Hws2); [|done|unfold batchSize; lia..].
    exists (ws1 ++ ws2). split; [by rewrite <- app_assoc|].
    rewrite fmap_app, Hws1, Hws2. unfold batchSize in *.
    destruct (Z.le_gt_cases 100 (count - i)).
    + rewrite Z.min_l by lia. rewrite <- seqZ_app by lia. f_equal. lia.
    + rewrite Z.min_r by lia. rewrite (seqZ_nil (i + 100)) by lia.
      by rewrite app_nil_r.
  - intros [= <- <-]. exists []. rewrite app_nil_r, seqZ_nil by lia. done.
Qed.

End Generation.

(** * Persisting the wallets *)

(** The records of the object store of the wallets. *)
Definition stored_wallets (s : State) : list Item :=
  match default ∅ (idb s) !! "wallets" with
  | Some store => (records store).*2
  | None => []
  end.

(** The object store of the wallets exists, keyed by [index], as
    [openDB] creates it. *)
Definition wallets_store_ready (s : State) : Prop :=
  ∃ store, default ∅ (idb s) !! "wallets" = Some store ∧ keyPath store = "index".

(** The Web Crypto calls of [getKey] and [encrypt] succeed, and the
    cipher text is no shorter than the data (AES-GCM appends its tag). *)
Definition web_crypto_works {H : Host} : Prop :=
  (∀ jwk, is_Some (importKey jwk)) ∧
  (∀ k, is_Some (generateKey k)) ∧
  (∀ key, is_Some (exportKey key)) ∧
  (∀ key iv data,
     ∃ ct, subtle_encrypt key iv data = Some ct ∧
           (length data ≤ length ct)%nat).


(** The code has not gone back to an earlier task. *)
Definition later : relation State := fun s s' => (n_task s ≤ n_task s')%nat.

#[export] Instance later_preorder : PreOrder later.
Proof. split; unfold later; [intros ?; lia | intros ? ? ? ? ?; lia]. Qed.

Section Persistence.
Context {H : Host}.
Import Js WalletManager.

#[local] Instance ambient_idb : Ambient (same (fun s => (idb s, wallets s))).
Proof. solve_ambient. Qed.

#[local] Instance encrypting_idb : Encrypting (same (fun s => (idb s, wallets s))).
Proof. split; intros; reflexivity. Qed.

Lemma no_throw_encrypt data : no_throw (Crypto.encrypt data).
Proof. unfold Crypto.encrypt. respects_auto. Qed.

Lemma truthy_nonempty data : truthy data = true ↔ data ≠ "".
Proof.
  unfold truthy. destruct (String.eqb_spec data ""); simpl; split; congruence.
Qed.

Lemma no_throw_settled {A} (outcome : option A) message :
  is_Some outcome → no_throw (Crypto.settled outcome message).
Proof. intros [a ->]. unfold Crypto.settled, next_task. respects_auto. Qed.

Lemma no_throw_getKey : web_crypto_works → no_throw Crypto.getKey.
Proof.
  intros (Himport & Hgenerate & Hexport & _).
  assert (no_throw Crypto.generateNewKey) as Hnew.
  { unfold Crypto.generateNewKey. respects_auto; by apply no_throw_settled. }
  unfold Crypto.getKey. apply no_throw_bind; [apply no_throw_get|].
  intros [jwk|]; [|done].
  destruct (truthy jwk); [|done]. by apply no_throw_settled.
Qed.

(** Encryption never goes back to an earlier task, and when Web Crypto
    works the encryption of a text that is not empty resumes in a later
    one. *)
Lemma respects_later_modify f :
  (∀ s, (n_task s ≤ n_task (f s))%nat) → respects later (modify f).
Proof. intros Hf. by apply respects_modify. Qed.

Lemma respects_later_settled {A} (outcome : option A) message :
  respects later (Crypto.settled outcome message).
Proof.
  unfold Crypto.settled, next_task.
  respects_auto; apply respects_later_modify; intros s; simpl; lia.
Qed.

Lemma respects_later_encrypt data : respects later (Crypto.encrypt data).
Proof.
  assert (respects later Crypto.generateNewKey) as Hnew.
  { unfold Crypto.generateNewKey.
    respects_auto; try apply respects_later_settled;
      apply respects_later_modify; intros s; simpl; lia. }
  unfold Crypto.encrypt, Crypto.getKey, Crypto.subtle_encrypt_, emit.
  respects_auto; try apply respects_later_settled; try done.
  - intros s. unfold later. simpl. lia.
  - apply respects_later_modify. intros s. simpl. lia.
Qed.

Lemma encrypt_resumes data s :
  web_crypto_works → data ≠ "" →
  (n_task s < n_task (Crypto.encrypt data s).2)%nat.
Proof.
  intros Hworks Hne%truthy_nonempty. unfold Crypto.encrypt. rewrite Hne.
  simpl. unfold try_catch.
  destruct ((let* key := Crypto.getKey in _) s) as [r s'] eqn:Hbody.
  apply bind_inv in Hbody as [(key & s1 & Hkey & Hbody) | (e & Hkey & _)].
  2:{ eapply no_throw_ok in Hkey as [? [=]]. by apply no_throw_getKey. }
  assert (later s s1) as Hlater.
  { eapply respects_run; [|exact Hkey].
    assert (respects later Crypto.generateNewKey) as Hnew.
    { unfold Crypto.generateNewKey.
      respects_auto; try apply respects_later_settled;
        apply respects_later_modify; intros s0; simpl; lia. }
    unfold Crypto.getKey. respects_auto; try apply respects_later_settled; done. }
  unfold later in Hlater.
  apply bind_inv in Hbody as [(iv & s2 & [= <- <-] & Hbody) | (e & [=] & _)].
  destruct Hworks as (_ & _ & _ & Hcipher).
  destruct (Hcipher key (getRandomValues (n_crypto s1) 12) (Crypto.encode data))
    as (ct & Hct & _).
  unfold Crypto.subtle_encrypt_, Crypto.settled in Hbody. rewrite Hct in Hbody.
  cbv [bind next_task modify ret] in Hbody. injection Hbody as <- <-.
  simpl. lia.
Qed.


Lemma insert_record_Permutation k item rs :
  Db.insert_record k item rs ≡ₚ (k, item) :: rs.
Proof.
  induction rs as [|[k' item'] rs IH]; simpl; [done|].
  destruct (Db.key_ltb k k'); [done|]. by rewrite IH, Permutation_swap.
Qed.





(** With the store open and Web Crypto at work, the first wallet with a
    private key ends the save: its encryption is awaited, the code
    resumes in a later task, the transaction has been committed with the
    cleared store, and [store.add] throws. *)
Lemma saveWallets_inactive s r s' w ws :
  web_crypto_works →
  db s = Some Connection → wallets_store_ready s →
  wallets s = w :: ws → privateKey w ≠ "" →
  saveWallets s = (r, s') →
  r = Throw "TransactionInactiveError" ∧ wallets s' = wallets s ∧
  stored_wallets s' = [].
Proof.
  intros Hworks Hdb (store & Hstore & Hkp) Hws Hpk. unfold saveWallets.
  unfold bind at 1, get at 1. rewrite Hdb.
  unfold bind at 1, Db.transaction at 1. unfold WALLET_STORE. rewrite Hstore.
  unfold bind at 1, get at 1. rewrite Hws. simpl save_each.
  intros [(pk & s1 & Hpk1 & Hrest) | (e & Hpk1 & _)]%bind_inv.
  2:{ eapply no_throw_ok in Hpk1 as [? ?]; [done | apply no_throw_encrypt]. }
  apply bind_inv in Hrest as [(mn & s2 & Hmn & Hrest) | (e & Hmn & _)].
  2:{ eapply no_throw_ok in Hmn as [? ?]; [done | apply no_throw_encrypt]. }
  pose proof (encrypt_resumes (privateKey w) s Hworks Hpk) as Hlt.
  rewrite Hpk1 in Hlt. simpl in Hlt.
  pose proof Hmn as Hle.
  eapply (respects_run later) in Hle; [|apply respects_later_encrypt].
  unfold later in Hle.
  eapply (respects_run (same (fun s => (idb s, wallets s)))) in Hpk1;
    [|apply respects_encrypt; apply _].
  eapply (respects_run (same (fun s => (idb s, wallets s)))) in Hmn;
    [|apply respects_encrypt; apply _].
  unfold same in Hpk1, Hmn. injection Hpk1 as Hi1 Hw1. injection Hmn as Hi2 Hw2.
  unfold bind at 1 in Hrest. rewrite record_run in Hrest.
  unfold bind at 1, Db.active, get at 1 in Hrest.
  cbn [n_task set_calls Db.clear tx_task] in Hrest.
  replace (n_task s2 =? n_task s)%nat with false in Hrest
    by (symmetry; apply Nat.eqb_neq; lia).
  cbv [negb bind Db.complete modify throw Db.clear tx_failed] in Hrest.
  injection Hrest as <- <-. split_and!; [done | simpl; congruence |].
  unfold stored_wallets. simpl. by rewrite lookup_insert_eq.
Qed.

End Persistence.

(** * A generation run *)

Section GenerationRun.
Context {H : Host}.
Import Js WalletManager.

Definition kept (s : State) := (db s, idb s, wallets s).

#[local] Instance ambient_kept : Ambient (same kept).
Proof. solve_ambient. Qed.

#[local] Instance ambient_wallets_saved : Ambient (same wallets).
Proof. solve_ambient. Qed.

#[local] Instance storage_wallets_saved : Storage (same wallets).
Proof. split; [split|..]; intros; reflexivity. Qed.


(** A run with a valid count and chain type: the batches produce [count]
    records indexed from 0, whatever the wallet set holds; they are
    appended, and then the whole set is saved. *)
Lemma generateWallets_run count chainType s r s' :
  1 ≤ count ≤ 20000 → supported chainType →
  generateWallets count chainType s = (r, s') →
  ∃ new s1 r0,
    index <$> new = seqZ 0 count ∧
    db s1 = db s ∧ idb s1 = idb s ∧ wallets s1 = wallets s ++ new ∧
    saveWallets s1 = (r0, s') ∧ wallets s' = wallets s1 ∧
    r = match r0 with Ok _ => Ok new | Throw e => Throw e end.
Proof.
  intros Hcount Hchain. unfold generateWallets.
  replace ((count <? 1) || (20000 <? count)) with false by lia.
  intros [(new & s0 & Hgen & Hrest) | (e & Hgen & _)]%bind_inv.
  2:{ eapply generate_from_spec in Hgen as (? & ? & _); [done|done|lia|lia]. }
  pose proof Hgen as Hkept.
  eapply (respects_run (same kept)) in Hkept;
    [|apply respects_generate_from; apply _].
  unfold same, kept in Hkept. injection Hkept as Hdb Hidb Hwallets.
  eapply generate_from_spec in Hgen as (ws & [= ->] & Hidx); [|done|lia|lia].
  rewrite Z.sub_0_r in Hidx. simpl in Hrest.
  apply bind_inv in Hrest as [([] & s1 & [= <-] & Hrest) | (e & [=] & _)].
  exists ws, (set_wallets (wallets s0 ++ ws) s0).
  destruct (saveWallets (set_wallets (wallets s0 ++ ws) s0)) as [r0 s2] eqn:Hsave.
  exists r0. pose proof Hsave as Hsame.
  eapply (respects_run (same wallets)) in Hsame;
    [|apply respects_saveWallets; apply _].
  unfold bind in Hrest. rewrite Hsave in Hrest.
  destruct r0 as [[]|e]; injection Hrest as <- <-;
    (split_and!; [done|done|done|simpl; congruence|done|done|done]).
Qed.

End GenerationRun.

Lemma upgrade_wallets :
  Db.upgrade !! "wallets" = Some (Db.createObjectStore "index" false).
Proof.
  unfold Db.upgrade. repeat (rewrite lookup_insert_ne by done).
  by rewrite lookup_insert_eq.
Qed.

Lemma ready_wallets_store : wallets_store_ready Example.ready.
Proof. eexists. split; [apply upgrade_wallets | reflexivity]. Qed.

(** C2. The claim says that a generation run numbers its records from
    one past the largest index of the store.  The code numbers them from
    the loop offset: every run with a valid count and chain type assigns
    the index values 0, 1, ..., count - 1 and appends the records to the
    wallet set, whatever the set holds already.  A second run therefore
    assigns the index values of the first run again. *)
Theorem generateWallets_indices_from_zero {H : Host} count chainType s r s' :
  1 ≤ count ≤ 20000 → supported chainType →
  WalletManager.generateWallets count chainType s = (r, s') →
  ∃ new, index <$> new = seqZ 0 count ∧ wallets s' = wallets s ++ new.
Proof.
  intros Hcount Hchain Hrun.
  apply generateWallets_run in Hrun
    as (new & s1 & r0 & Hidx & _ & _ & Hw & _ & Hw' & _); [|done..].
  exists new. split; [done | congruence].
Qed.

Lemma generateWallets_indices_from_zero_witness :
  let H := Example.host Example.half Example.never true in
  let run1 := WalletManager.generateWallets (H:=H) 2 "evm" Example.ready in
  let run2 := WalletManager.generateWallets (H:=H) 2 "evm" run1.2 in
  index <$> wallets run1.2 = [0; 1] ∧
  index <$> wallets run2.2 = [0; 1; 0; 1].
Proof.
  intros H run1 run2.
  assert (index <$> wallets run1.2 = [0; 1]) as Hfirst
    by (vm_compute; reflexivity).
  split; [done|].
  destruct run2 as [r s2] eqn:Hrun. unfold run2 in Hrun.
  apply (generateWallets_indices_from_zero (H:=H) 2 "evm") in Hrun
    as (new & Hidx & Hw); [| lia | by left].
  simpl. by rewrite Hw, fmap_app, Hidx, Hfirst.
Defined.

(** * What the bulk save writes *)

Section Secrets.
Context {H : Host}.
Import Js WalletManager.





Lemma base64_longer n : ∀ bytes,
  (length bytes ≤ n)%nat →
  bytes = [] ∨ (length bytes < length (Crypto.base64 bytes))%nat.
Proof.
  induction n as [|n IH]; intros [|a [|b [|c rest]]] Hn; simpl in *;
    try (by left); try (right; lia).
  right. destruct (IH rest) as [-> | Hlt]; [lia | simpl; lia | lia].
Qed.

(** A sealed text is longer than the bytes it seals. *)
Lemma btoa_longer bytes :
  bytes ≠ [] →
  (length bytes < length (list_ascii_of_string (Crypto.btoa bytes)))%nat.
Proof.
  intros Hne. unfold Crypto.btoa. rewrite list_ascii_of_string_of_list_ascii.
  by destruct (base64_longer (length bytes) bytes).
Qed.




End Secrets.

Section BulkSave.
Context {H : Host}.
Import Js WalletManager.

#[local] Instance ambient_calls_saved : Ambient (same calls).
Proof. solve_ambient. Qed.

#[local] Instance encrypting_calls_saved : Encrypting (same calls).
Proof. split; intros; reflexivity. Qed.


End BulkSave.


Lemma example_crypto_works draws stops :
  web_crypto_works (H:=Example.host draws stops true).
Proof.
  split_and!; simpl; [by eexists.. |].
  intros _ iv data. eexists. split; [done|].
  rewrite length_app, length_map. lia.
Qed.




(** * Restoring a backup *)

(** The database that [openDB] leaves: the one at hand, or a fresh one
    with the five empty stores. *)
Definition opened (s : State) : Database := default Db.upgrade (idb s).

(** The entries of a collection. *)
Definition collection (d : Database) (storeName : string) : list Item :=
  match d !! storeName with
  | Some store => (records store).*2
  | None => []
  end.

(** The key that [item] carries at the key path. *)
Definition item_key (keyPath : string) (item : Item) : option Key :=
  Db.property keyPath item ≫= Db.key_of_value.

(** The collection exists and the items carry valid, pairwise distinct
    keys for it. *)
Definition importable (d : Database) (storeName : string) (items : list Item)
  : Prop :=
  ∃ store keys,
    d !! storeName = Some store ∧
    Forall2 (fun item k => item_key (keyPath store) item = Some k) items keys ∧
    NoDup keys.

Section Restore.
Context {H : Host}.

Lemma add_keyed item k tx :
  tx_failed tx = false →
  item_key (keyPath (tx_store tx)) item = Some k →
  k ∉ (records (tx_store tx)).*1 →
  ∃ gen,
    Db.add item tx =
    (Ok tt,
     mkTx (tx_name tx)
          (mkStore (keyPath (tx_store tx)) (autoIncrement (tx_store tx)) gen
                   (Db.insert_record k item (records (tx_store tx))))
          false (tx_task tx)).
Proof.
  intros Hok Hkey Hfresh. unfold item_key in Hkey. unfold Db.add.
  destruct (Db.property _ item) as [v|]; [|done]. simpl in Hkey.
  rewrite Hkey. unfold Db.put_record. rewrite Hok. unfold Db.has_key.
  rewrite bool_decide_eq_false_2 by done. by eexists.
Qed.

(** Adding items that carry fresh, distinct keys adds exactly them. *)
Lemma add_items_spec items : ∀ keys tx,
  tx_failed tx = false →
  Forall2 (fun item k => item_key (keyPath (tx_store tx)) item = Some k)
          items keys →
  NoDup keys →
  (∀ k, k ∈ keys → k ∉ (records (tx_store tx)).*1) →
  ∃ tx',
    Db.add_items items tx = (Ok tt, tx') ∧
    tx_failed tx' = false ∧ tx_name tx' = tx_name tx ∧
    (records (tx_store tx')).*2 ≡ₚ (records (tx_store tx)).*2 ++ items.
Proof.
  induction items as [|item items IH]; intros keys tx Hok Hkeys Hnodup Hfresh.
  { exists tx. by rewrite app_nil_r. }
  apply Forall2_cons_inv_l in Hkeys as (k & keys' & Hk & Hkeys & ->).
  apply NoDup_cons in Hnodup as [Hnotin Hnodup].
  destruct (add_keyed item k tx Hok Hk) as [gen Hadd].
  { apply Hfresh. by left. }
  cbn [Db.add_items]. rewrite Hadd.
  destruct (IH keys' (mkTx (tx_name tx)
              (mkStore (keyPath (tx_store tx)) (autoIncrement (tx_store tx)) gen
                 (Db.insert_record k item (records (tx_store tx)))) false
              (tx_task tx)))
    as (tx' & -> & Hok' & Hname & Hperm); [done..| |].
  - intros k' Hk'. simpl. rewrite insert_record_Permutation. simpl.
    intros [-> | Hin]%elem_of_cons; [done|].
    revert Hin. apply Hfresh. by right.
  - exists tx'. split_and!; [done..|].
    rewrite Hperm. simpl. rewrite insert_record_Permutation. simpl.
    by rewrite Permutation_middle.
Qed.
End Restore.

Section RestoreEntries.
Context {H : Host}.

(** One collection listed with a non-empty array of importable items: it
    is emptied and filled with the items, the others are left alone. *)
Lemma import_collection db d storeName first more s r s' :
  idb s = Some d →
  importable d storeName (first :: more) →
  (let* tx := Db.transaction db storeName in
   let tx := Db.clear tx in
   let (r, tx) := Db.add_items (first :: more) tx in
   Db.complete tx >> lift r) s = (r, s') →
  r = Ok tt ∧
  ∃ store, idb s' = Some (<[storeName := store]> d) ∧
           (records store).*2 ≡ₚ first :: more.
Proof.
  intros Hidb (store & keys & Hlook & Hkeys & Hnodup).
  unfold bind at 1, Db.transaction at 1. rewrite Hidb. simpl default.
  rewrite Hlook.
  destruct (add_items_spec (first :: more) keys
              (Db.clear (mkTx storeName store false (n_task s))))
    as (tx' & -> & Hok & Hname & Hperm);
    [done | done | done | intros k _; simpl; apply not_elem_of_nil |].
  unfold bind, Db.complete, modify, lift. rewrite Hok, Hidb.
  intros [= <- <-]. split; [done|]. exists (tx_store tx').
  simpl in Hname. by rewrite Hname.
Qed.

(** A value that passes the guard of [importData]. *)
Lemma has_items_array first more :
  Db.has_items (Backup.Array (first :: more)) = true.
Proof. unfold Db.has_items. simpl length. apply Z.ltb_lt. lia. Qed.

Lemma import_entries_spec db entries : ∀ d s r s',
  idb s = Some d →
  NoDup entries.*1 →
  (∀ storeName items,
     (storeName, items) ∈ entries → Db.has_items items = true →
     ∃ first more, items = Backup.Array (first :: more) ∧
                   importable d storeName (first :: more)) →
  Db.import_entries db entries s = (r, s') →
  r = Ok tt ∧
  ∃ d', idb s' = Some d' ∧
    (∀ storeName first more,
       (storeName, Backup.Array (first :: more)) ∈ entries →
       collection d' storeName ≡ₚ first :: more) ∧
    (∀ storeName,
       (∀ items, (storeName, items) ∈ entries → Db.has_items items = false) →
       d' !! storeName = d !! storeName).
Proof.
  induction entries as [|[name0 items0] entries IH];
    intros d s r s' Hidb Hnames Himportable Hrun; cbn [Db.import_entries] in Hrun.
  { injection Hrun as <- <-. split; [done|]. exists d.
    split_and!; [done | | done]. intros ? ? ? []%elem_of_nil. }
  rewrite fmap_cons in Hnames. apply NoDup_cons in Hnames as [Hfresh Hnames].
  simpl in Hfresh.
  assert (∀ items, (name0, items) ∉ entries) as Hnot.
  { intros items Hin. apply Hfresh.
    by apply (list_elem_of_fmap_2 fst) in Hin. }
  assert (∀ d1 s1,
    idb s1 = Some d1 → (∀ n, n ≠ name0 → d1 !! n = d !! n) →
    Db.import_entries db entries s1 = (r, s') →
    r = Ok tt ∧
    ∃ d', idb s' = Some d' ∧
      (∀ storeName first more,
         (storeName, Backup.Array (first :: more)) ∈ entries →
         collection d' storeName ≡ₚ first :: more) ∧
      (∀ storeName,
         (∀ items, (storeName, items) ∈ entries → Db.has_items items = false) →
         d' !! storeName = d1 !! storeName)) as Htail.
  { intros d1 s1 Hidb1 Hframe. apply IH; [done | done |].
    intros n items Hin Hguard.
    destruct (Himportable n items) as (first & more & -> & store & keys & Hlook & Hrest);
      [by right | done |].
    exists first, more. split; [done|].
    exists store, keys. split; [|done]. rewrite Hframe; [done|].
    intros ->. by eapply Hnot. }
  destruct (Db.has_items items0) eqn:Hguard.
  - destruct (Himportable name0 items0) as (first & more & -> & Himp);
      [by left | done |].
    apply bind_inv in Hrun as [([] & s1 & Hhead & Hrun) | (e & Hhead & ->)].
    + apply (import_collection db d) in Hhead as (_ & store & Hidb1 & Hperm);
        [|done|done].
      apply (Htail (<[name0 := store]> d)) in Hrun
        as (-> & d' & Hidb' & Hlisted & Hframe);
        [|done|by intros n Hn; rewrite lookup_insert_ne].
      split; [done|]. exists d'. split_and!; [done| |].
      * intros n f m [[= -> <- <-] | Hin]%elem_of_cons; [|by apply Hlisted].
        unfold collection. rewrite Hframe.
        -- by rewrite lookup_insert_eq.
        -- intros items Hin. by apply Hnot in Hin.
      * intros n Hn. rewrite Hframe.
        -- apply lookup_insert_ne. intros <-.
           specialize (Hn (Backup.Array (first :: more))).
           rewrite Hguard in Hn. by discriminate Hn; left.
        -- intros items Hin. apply Hn. by right.
    + exfalso.
      apply (import_collection db d) in Hhead as ([=] & _); done.
  - apply bind_inv in Hrun as [([] & s1 & [= <-] & Hrun) | (e & [=] & _)].
    apply (Htail d) in Hrun as (-> & d' & Hidb' & Hlisted & Hframe);
      [|done..].
    split; [done|]. exists d'. split_and!; [done| |].
    + intros n f m [[= -> <-] | Hin]%elem_of_cons; [|by apply Hlisted].
      by rewrite has_items_array in Hguard.
    + intros n Hn. apply Hframe. intros items Hin. apply Hn. by right.
Qed.
End RestoreEntries.

(** C4 (amended). For a backup document whose [data] lists each
    collection once, and lists no value that passes the guard
    [items && items.length > 0] other than arrays of items that carry
    valid, pairwise distinct keys for their collection, restored over any
    state of the store: every collection listed with such a non-empty
    array holds exactly those items afterwards, and every collection
    listed with a value that fails the guard (an empty array, an empty
    string, [null], an object without a [length] greater than 0), or not
    listed, holds what it held before. *)
Theorem importData_replaces_listed {H : Host} doc entries s r s' :
  Backup.data doc = Some entries →
  NoDup entries.*1 →
  (∀ storeName items,
     (storeName, items) ∈ entries → Db.has_items items = true →
     ∃ first more, items = Backup.Array (first :: more) ∧
                   importable (opened s) storeName (first :: more)) →
  Db.importData (Some doc) s = (r, s') →
  r = Ok tt ∧
  (∀ storeName first more,
     (storeName, Backup.Array (first :: more)) ∈ entries →
     collection (opened s') storeName ≡ₚ first :: more) ∧
  (∀ storeName,
     (∀ items, (storeName, items) ∈ entries → Db.has_items items = false) →
     collection (opened s') storeName = collection (opened s) storeName).
Proof.
  intros Hdata Hnames Himportable. destruct doc as [v t data].
  simpl in Hdata. subst data. unfold Db.importData.
  intros [(db & s1 & Hopen & Hrun) | (e & Hopen & _)]%bind_inv.
  2:{ unfold Db.openDB in Hopen. by destruct (idb s). }
  assert (idb s1 = Some (opened s)) as Hidb.
  { unfold Db.openDB, opened in *.
    destruct (idb s) eqn:Hs; simplify_eq; by simpl. }
  eapply import_entries_spec in Hrun as (-> & d' & Hidb' & Hlisted & Hframe);
    [|done..].
  assert (opened s' = d') as -> by (unfold opened; by rewrite Hidb').
  split_and!; [done | done |].
  intros storeName Hn. unfold collection. by rewrite Hframe.
Qed.

Module Restored.
Definition old_setting : Item := [("key", JStr "theme"); ("value", JStr "light")].
Definition new_setting : Item := [("key", JStr "theme"); ("value", JStr "dark")].
Definition old_entry : Item := [("id", JNum 1); ("type", JStr "generate")].

(** a store that holds one setting and one history entry *)
Definition before : State :=
  set_idb
    (Some (<["history" := mkStore "id" true 2 [(KNum 1, old_entry)]]>
          (<["settings" := mkStore "key" false 1 [(KStr "theme", old_setting)]]>
           Db.upgrade)))
    Example.ready.

(** [{ version: 1, timestamp: 0, data: { settings: [...], history: [] } }] *)
Definition document : Backup.t :=
  Backup.mk 1 0 (Some [("settings", Backup.Array [new_setting]);
                       ("history", Backup.Array [])]).
End Restored.

Lemma importData_replaces_listed_witness :
  let H := Example.host Example.half Example.never true in
  let s' := (Db.importData (H:=H) (Some Restored.document) Restored.before).2 in
  collection (opened s') "settings" ≡ₚ [Restored.new_setting] ∧
  collection (opened s') "history" = [Restored.old_entry].
Proof.
  intros H s'.
  destruct (Db.importData (H:=H) (Some Restored.document) Restored.before)
    as [r s1] eqn:Hrun.
  apply (importData_replaces_listed (H:=H) _
           [("settings", Backup.Array [Restored.new_setting]);
            ("history", Backup.Array [])])
    in Hrun as (_ & Hlisted & Hkept).
  - subst s'. simpl. split.
    + apply Hlisted. by left.
    + rewrite Hkept; [reflexivity|].
      intros items
        [Heq | [[= ->] | Hin%elem_of_nil]%elem_of_cons]%elem_of_cons;
        [discriminate Heq | reflexivity | done].
  - reflexivity.
  - apply (bool_decide_unpack _). vm_compute. exact I.
  - intros storeName items
      [[= -> ->] | [[= _ ->] | Hin%elem_of_nil]%elem_of_cons]%elem_of_cons
      Hguard; [| discriminate Hguard | done].
    exists Restored.new_setting, []. split; [done|].
    exists (mkStore "key" false 1 [(KStr "theme", Restored.old_setting)]),
           [KStr "theme"].
    split_and!.
    + unfold opened, Restored.before. simpl.
      rewrite lookup_insert_ne by done. by rewrite lookup_insert_eq.
    + by repeat constructor.
    + apply NoDup_singleton.
Defined.

(** C4 as stated fails: a collection that the document lists with an
    empty array is not emptied, it keeps its entries. *)
Lemma empty_list_keeps_collection :
  let H := Example.host Example.half Example.never true in
  let s' := (Db.importData (H:=H) (Some Restored.document) Restored.before).2 in
  (("history", Backup.Array []) ∈ default [] (Backup.data Restored.document)) ∧
  collection (opened s') "history" = [Restored.old_entry] ∧
  collection (opened s') "history" ≠ [].
Proof.
  intros H s'.
  assert (collection (opened s') "history" = [Restored.old_entry]) as ->
    by (vm_compute; reflexivity).
  split_and!; [|done..]. simpl. right. by left.
Qed.

(** * Hashes and addresses *)

Section Addresses.
Import WalletManager.

Lemma length_append (a b : string) :
  String.length (a +:+ b) = (String.length a + String.length b)%nat.
Proof. induction a as [|c a IH]; simpl; [done | by rewrite IH]. Qed.

Lemma length_repeat_char c n : String.length (repeat_char c n) = n.
Proof. induction n as [|n IH]; simpl; [done | by rewrite IH]. Qed.

Lemma substring_repeat_char c m : ∀ n rest,
  (m ≤ n)%nat → substring 0 m (repeat_char c n +:+ rest) = repeat_char c m.
Proof.
  induction m as [|m IH]; intros n rest Hle.
  { by destruct (repeat_char c n +:+ rest). }
  destruct n as [|n]; [lia|]. simpl. rewrite IH by lia. done.
Qed.

Lemma substring_all s : substring 0 (String.length s) s = s.
Proof. induction s as [|c s IH]; simpl; [done | by rewrite IH]. Qed.

Lemma int32_range n : - 2 ^ 31 ≤ int32 n < 2 ^ 31.
Proof.
  unfold int32. pose proof (Z.mod_pos_bound (n + 2 ^ 31) (2 ^ 32)). lia.
Qed.

(** The loop of [_base58Encode] writes at most [k] digits for a number
    below the [k]-th power of the radix. *)
Lemma digits_length fuel alphabet :
  (2 ≤ length alphabet)%nat →
  ∀ k num acc,
    0 ≤ num < Z.of_nat (length alphabet) ^ Z.of_nat k →
    (String.length (digits fuel alphabet num acc) ≤ k + String.length acc)%nat.
Proof.
  intros Hradix. induction fuel as [|fuel IH]; intros k num acc Hnum;
    cbn [digits]; [lia|].
  destruct (0 <? num) eqn:Hpos; [|lia]. apply Z.ltb_lt in Hpos.
  destruct k as [|k]; [simpl in Hnum; lia|].
  etransitivity; [apply (IH k)|simpl; lia].
  rewrite Nat2Z.inj_succ, Z.pow_succ_r in Hnum by lia.
  split; [apply Z.div_pos; lia|].
  apply Z.div_lt_upper_bound; lia.
Qed.

Lemma toString16_length n :
  0 ≤ n ≤ 2 ^ 31 → (String.length (toString16 n) ≤ 8)%nat.
Proof.
  intros Hn. unfold toString16. destruct (n =? 0); [simpl; lia|].
  pose proof (digits_length (enough n) hexdigits ltac:(simpl; lia) 8 n "") as Hlen.
  change (Z.of_nat (length hexdigits) ^ Z.of_nat 8) with 4294967296 in Hlen.
  exact (Hlen ltac:(lia)).
Qed.

(** The number that [_simpleHash] prints: the value of [hash] when its
    loop ends. *)
Definition hash_code (input : string) : Z :=
  fold_left
    (fun hash c => int32 (int32 (hash * 32) - hash + Z.of_N (N_of_ascii c)))
    (list_ascii_of_string input) 0.

Lemma simpleHash_code input :
  _simpleHash input = padStart 64 "0"%char (toString16 (Z.abs (hash_code input))).
Proof. reflexivity. Qed.

Lemma hash_code_range input : - 2 ^ 31 ≤ hash_code input < 2 ^ 31.
Proof.
  unfold hash_code. generalize (list_ascii_of_string input). intros l.
  assert (- 2 ^ 31 ≤ 0 < 2 ^ 31) as Hzero by lia. revert Hzero.
  generalize 0. induction l as [|c l IH]; intros h Hh; [done|].
  simpl. apply IH. apply int32_range.
Qed.

Lemma hash_hex_length input :
  (String.length (toString16 (Z.abs (hash_code input))) ≤ 8)%nat.
Proof.
  apply toString16_length. pose proof (hash_code_range input). lia.
Qed.
End Addresses.

Lemma simpleHash_padded input :
  String.length (WalletManager._simpleHash input) = 64%nat.
Proof.
  rewrite simpleHash_code. unfold WalletManager.padStart.
  rewrite length_append, length_repeat_char.
  pose proof (hash_hex_length input). lia.
Qed.

(** X1. [_simpleHash] returns exactly 64 characters for every input:
    the hash is a 32-bit number, so it prints as at most 8 hexadecimal
    digits, and the rest is padding. *)
Theorem simpleHash_length input :
  String.length (WalletManager._simpleHash input) = 64%nat.
Proof. apply simpleHash_padded. Qed.

Lemma privateKeyToAddress_zero privateKey :
  WalletManager._privateKeyToAddress privateKey
  = "0x0000000000000000000000000000000000000000".
Proof.
  unfold WalletManager._privateKeyToAddress. rewrite simpleHash_code.
  unfold WalletManager.padStart. rewrite substring_repeat_char; [done|].
  pose proof (hash_hex_length privateKey). lia.
Qed.

(** X2. [_privateKeyToAddress] returns the same address for every
    private key: the first 40 characters of the padded hash are padding,
    so every EVM wallet gets the address of forty zeros. *)
Theorem privateKeyToAddress_constant privateKey :
  WalletManager._privateKeyToAddress privateKey
  = "0x0000000000000000000000000000000000000000".
Proof. apply privateKeyToAddress_zero. Qed.

Section SolanaAddresses.
Import WalletManager.

Lemma BigInt_hex_from l : ∀ a,
  fold_left (fun acc c => acc * 16 + hexval c) l a
  = a * 16 ^ Z.of_nat (length l)
    + fold_left (fun acc c => acc * 16 + hexval c) l 0.
Proof.
  induction l as [|c l IH]; intros a; [simpl; lia|].
  cbn [fold_left length]. rewrite IH, (IH (0 * 16 + hexval c)).
  rewrite Nat2Z.inj_succ, Z.pow_succ_r by lia. lia.
Qed.

Lemma length_list_ascii_of_string s :
  length (list_ascii_of_string s) = String.length s.
Proof. induction s as [|c s IH]; simpl; [done | by rewrite IH]. Qed.

Lemma BigInt_hex_cons c s :
  BigInt_hex (String c s)
  = hexval c * 16 ^ Z.of_nat (String.length s) + BigInt_hex s.
Proof.
  unfold BigInt_hex. cbn [list_ascii_of_string fold_left].
  rewrite BigInt_hex_from, length_list_ascii_of_string. lia.
Qed.

Lemma hexval_digit d :
  0 ≤ d < 16 → hexval (nth (Z.to_nat d) hexdigits "0"%char) = d.
Proof.
  intros Hd.
  assert (forallb (fun d => hexval (nth (Z.to_nat d) hexdigits "0"%char) =? d)
                  (seqZ 0 16) = true) as Htable
    by (vm_compute; reflexivity).
  rewrite forallb_forall in Htable. apply Z.eqb_eq, Htable.
  apply list_elem_of_In, elem_of_seqZ. lia.
Qed.

(** Reading back the digits that the loop writes gives the number. *)
Lemma digits_value fuel : ∀ num acc,
  0 ≤ num < 2 ^ Z.of_nat fuel →
  BigInt_hex (digits fuel hexdigits num acc)
  = num * 16 ^ Z.of_nat (String.length acc) + BigInt_hex acc.
Proof.
  induction fuel as [|fuel IH]; intros num acc Hnum; cbn [digits].
  { assert (num = 0) as -> by (simpl in Hnum; lia). lia. }
  destruct (0 <? num) eqn:Hpos; [|assert (num = 0) as -> by lia; lia].
  apply Z.ltb_lt in Hpos.
  change (Z.of_nat (length hexdigits)) with 16.
  rewrite Nat2Z.inj_succ, Z.pow_succ_r in Hnum by lia.
  rewrite IH.
  2:{ split; [apply Z.div_pos; lia | apply Z.div_lt_upper_bound; lia]. }
  rewrite BigInt_hex_cons, hexval_digit by (apply Z.mod_pos_bound; lia).
  cbn [String.length]. rewrite Nat2Z.inj_succ, Z.pow_succ_r by lia.
  pose proof (Z.div_mod num 16 ltac:(lia)) as Hdiv.
  set (p := 16 ^ Z.of_nat (String.length acc)) in *.
  set (q := num `div` 16) in *. set (m := num `mod` 16) in *.
  clearbody p q m. rewrite Hdiv. ring.
Qed.

Lemma enough_spec num : 0 ≤ num → num < 2 ^ Z.of_nat (enough num).
Proof.
  intros Hnum. unfold enough. rewrite Nat2Z.inj_succ, Z2Nat.id
    by apply Z.log2_nonneg.
  destruct (decide (num = 0)) as [->|Hne]; [done|].
  apply Z.log2_spec. lia.
Qed.

Lemma BigInt_hex_toString16 n : 0 ≤ n → BigInt_hex (toString16 n) = n.
Proof.
  intros Hn. unfold toString16. destruct (n =? 0) eqn:Hz.
  { apply Z.eqb_eq in Hz as ->. reflexivity. }
  rewrite digits_value by (split; [done | by apply enough_spec]).
  change (BigInt_hex "") with 0. simpl String.length. lia.
Qed.

Lemma BigInt_hex_padding n s :
  BigInt_hex (repeat_char "0"%char n +:+ s) = BigInt_hex s.
Proof.
  induction n as [|n IH]; [done|].
  change (repeat_char "0"%char (S n) +:+ s)
    with (String "0"%char (repeat_char "0"%char n +:+ s)).
  rewrite BigInt_hex_cons, IH.
  change (hexval "0"%char) with 0. lia.
Qed.

(** The number that [_generateSolanaAddress] encodes is the hash. *)
Lemma solana_number privateKey :
  BigInt_hex (substring 0 64 (_simpleHash privateKey))
  = Z.abs (hash_code privateKey).
Proof.
  rewrite <- (simpleHash_padded privateKey) at 1. rewrite substring_all.
  rewrite simpleHash_code. unfold padStart.
  rewrite BigInt_hex_padding. apply BigInt_hex_toString16. lia.
Qed.
End SolanaAddresses.

Lemma solana_address_short privateKey :
  (1 ≤ String.length (WalletManager._generateSolanaAddress privateKey) ≤ 6)%nat.
Proof.
  unfold WalletManager._generateSolanaAddress, WalletManager._base58Encode.
  rewrite solana_number.
  set (num := Z.abs (hash_code privateKey)).
  pose proof (hash_code_range privateKey) as Hrange.
  pose proof (digits_length (WalletManager.enough num)
                WalletManager.base58alphabet ltac:(simpl; lia) 6 num "")
    as Hlen.
  change (Z.of_nat (length WalletManager.base58alphabet) ^ Z.of_nat 6)
    with 38068692544 in Hlen.
  specialize (Hlen ltac:(lia)).
  destruct (Js.truthy _) eqn:Htruthy; [|simpl; lia].
  split; [|exact Hlen].
  apply truthy_nonempty in Htruthy.
  destruct (WalletManager.digits _ _ _ _); [done | simpl; lia].
Qed.

(** X3. A Solana address made by [_generateSolanaAddress] has between one
    and six characters: it is the base-58 text of a number of at most 32
    bits. *)
Theorem generateSolanaAddress_length privateKey :
  (1 ≤ String.length (WalletManager._generateSolanaAddress privateKey) ≤ 6)%nat.
Proof.
  unfold WalletManager._generateSolanaAddress, WalletManager._base58Encode.
  rewrite solana_number.
  set (num := Z.abs (hash_code privateKey)).
  pose proof (hash_code_range privateKey) as Hrange.
  pose proof (digits_length (WalletManager.enough num)
                WalletManager.base58alphabet ltac:(simpl; lia) 6 num "")
    as Hlen.
  change (Z.of_nat (length WalletManager.base58alphabet) ^ Z.of_nat 6)
    with 38068692544 in Hlen.
  specialize (Hlen ltac:(lia)).
  destruct (Js.truthy _) eqn:Htruthy; [|simpl; lia].
  split; [|exact Hlen].
  apply truthy_nonempty in Htruthy.
  destruct (WalletManager.digits _ _ _ _); [done | simpl; lia].
Qed.

(** * Random choices *)

Section RandomChoices.
Context {H : Host}.
Import Js WalletManager.

(** [Math.floor(Math.random() * n)] is a valid position of a list of
    [n] elements. *)
Lemma random_position x n :
  (0 < n)%nat →
  (Z.to_nat (Math_floor (Qmake (x mod 2 ^ 53) (2 ^ 53)
                         * inject_Z (Z.of_nat n))) < n)%nat.
Proof.
  intros Hn. unfold Math_floor, Qfloor, Qmult, inject_Z. cbn [Qnum Qden].
  rewrite Pos.mul_1_r.
  change (Z.pos (2 ^ 53)) with (2 ^ 53).
  pose proof (Z.mod_pos_bound x (2 ^ 53) ltac:(lia)) as Hx.
  set (a := x mod 2 ^ 53) in *. clearbody a.
  assert (0 ≤ a * Z.of_nat n / 2 ^ 53 < Z.of_nat n) as Hq.
  { split; [apply Z.div_pos; nia | apply Z.div_lt_upper_bound; nia]. }
  lia.
Qed.

Lemma random_element_run {A} (d : A) l s :
  l ≠ [] →
  ∃ x, random_element d l s = (Ok x, set_n_random (S (n_random s)) s) ∧ x ∈ l.
Proof.
  intros Hl. unfold random_element, bind, Math_random, ret.
  eexists. split; [reflexivity|].
  apply list_elem_of_lookup.
  set (i := Z.to_nat _). exists i.
  destruct (nth_lookup_or_length l i d) as [Hlook | Hlen]; [done|].
  pose proof (random_position (random_num (n_random s)) (length l)) as Hi.
  fold i in Hi. destruct l; [done | simpl in *; lia].
Qed.

Lemma append_assoc (a b c : string) : (a +:+ b) +:+ c = a +:+ (b +:+ c).
Proof.
  induction a as [|x a IH]; [done|].
  change (String x ((a +:+ b) +:+ c) = String x (a +:+ (b +:+ c))).
  by rewrite IH.
Qed.

Lemma append_empty_r (a : string) : a +:+ "" = a.
Proof.
  induction a as [|x a IH]; [done|].
  change (String x (a +:+ "") = String x a). by rewrite IH.
Qed.

(** The loop of [_generateRandomHex] and [generateMockTxHash]: it appends
    [n] characters of [chars] and takes [n] draws. *)
Lemma randomChars_run n chars : chars ≠ [] → ∀ acc s,
  ∃ new,
    randomChars n chars acc s
    = (Ok (acc +:+ new), set_n_random (n_random s + n) s) ∧
    String.length new = n ∧
    Forall (λ c, c ∈ chars) (list_ascii_of_string new).
Proof.
  intros Hchars. induction n as [|n IH]; intros acc s.
  { exists "". split_and!; [|done|constructor]. simpl. unfold ret.
    rewrite Nat.add_0_r, append_empty_r. f_equal. by destruct s. }
  cbn [randomChars]. unfold bind at 1.
  destruct (random_element_run "0"%char chars s Hchars) as (c & -> & Hc).
  destruct (IH (acc +:+ String c "") (set_n_random (S (n_random s)) s))
    as (new & -> & Hlen & Hall).
  exists (String c new). split_and!.
  - rewrite append_assoc. change (String c "" +:+ new) with (String c new).
    f_equal. unfold set_n_random. simpl. f_equal. lia.
  - simpl. by rewrite Hlen.
  - simpl. by constructor.
Qed.

Lemma randomWords_run n : ∀ acc s,
  ∃ ws,
    randomWords n acc s = (Ok (acc ++ ws), set_n_random (n_random s + n) s) ∧
    length ws = n ∧ Forall (λ w, w ∈ words) ws.
Proof.
  induction n as [|n IH]; intros acc s.
  { exists []. split_and!; [|done|constructor]. simpl. unfold ret.
    rewrite Nat.add_0_r, app_nil_r. f_equal. by destruct s. }
  cbn [randomWords]. unfold bind at 1.
  destruct (random_element_run "" words s ltac:(done)) as (w & -> & Hw).
  destruct (IH (acc ++ [w]) (set_n_random (S (n_random s)) s))
    as (ws & -> & Hlen & Hall).
  exists (w :: ws). split_and!.
  - rewrite <- app_assoc. simpl. f_equal. unfold set_n_random. simpl.
    f_equal. lia.
  - simpl. by rewrite Hlen.
  - by constructor.
Qed.

Lemma shuffle_from_draws {A} i : ∀ (l : list A) s,
  ∃ l', Helpers.shuffle_from i l s
        = (Ok l', set_n_random (n_random s + i) s) ∧ l' ≡ₚ l.
Proof.
  induction i as [|i IH]; intros l s; cbn [Helpers.shuffle_from].
  { exists l. split; [|done]. unfold ret. rewrite Nat.add_0_r.
    f_equal. by destruct s. }
  unfold bind at 1, Math_random at 1.
  edestruct IH as (l' & -> & Hperm). exists l'. split.
  - f_equal. unfold set_n_random. simpl. f_equal. lia.
  - rewrite Hperm. apply swap_Permutation.
Qed.
End RandomChoices.

(** X4. [shuffleArray] returns a permutation of its argument.  It never
    throws, takes one random draw per element but the first, and changes
    nothing else. *)
Theorem shuffleArray_permutation {H : Host} {A} (array : list A) s :
  ∃ shuffled,
    Helpers.shuffleArray array s
    = (Ok shuffled, set_n_random (n_random s + (length array - 1)) s) ∧
    shuffled ≡ₚ array.
Proof. apply shuffle_from_draws. Qed.

(** X5. [_generateRandomHex] returns a text of exactly the requested
    number of characters, each a lower-case hexadecimal digit, after one
    random draw per character. *)
Theorem generateRandomHex_shape {H : Host} length s :
  ∃ hex,
    WalletManager._generateRandomHex length s
    = (Ok hex, set_n_random (n_random s + length) s) ∧
    String.length hex = length ∧
    Forall (λ c, c ∈ WalletManager.hexdigits) (list_ascii_of_string hex).
Proof.
  pose proof (randomChars_run length WalletManager.hexdigits ltac:(done) "" s)
    as (new & Hrun & Hlen & Hall).
  exists new. split_and!; [exact Hrun | exact Hlen | exact Hall].
Qed.

(** X6. [generateMockTxHash] returns [0x] followed by 64 lower-case
    hexadecimal digits: 66 characters. *)
Theorem generateMockTxHash_shape {H : Host} s :
  ∃ digits,
    (CascadeFunding.generateMockTxHash s).1 = Ok ("0x" +:+ digits) ∧
    String.length digits = 64%nat ∧
    Forall (λ c, c ∈ WalletManager.hexdigits) (list_ascii_of_string digits).
Proof.
  pose proof (randomChars_run 64 WalletManager.hexdigits ltac:(done) "0x" s)
    as (new & Hrun & Hlen & Hall).
  exists new. unfold CascadeFunding.generateMockTxHash. rewrite Hrun.
  split_and!; [reflexivity | exact Hlen | exact Hall].
Qed.

(** X7. [_generateMnemonic] returns twelve words of its list of sixteen,
    joined by single spaces. *)
Theorem generateMnemonic_shape {H : Host} s :
  ∃ mnemonic,
    (WalletManager._generateMnemonic s).1 = Ok (String.concat " " mnemonic) ∧
    length mnemonic = 12%nat ∧
    Forall (λ w, w ∈ WalletManager.words) mnemonic.
Proof.
  pose proof (randomWords_run 12 [] s) as (ws & Hrun & Hlen & Hall).
  exists ws. unfold WalletManager._generateMnemonic, bind.
  rewrite Hrun. split_and!; [reflexivity | exact Hlen | exact Hall].
Qed.

(** * The wallets a run generates *)

(** A wallet as [_generateEVMWallet] or [_generateSolanaWallet] builds
    it. *)
Definition as_generated (chain : string) (w : Wallet) : Prop :=
  chainType w = chain ∧
  balance w = "0" ∧ completed w = [] ∧
  String.length (privateKey w) = 64%nat ∧
  Forall (λ c, c ∈ WalletManager.hexdigits)
         (list_ascii_of_string (privateKey w)) ∧
  (∃ ws, mnemonic w = String.concat " " ws ∧ length ws = 12%nat ∧
         Forall (λ x, x ∈ WalletManager.words) ws) ∧
  address w =
    if String.eqb chain "evm"
    then "0x0000000000000000000000000000000000000000"
    else WalletManager._generateSolanaAddress (privateKey w).

Section GeneratedWallets.
Context {H : Host}.
Import Js WalletManager.

Lemma generateSingleWallet_shape chain idx s w s' :
  _generateSingleWallet chain idx s = (Ok w, s') →
  as_generated chain w.
Proof.
  unfold _generateSingleWallet.
  assert (∀ (addr : string → string) tag,
            (let* privateKey := _generateRandomHex 64 in
             let address := addr privateKey in
             let* mnemonic := _generateMnemonic in
             let* now := Date_now_ in
             ret (mkWallet idx tag address privateKey mnemonic now "0" [])) s
            = (Ok w, s') →
            chainType w = tag ∧
            balance w = "0" ∧ completed w = [] ∧
            String.length (privateKey w) = 64%nat ∧
            Forall (λ c, c ∈ hexdigits) (list_ascii_of_string (privateKey w)) ∧
            (∃ ws, mnemonic w = String.concat " " ws ∧ length ws = 12%nat ∧
                   Forall (λ x, x ∈ words) ws) ∧
            address w = addr (privateKey w)) as Hgen.
  { intros addr tag. unfold bind at 1.
    pose proof (randomChars_run 64 hexdigits ltac:(done) "" s)
      as (hex & Hhexrun & Hlen & Hhex).
    unfold _generateRandomHex at 1. rewrite Hhexrun.
    unfold bind at 1, _generateMnemonic at 1, bind at 1.
    pose proof (randomWords_run 12 [] (set_n_random (n_random s + 64) s))
      as (ws & -> & Hws & Hall).
    cbv [bind Date_now_ get ret]. change ("" +:+ hex) with hex.
    intros [= <- _].
    cbn [chainType balance completed privateKey mnemonic address].
    split_and!;
      [reflexivity | reflexivity | reflexivity | exact Hlen | exact Hhex
      | exists ws; split_and!; [reflexivity | exact Hws | exact Hall]
      | reflexivity]. }
  destruct (String.eqb_spec chain "evm") as [->|Hevm].
  { unfold _generateEVMWallet. intros Hrun.
    pose proof (Hgen _privateKeyToAddress "evm" Hrun)
      as (? & ? & ? & ? & ? & ? & Haddr).
    unfold as_generated. rewrite Haddr, privateKeyToAddress_zero.
    by split_and!. }
  destruct (String.eqb_spec chain "solana") as [->|Hsol]; [|done].
  unfold _generateSolanaWallet. intros Hrun.
  pose proof (Hgen _generateSolanaAddress "solana" Hrun)
    as (? & ? & ? & ? & ? & ? & Haddr).
  by split_and!.
Qed.

Lemma batch_from_shape chain startIndex n : ∀ i acc s ws s',
  Forall (as_generated chain) acc →
  batch_from n i chain startIndex acc s = (Ok ws, s') →
  Forall (as_generated chain) ws.
Proof.
  induction n as [|n IH]; intros i acc s ws s' Hacc; cbn [batch_from].
  { by intros [= <- <-]. }
  intros [(w & s1 & Hw & Hrest) | (e & _ & [=])]%bind_inv.
  apply generateSingleWallet_shape in Hw.
  apply IH in Hrest; [done|]. apply Forall_app. split; [done | by constructor].
Qed.

Lemma generate_from_shape count chain fuel : ∀ i acc s ws s',
  Forall (as_generated chain) acc →
  generate_from fuel count chain i acc s = (Ok ws, s') →
  Forall (as_generated chain) ws.
Proof.
  induction fuel as [|fuel IH]; intros i acc s ws s' Hacc;
    cbn [generate_from]; destruct (i <? count); try done.
  - by intros [= <- <-].
  - intros [(b & s1 & Hb & Hrest) | (e & _ & [=])]%bind_inv.
    unfold _generateBatch in Hb.
    apply batch_from_shape in Hb; [|constructor].
    apply bind_inv in Hrest as [(? & s2 & _ & Hrest) | (e & _ & [=])].
    apply bind_inv in Hrest as [(? & s3 & _ & Hrest) | (e & _ & [=])].
    apply IH in Hrest; [done|]. apply Forall_app. by split.
  - by intros [= <- <-].
Qed.
End GeneratedWallets.

(** X8. Every wallet that [generateWallets] returns has the requested
    chain type, the balance ['0'], no completed network, a private key
    of 64 lower-case hexadecimal digits and a mnemonic of twelve words of
    the list.  An EVM wallet has the address of forty zeros, whatever
    its private key: all EVM wallets share one address. *)
Theorem generateWallets_shape {H : Host} count chainType s new s' :
  WalletManager.generateWallets count chainType s = (Ok new, s') →
  Forall (as_generated chainType) new.
Proof.
  unfold WalletManager.generateWallets.
  destruct ((count <? 1) || (20000 <? count)); [done|].
  intros [(ws & s1 & Hgen & Hrest) | (e & _ & [=])]%bind_inv.
  apply generate_from_shape in Hgen; [|constructor].
  apply bind_inv in Hrest as [(? & s2 & _ & Hrest) | (e & _ & [=])].
  apply bind_inv in Hrest as [(? & s3 & _ & Hrest) | (e & _ & [=])].
  by injection Hrest as <- _.
Qed.

Lemma generateWallets_shape_witness :
  let H := Example.host Example.half Example.never true in
  let run := WalletManager.generateWallets (H:=H) 2 "evm" Example.initial in
  ∃ new, run.1 = Ok new ∧ Forall (as_generated "evm") new.
Proof.
  intros H run.
  assert (is_ok run.1 = true) as Hok by (vm_compute; reflexivity).
  destruct run as [[new|e] s'] eqn:Hrun; [|done]. unfold run in Hrun.
  exists new. split; [done|].
  exact (generateWallets_shape (H:=H) 2 "evm" Example.initial new s' Hrun).
Defined.

(** * The outcomes of a generation run *)

Section GenerationOutcomes.
Context {H : Host}.
Import Js WalletManager.

#[local] Instance ambient_kept_wallets : Ambient (same wallets).
Proof. solve_ambient. Qed.

#[local] Instance storage_kept_wallets : Storage (same wallets).
Proof. split; [split|..]; intros; reflexivity. Qed.

End GenerationOutcomes.




(** * Settings *)

(** The store of the settings exists, keyed by [key], as [openDB]
    creates it. *)
Definition settings_ready (s : State) : Prop :=
  ∃ store, opened s !! "settings" = Some store ∧ keyPath store = "key".

Section Settings.

(** The record with key [k]. *)
Definition find_by_key (k : Key) (rs : list (Key * Item)) : option Item :=
  snd <$> (snd <$> list_find (fun r => r.1 = k) rs).

Lemma find_by_key_cons k k' item rs :
  find_by_key k ((k', item) :: rs)
  = if decide (k' = k) then Some item else find_by_key k rs.
Proof.
  unfold find_by_key. cbn [list_find]. simpl.
  destruct (decide (k' = k)); [done|].
  by destruct (list_find _ rs) as [[? [? ?]]|].
Qed.

Lemma find_by_key_insert k item rs :
  find_by_key k (Db.insert_record k item rs) = Some item ∨
  k ∈ rs.*1.
Proof.
  induction rs as [|[k' item'] rs IH]; simpl.
  { left. rewrite find_by_key_cons. by rewrite decide_True. }
  destruct (Db.key_ltb k k').
  { left. rewrite find_by_key_cons. by rewrite decide_True. }
  rewrite find_by_key_cons. destruct (decide (k' = k)) as [->|Hne].
  { right. by left. }
  destruct IH as [IH | IH]; [by left | right; by right].
Qed.

Lemma find_by_key_insert_ne k k' item rs :
  k ≠ k' →
  find_by_key k' (Db.insert_record k item rs) = find_by_key k' rs.
Proof.
  intros Hne. induction rs as [|[k0 item0] rs IH]; simpl.
  { rewrite find_by_key_cons. by rewrite decide_False. }
  destruct (Db.key_ltb k k0).
  { rewrite (find_by_key_cons k' k). by rewrite decide_False. }
  rewrite !find_by_key_cons. by rewrite IH.
Qed.

Lemma delete_record_absent k rs : k ∉ (Db.delete_record k rs).*1.
Proof.
  unfold Db.delete_record.
  intros ([k' item] & -> & [Hne _]%list_elem_of_filter)%list_elem_of_fmap.
  by apply Hne.
Qed.

Lemma find_by_key_delete_ne k k' rs :
  k ≠ k' → find_by_key k' (Db.delete_record k rs) = find_by_key k' rs.
Proof.
  intros Hne. unfold Db.delete_record.
  induction rs as [|[k0 item0] rs IH]; [done|].
  rewrite filter_cons. simpl. destruct (decide (k0 ≠ k)) as [Hk|Hk].
  - rewrite !find_by_key_cons. by rewrite IH.
  - apply dec_stable in Hk as ->. rewrite find_by_key_cons.
    by rewrite decide_False.
Qed.

Lemma openDB_run s : Db.openDB s = (Ok Connection, set_idb (Some (opened s)) s).
Proof.
  unfold Db.openDB, opened. destruct (idb s) eqn:Hs; simpl; [|done].
  f_equal. destruct s; simpl in *. by subst.
Qed.

Lemma opened_set_idb d s : opened (set_idb (Some d) s) = d.
Proof. reflexivity. Qed.

Lemma getSettings_run key k s store :
  opened s !! "settings" = Some store →
  Db.key_of_value key = Some k →
  Db.getSettings key s = (Ok None, set_idb (Some (opened s)) s).
Proof.
  intros Hstore Hkey. unfold Db.getSettings, bind at 1. rewrite openDB_run.
  unfold bind at 1, Db.transaction at 1. simpl idb. simpl default.
  by rewrite Hstore, Hkey.
Qed.
End Settings.

(** The record of the settings store with key [k]. *)
Definition setting (d : Database) (k : Key) : option Item :=
  d !! "settings" ≫= fun store => find_by_key k (records store).

(** X9. [saveSettings(key, value)] stores the record [{ key, value }]
    under [key], in the place of an earlier one, and leaves the other
    records alone.  [getSettings] does not read it back: it returns
    [undefined] for every valid key, since what it awaits is the request
    object, not the record. *)
Theorem saveSettings_not_read_back key k value s r s' :
  settings_ready s →
  Db.key_of_value key = Some k →
  Db.saveSettings key value s = (r, s') →
  r = Ok tt ∧
  setting (opened s') k = Some [("key", key); ("value", value)] ∧
  (∀ k', k' ≠ k → setting (opened s') k' = setting (opened s) k') ∧
  ∀ key', is_Some (Db.key_of_value key') →
          (Db.getSettings key' s').1 = Ok None.
Proof.
  intros (store & Hstore & Hpath) Hkey.
  unfold Db.saveSettings, bind at 1. rewrite openDB_run.
  unfold bind at 1, Db.transaction at 1. simpl idb. simpl default.
  rewrite Hstore. unfold Db.put. cbn [tx_store tx_failed tx_name].
  rewrite Hpath. cbn [Db.property]. rewrite String.eqb_refl, Hkey.
  unfold bind, Db.complete, modify, lift. cbn [tx_store tx_failed tx_name].
  intros [= <- <-]. split; [done|].
  set (item := [("key", key); ("value", value)]).
  set (store' := mkStore _ _ _ _).
  assert (opened (set_idb (Some (<["settings" := store']> (opened s)))
                          (set_idb (Some (opened s)) s)) !! "settings"
          = Some store') as Hstore'.
  { rewrite opened_set_idb. apply lookup_insert_eq. }
  unfold setting. rewrite Hstore', Hstore. simpl. split_and!.
  - destruct (find_by_key_insert k item (Db.delete_record k (records store)))
      as [-> | Hin]; [done|].
    by apply delete_record_absent in Hin.
  - intros k' Hne.
    by rewrite find_by_key_insert_ne, find_by_key_delete_ne.
  - intros key' [k' Hkey']. by erewrite getSettings_run.
Qed.

Lemma saveSettings_not_read_back_witness :
  let s' := (Db.saveSettings (JStr "theme") (JStr "dark") Restored.before).2 in
  setting (opened s') (KStr "theme")
  = Some [("key", JStr "theme"); ("value", JStr "dark")] ∧
  (Db.getSettings (JStr "theme") s').1 = Ok None.
Proof.
  intros s'.
  destruct (Db.saveSettings (JStr "theme") (JStr "dark") Restored.before)
    as [r s1] eqn:Hrun.
  apply (saveSettings_not_read_back _ (KStr "theme")) in Hrun
    as (_ & Hput & _ & Hget); [| | reflexivity].
  - split; [exact Hput|]. apply Hget. by eexists.
  - exists (mkStore "key" false 1 [(KStr "theme", Restored.old_setting)]).
    split; [|reflexivity].
    unfold opened, Restored.before. simpl.
    rewrite lookup_insert_ne by done. by rewrite lookup_insert_eq.
Defined.

(** * Clearing, exporting and importing the whole database *)

(** The records of a store carry their keys, and no key occurs twice. *)
Definition store_well_kept (store : ObjectStore) : Prop :=
  Forall (fun r => item_key (keyPath store) r.2 = Some r.1) (records store) ∧
  NoDup (records store).*1.

(** The five stores exist and are well kept. *)
Definition well_kept (d : Database) : Prop :=
  Forall (fun storeName =>
            ∃ store, d !! storeName = Some store ∧ store_well_kept store)
         Db.stores.

Section WholeDatabase.
Context {H : Host}.

Lemma transaction_run db storeName s d store :
  idb s = Some d → d !! storeName = Some store →
  Db.transaction db storeName s
  = (Ok (mkTx storeName store false (n_task s)), s).
Proof.
  intros Hidb Hstore. unfold Db.transaction. rewrite Hidb. simpl.
  by rewrite Hstore.
Qed.

Lemma transaction_missing db storeName s d :
  idb s = Some d → d !! storeName = None →
  Db.transaction db storeName s = (Throw "NotFoundError", s).
Proof.
  intros Hidb Hstore. unfold Db.transaction. rewrite Hidb. simpl.
  by rewrite Hstore.
Qed.

Lemma clear_stores_spec db names : ∀ d s r s',
  idb s = Some d →
  Forall (fun storeName => is_Some (d !! storeName)) names →
  Db.clear_stores db names s = (r, s') →
  r = Ok tt ∧
  ∃ d', idb s' = Some d' ∧
        (∀ storeName, storeName ∈ names → collection d' storeName = []) ∧
        (∀ storeName, storeName ∉ names → d' !! storeName = d !! storeName).
Proof.
  induction names as [|name names IH]; intros d s r s' Hidb Hall;
    cbn [Db.clear_stores].
  { intros [= <- <-]. split; [done|]. exists d.
    split_and!; [done| |done]. intros ? []%elem_of_nil. }
  apply Forall_cons in Hall as [[store Hstore] Hall].
  unfold bind at 1. erewrite transaction_run by done.
  unfold bind at 1, Db.complete at 1, modify at 1. cbn [tx_failed Db.clear].
  rewrite Hidb. cbn [default tx_name tx_store].
  set (cleared := mkStore (keyPath store) (autoIncrement store)
                          (keyGenerator store) []).
  intros Hrun. eapply (IH (<[name := cleared]> d)) in Hrun
    as (-> & d' & Hidb' & Hempty & Hframe); [|done|].
  2:{ eapply Forall_impl; [done|]. intros n Hn.
      by apply lookup_insert_is_Some'; right. }
  split; [done|]. exists d'. split_and!; [done| |].
  - intros n Hn. destruct (decide (n ∈ names)) as [Hin|Hout];
      [by apply Hempty|].
    apply elem_of_cons in Hn as [-> | Hn]; [|done].
    unfold collection. rewrite Hframe by done. by rewrite lookup_insert_eq.
  - intros n Hn. apply not_elem_of_cons in Hn as [Hne Hn].
    rewrite Hframe by done. by apply lookup_insert_ne.
Qed.

(** The stores that exist are listed, each with the request for its
    records, and nothing changes. *)
Lemma export_stores_spec db names : ∀ d s,
  idb s = Some d →
  Forall (fun storeName => is_Some (d !! storeName)) names →
  Db.export_stores db names s
  = (Ok ((fun storeName =>
            (storeName, Backup.Requested (mkRequest (collection d storeName))))
           <$> names), s).
Proof.
  induction names as [|name names IH]; intros d s Hidb Hall;
    cbn [Db.export_stores]; [done|].
  apply Forall_cons in Hall as [[store Hstore] Hall].
  unfold bind at 1. erewrite transaction_run by done.
  unfold bind at 1. rewrite (IH d) by done.
  unfold ret, Db.getAll. cbn [tx_store]. rewrite fmap_cons.
  unfold collection at 2. by rewrite Hstore.
Qed.

(** Entries that fail the guard of [importData] are passed over. *)
Lemma import_entries_skips db entries s :
  Forall (fun entry => Db.has_items entry.2 = false) entries →
  Db.import_entries db entries s = (Ok tt, s).
Proof.
  induction 1 as [|[name items] entries Hguard _ IH]; [done|].
  cbn [Db.import_entries]. simpl in Hguard. rewrite Hguard.
  unfold bind at 1, ret at 1. exact IH.
Qed.

Lemma bind_assoc {A B C} (m : M A) (f : A → M B) (g : B → M C) s :
  bind (bind m f) g s = bind m (fun a => bind (f a) g) s.
Proof. unfold bind. by destruct (m s) as [[a|e] s1]. Qed.

Lemma bind_ext {A B} (m : M A) (f g : A → M B) s :
  (∀ a s1, f a s1 = g a s1) → bind m f s = bind m g s.
Proof. intros Hfg. unfold bind. by destruct (m s) as [[a|e] s1]. Qed.

Lemma import_entries_app db e1 e2 s :
  Db.import_entries db (e1 ++ e2) s
  = (Db.import_entries db e1 >> Db.import_entries db e2) s.
Proof.
  revert s. induction e1 as [|[name items] e1 IH]; intros s; [done|].
  cbn [app Db.import_entries]. rewrite bind_assoc.
  apply bind_ext. intros _ s1. apply IH.
Qed.

Lemma well_kept_exists d :
  well_kept d → Forall (fun storeName => is_Some (d !! storeName)) Db.stores.
Proof.
  intros Hwf. eapply Forall_impl; [exact Hwf|].
  intros n (store & Hstore & _). by exists store.
Qed.

Lemma well_kept_importable d storeName first more :
  well_kept d → storeName ∈ Db.stores →
  collection d storeName = first :: more →
  importable d storeName (first :: more).
Proof.
  intros Hwf Hin Hitems. unfold well_kept in Hwf.
  rewrite Forall_forall in Hwf.
  destruct (Hwf storeName Hin) as (store & Hstore & Hkeys & Hnodup).
  exists store, (records store).*1. split_and!; [done | | done].
  unfold collection in Hitems. rewrite Hstore in Hitems. rewrite <- Hitems.
  clear -Hkeys. induction Hkeys as [|[k item] rs Hk _ IH]; constructor; done.
Qed.
End WholeDatabase.

(** X10. When the five stores exist, [clearAllData] leaves every one of
    them empty, and touches no other store. *)
Theorem clearAllData_empties s r s' :
  Forall (fun storeName => is_Some (opened s !! storeName)) Db.stores →
  Db.clearAllData s = (r, s') →
  r = Ok tt ∧
  (∀ storeName, storeName ∈ Db.stores → collection (opened s') storeName = []) ∧
  (∀ storeName, storeName ∉ Db.stores →
                opened s' !! storeName = opened s !! storeName).
Proof.
  intros Hall. unfold Db.clearAllData, bind at 1. rewrite openDB_run.
  intros Hrun. eapply clear_stores_spec in Hrun
    as (-> & d' & Hidb' & Hempty & Hframe); [|reflexivity|done].
  assert (opened s' = d') as -> by (unfold opened; by rewrite Hidb').
  done.
Qed.

Ltac lookup_store :=
  unfold opened, Restored.before, Db.upgrade; simpl;
  repeat (rewrite lookup_insert_ne by done); apply lookup_insert_eq.

Lemma clearAllData_empties_witness :
  let s' := (Db.clearAllData Restored.before).2 in
  collection (opened s') "history" = [] ∧
  collection (opened s') "settings" = [].
Proof.
  intros s'.
  destruct (Db.clearAllData Restored.before) as [r s1] eqn:Hrun.
  apply clearAllData_empties in Hrun as (_ & Hempty & _).
  - split; apply Hempty; unfold Db.stores; set_solver.
  - repeat (apply Forall_cons; split); [..|by constructor];
      eexists; lookup_store.
Defined.

(** X11. The document that [exportAllData] returns holds no record: it
    lists every store with the request object that [store.getAll()]
    returned.  Importing it, at any time, succeeds and changes no store:
    what the stores have lost since is not restored. *)
Theorem exported_backup_restores_nothing {H : Host} s r s1 :
  Forall (fun storeName => is_Some (opened s !! storeName)) Db.stores →
  Db.exportAllData s = (r, s1) →
  ∃ doc,
    r = Ok doc ∧
    Backup.data doc
    = Some ((fun storeName =>
               (storeName,
                Backup.Requested (mkRequest (collection (opened s) storeName))))
              <$> Db.stores) ∧
    ∀ s2, (Db.importData (Some doc) s2).1 = Ok tt ∧
          opened (Db.importData (Some doc) s2).2 = opened s2.
Proof.
  intros Hall. unfold Db.exportAllData, bind at 1. rewrite openDB_run.
  unfold bind at 1, Js.Date_now_ at 1, get at 1, bind at 1.
  rewrite (export_stores_spec _ _ (opened s)) by done.
  unfold ret. intros [= <- <-]. eexists. split_and!; [done | done |].
  intros s2. unfold Db.importData, Backup.data, bind.
  rewrite openDB_run, import_entries_skips; [done|].
  by repeat constructor.
Qed.

Lemma before_stores :
  Forall (fun storeName => is_Some (opened Restored.before !! storeName))
         Db.stores.
Proof.
  repeat (apply Forall_cons; split); [..|by constructor];
    eexists; lookup_store.
Qed.

Lemma exported_backup_restores_nothing_witness :
  let H := Example.host Example.half Example.never true in
  ∃ doc s1,
    Db.exportAllData (H:=H) Restored.before = (Ok doc, s1) ∧
    collection (opened s1) "history" = [Restored.old_entry] ∧
    let cleared := (Db.clearAllData s1).2 in
    collection (opened (Db.importData (H:=H) (Some doc) cleared).2) "history"
    = [].
Proof.
  intros H.
  destruct (Db.exportAllData (H:=H) Restored.before) as [r s1] eqn:Hexport.
  assert (collection (opened s1) "history" = [Restored.old_entry]) as Hbefore.
  { apply (f_equal snd) in Hexport. simpl in Hexport. subst s1.
    vm_compute. reflexivity. }
  assert (collection (opened (Db.clearAllData s1).2) "history" = [])
    as Hcleared.
  { apply (f_equal snd) in Hexport. simpl in Hexport. subst s1.
    vm_compute. reflexivity. }
  destruct (exported_backup_restores_nothing (H:=H) _ _ _ before_stores Hexport)
    as (doc & -> & _ & Hnothing).
  exists doc, s1. split_and!; [done | done |]. cbv zeta.
  destruct (Hnothing (Db.clearAllData s1).2) as [_ ->]. exact Hcleared.
Defined.

(** X12. [importData] is not atomic over the collections of a document:
    when the document lists a collection that the database does not have,
    the import fails with [NotFoundError], and the collections listed
    before it have been replaced already. *)
Theorem importData_stops_at_unknown_store {H : Host}
    doc earlier storeName first more rest s r s' :
  Backup.data doc
  = Some (earlier ++ (storeName, Backup.Array (first :: more)) :: rest) →
  NoDup earlier.*1 →
  (∀ n items,
     (n, items) ∈ earlier → Db.has_items items = true →
     ∃ f m, items = Backup.Array (f :: m) ∧ importable (opened s) n (f :: m)) →
  opened s !! storeName = None →
  Db.importData (Some doc) s = (r, s') →
  r = Throw "NotFoundError" ∧
  ∀ n f m, (n, Backup.Array (f :: m)) ∈ earlier →
           collection (opened s') n ≡ₚ f :: m.
Proof.
  intros Hdata Hnames Himportable Hmissing. destruct doc as [v t data].
  simpl in Hdata. subst data. unfold Db.importData, bind at 1.
  rewrite openDB_run, import_entries_app.
  intros [([] & s1 & Hdone & Hrun) | (e & Hdone & _)]%bind_inv.
  2:{ eapply (import_entries_spec _ _ (opened s)) in Hdone as ([=] & _); done. }
  eapply (import_entries_spec _ _ (opened s)) in Hdone
    as (_ & d' & Hidb' & Hlisted & Hframe); [|done..].
  cbn [Db.import_entries] in Hrun. rewrite has_items_array in Hrun.
  unfold bind at 1 2 in Hrun.
  erewrite transaction_missing in Hrun; [|done|].
  - injection Hrun as <- <-.
    assert (opened s1 = d') as -> by (unfold opened; by rewrite Hidb').
    done.
  - rewrite Hframe; [done|]. intros items Hin.
    destruct (Db.has_items items) eqn:Hguard; [|done].
    destruct (Himportable _ _ Hin Hguard)
      as (f & m & _ & store & _ & Hstore & _).
    congruence.
Qed.

Lemma importData_stops_at_unknown_store_witness :
  let H := Example.host Example.half Example.never true in
  let doc :=
    Backup.mk 1 0 (Some [("settings", Backup.Array [Restored.new_setting]);
                         ("drafts", Backup.Array [Restored.old_entry])]) in
  let run := Db.importData (H:=H) (Some doc) Restored.before in
  run.1 = Throw "NotFoundError" ∧
  collection (opened run.2) "settings" ≡ₚ [Restored.new_setting].
Proof.
  intros H doc run. destruct run as [r s'] eqn:Hrun. unfold run in Hrun.
  apply (importData_stops_at_unknown_store (H:=H) doc
           [("settings", Backup.Array [Restored.new_setting])] "drafts"
           Restored.old_entry [] []) in Hrun as [-> Hlisted].
  - split; [done|]. apply Hlisted. by left.
  - reflexivity.
  - apply NoDup_singleton.
  - intros n items [[= -> ->] | Hin%elem_of_nil]%elem_of_cons _; [|done].
    exists Restored.new_setting, []. split; [done|].
    exists (mkStore "key" false 1 [(KStr "theme", Restored.old_setting)]),
           [KStr "theme"].
    split_and!; [lookup_store | by repeat constructor | apply NoDup_singleton].
  - unfold opened, Restored.before, Db.upgrade. simpl.
    repeat (rewrite lookup_insert_ne by done). apply lookup_empty.
Defined.

(** X27. [importData] empties a collection before it knows that it can
    fill it: when the document lists a collection with a value that
    passes the guard and is no array, such as a string that is not empty
    or an object with a [length] above 0, the store is cleared, then
    the loop over the value throws ([DataError] for the first character
    of a string, [TypeError] for an object, which is not iterable), and
    the collection is left empty. *)
Theorem importData_empties_then_fails {H : Host}
    doc earlier storeName items rest s r s' :
  Backup.data doc = Some (earlier ++ (storeName, items) :: rest) →
  Forall (fun entry => Db.has_items entry.2 = false) earlier →
  is_Some (opened s !! storeName) →
  Db.has_items items = true → (∀ array, items ≠ Backup.Array array) →
  Db.importData (Some doc) s = (r, s') →
  r = Throw (match items with Backup.Text _ => "DataError" | _ => "TypeError" end) ∧
  collection (opened s') storeName = [] ∧
  ∀ n, n ≠ storeName → opened s' !! n = opened s !! n.
Proof.
  intros Hdata Hearlier [store Hstore] Hguard Hnoarray.
  destruct doc as [v t data]. simpl in Hdata. subst data.
  unfold Db.importData, bind at 1.
  rewrite openDB_run, import_entries_app. unfold bind at 1.
  rewrite import_entries_skips by done.
  cbn [Db.import_entries]. rewrite Hguard. unfold bind at 1 2.
  erewrite transaction_run; [|done..].
  assert (∀ e (s0 : State),
            idb s0 = Some (opened s) →
            (Db.complete (Db.clear (mkTx storeName store false (n_task s0)))
               >> @throw unit e) s0
            = (Throw e,
               set_idb (Some (<[storeName :=
                                  mkStore (keyPath store) (autoIncrement store)
                                          (keyGenerator store) []]>
                                (opened s))) s0)) as Hcleared.
  { intros e s0 Hs0. unfold bind, Db.complete, modify, throw. simpl.
    by rewrite Hs0. }
  destruct items as [array | text | request | [length|] |];
    try discriminate Hguard; try (by destruct (Hnoarray array));
    rewrite Hcleared by done; intros [= <- <-];
    (split_and!; [done | |]);
    rewrite opened_set_idb;
    try (unfold collection; by rewrite lookup_insert_eq);
    intros n Hn; by rewrite lookup_insert_ne.
Qed.

Lemma importData_empties_then_fails_witness :
  let H := Example.host Example.half Example.never true in
  let doc := Backup.mk 1 0 (Some [("history", Backup.Array []);
                                  ("settings", Backup.Text "dark")]) in
  let run := Db.importData (H:=H) (Some doc) Restored.before in
  run.1 = Throw "DataError" ∧ collection (opened run.2) "settings" = [] ∧
  collection (opened run.2) "history" = [Restored.old_entry].
Proof.
  intros H doc run. destruct run as [r s'] eqn:Hrun. unfold run in Hrun.
  apply (importData_empties_then_fails (H:=H) doc
           [("history", Backup.Array [])] "settings" (Backup.Text "dark") [])
    in Hrun as (-> & Hempty & Hframe).
  - split_and!; [done | done |]. simpl. unfold collection.
    rewrite Hframe by done.
    assert (opened Restored.before !! "history"
            = Some (mkStore "id" true 2 [(KNum 1, Restored.old_entry)])) as ->
      by lookup_store.
    done.
  - reflexivity.
  - by repeat constructor.
  - eexists. lookup_store.
  - reflexivity.
  - done.
Defined.

(** * Marking a network as completed *)

Section Marking.
Context {H : Host}.
Import WalletManager.

Lemma list_find_insert {A} (P : A → Prop) `{!∀ x, Decision (P x)}
    (l : list A) p x y :
  list_find P l = Some (p, x) → P y →
  list_find P (<[p := y]> l) = Some (p, y).
Proof.
  intros (Hlook & _ & Hfirst)%list_find_Some Hy.
  apply list_find_Some. split_and!; [|done|].
  - apply list_lookup_insert_eq. by eapply lookup_lt_Some.
  - intros j z Hj Hlt. rewrite list_lookup_insert_ne in Hj by lia.
    by eapply Hfirst.
Qed.

#[local] Instance ambient_wallets_marked : Ambient (same wallets).
Proof. solve_ambient. Qed.

#[local] Instance storage_wallets_marked : Storage (same wallets).
Proof. split; [split|..]; intros; reflexivity. Qed.

Lemma saveWallets_keeps_wallets s r s' :
  saveWallets s = (r, s') → wallets s' = wallets s.
Proof.
  intros Hsave. eapply (respects_run (same wallets)) in Hsave; [done|].
  apply respects_saveWallets; apply _.
Qed.

Lemma markTestnetCompleted_listed idx testnetName s p w :
  list_find (fun w => index w = idx) (wallets s) = Some (p, w) →
  testnetName ∈ completed w →
  markTestnetCompleted idx testnetName s = (Ok tt, s).
Proof.
  intros Hfind Hin. unfold markTestnetCompleted, bind, getWalletByIndex, get.
  rewrite Hfind. by rewrite bool_decide_eq_true_2.
Qed.
End Marking.

(** X13. [markTestnetCompleted] is idempotent: calling it again with
    the same wallet index and network changes nothing and does not save
    again, whatever the first call did. *)
Theorem markTestnetCompleted_idempotent {H : Host} walletIndex testnetName s r s' :
  WalletManager.markTestnetCompleted walletIndex testnetName s = (r, s') →
  WalletManager.markTestnetCompleted walletIndex testnetName s' = (Ok tt, s').
Proof.
  unfold WalletManager.markTestnetCompleted at 1.
  unfold bind at 1, WalletManager.getWalletByIndex at 1, get at 1.
  destruct (list_find _ (wallets s)) as [[p w]|] eqn:Hfind.
  2:{ intros [= <- <-]. unfold WalletManager.markTestnetCompleted, bind,
        WalletManager.getWalletByIndex, get. by rewrite Hfind. }
  destruct (bool_decide (testnetName ∈ completed w)) eqn:Hlisted.
  { intros [= <- <-]. apply bool_decide_eq_true in Hlisted.
    by eapply markTestnetCompleted_listed. }
  unfold bind at 1, modify at 1. intros Hsave.
  apply saveWallets_keeps_wallets in Hsave. simpl in Hsave.
  eapply (markTestnetCompleted_listed _ _ _ p
            (set_completed (completed w ++ [testnetName]) w)).
  - rewrite Hsave. apply (list_find_insert _ _ _ w); [done|].
    by apply list_find_Some in Hfind as (_ & Hidx & _).
  - simpl. apply elem_of_app. right. by left.
Qed.

Lemma markTestnetCompleted_idempotent_witness :
  let H := Example.host Example.half Example.never true in
  let s := set_wallets [Example.wallet 0 "0" []; Example.wallet 1 "0" []]
                       Example.ready in
  let s' := (WalletManager.markTestnetCompleted (H:=H) 1 "A" s).2 in
  WalletManager.markTestnetCompleted (H:=H) 1 "A" s' = (Ok tt, s').
Proof.
  intros H s s'.
  destruct (WalletManager.markTestnetCompleted (H:=H) 1 "A" s) as [r s1] eqn:Hrun.
  exact (markTestnetCompleted_idempotent (H:=H) 1 "A" s r s1 Hrun).
Defined.

(** * Cascade funding: what a run changes *)

(** Each wallet is as it was but for its balance. *)
Definition only_balances : relation State := fun s s' =>
  length (wallets s') = length (wallets s) ∧
  ∀ p w, wallets s !! p = Some w →
         ∃ w', wallets s' !! p = Some w' ∧ w' = set_balance (balance w') w.

(** Each wallet is as it was, or as it was with the balance [reserve]. *)
Definition drained_to (reserve : string) : relation State := fun s s' =>
  length (wallets s') = length (wallets s) ∧
  ∀ p w, wallets s !! p = Some w →
         ∃ w', wallets s' !! p = Some w' ∧
               (w' = w ∨ w' = set_balance reserve w).

Lemma only_balances_intro s s' : wallets s' = wallets s → only_balances s s'.
Proof.
  intros Hw. split; [by rewrite Hw|]. intros p w Hp. exists w.
  rewrite Hw. split; [done | by destruct w].
Qed.

Lemma drained_to_intro reserve s s' :
  wallets s' = wallets s → drained_to reserve s s'.
Proof.
  intros Hw. split; [by rewrite Hw|]. intros p w Hp. exists w.
  rewrite Hw. split; [done | by left].
Qed.

#[export] Instance only_balances_preorder : PreOrder only_balances.
Proof.
  split.
  - intros s. by apply only_balances_intro.
  - intros s1 s2 s3 [Hl12 H12] [Hl23 H23]. split; [congruence|].
    intros p w Hp. destruct (H12 p w Hp) as (w2 & Hp2 & Hw2).
    destruct (H23 p w2 Hp2) as (w3 & Hp3 & Hw3).
    exists w3. split; [done|]. rewrite Hw3 at 1. rewrite Hw2. by destruct w.
Qed.

#[export] Instance drained_to_preorder reserve : PreOrder (drained_to reserve).
Proof.
  split.
  - intros s. by apply drained_to_intro.
  - intros s1 s2 s3 [Hl12 H12] [Hl23 H23]. split; [congruence|].
    intros p w Hp. destruct (H12 p w Hp) as (w2 & Hp2 & Hw2).
    destruct (H23 p w2 Hp2) as (w3 & Hp3 & Hw3).
    exists w3. split; [done|].
    destruct Hw2 as [-> | ->], Hw3 as [-> | ->]; auto.
Qed.

Section CascadeBalances.
Context {H : Host}.
Import Js CascadeFunding.

#[local] Instance ambient_only_balances : Ambient only_balances.
Proof. split; [apply _ | intros; by apply only_balances_intro ..]. Qed.

#[local] Instance ambient_drained_to reserve : Ambient (drained_to reserve).
Proof. split; [apply _ | intros; by apply drained_to_intro ..]. Qed.

Lemma respects_update_balance p (f : Wallet → Wallet) :
  (∀ w, ∃ b, f w = set_balance b w) →
  respects only_balances (update_wallet p f).
Proof.
  intros Hf. apply respects_modify. intros s.
  destruct (wallets s !! p) as [w|] eqn:Hp; [|by apply only_balances_intro].
  split; simpl; [by rewrite length_insert|].
  intros q w0 Hq. destruct (decide (q = p)) as [->|Hne].
  - rewrite Hp in Hq. injection Hq as <-. exists (f w).
    split; [apply list_lookup_insert_eq; by eapply lookup_lt_Some|].
    destruct (Hf w) as [b ->]. by destruct w.
  - exists w0. rewrite list_lookup_insert_ne by done.
    split; [done | by destruct w0].
Qed.

Lemma respects_drain reserve p :
  respects (drained_to reserve) (update_wallet p (set_balance reserve)).
Proof.
  apply respects_modify. intros s.
  destruct (wallets s !! p) as [w|] eqn:Hp; [|by apply drained_to_intro].
  split; simpl; [by rewrite length_insert|].
  intros q w0 Hq. destruct (decide (q = p)) as [->|Hne].
  - rewrite Hp in Hq. injection Hq as <-. eexists.
    split; [apply list_lookup_insert_eq; by eapply lookup_lt_Some|]. by right.
  - exists w0. rewrite list_lookup_insert_ne by done. split; [done | by left].
Qed.

Lemma respects_fundForward amount gasBuffer :
  respects only_balances (fundForward amount gasBuffer).
Proof.
  assert (∀ c, respects only_balances (record c)) as Hrecord.
  { intros c. apply respects_modify. intros s. by apply only_balances_intro. }
  assert (∀ b, respects only_balances (modify (set_fund_isRunning b))) as Hflag.
  { intros b. apply respects_modify. intros s. by apply only_balances_intro. }
  assert (∀ a b amount gas, respects only_balances (simulateFunding a b amount gas))
    as Hsim.
  { intros a b am gas. unfold simulateFunding, address_at, generateMockTxHash.
    respects_auto; apply respects_update_balance; intros w; by eexists. }
  assert (∀ l, respects only_balances (forward_loop l amount
                                         (default num_0_001 gasBuffer))) as Hloop.
  { induction l as [|i l IH]; cbn [forward_loop]; [respects_auto|].
    unfold forward_link. respects_auto. }
  unfold fundForward, WalletManager.getWallets. respects_step; [respects_step|].
  destruct a; [respects_auto|]. respects_step; [respects_step|].
  destruct (_ <? _)%nat; [respects_auto|].
  respects_step; [apply Hflag|]. respects_step; [respects_auto|].
  apply respects_try_finally; [apply _ | respects_auto |].
  intros s. by apply only_balances_intro.
Qed.

Lemma respects_fundReverse destinationAddress :
  respects (drained_to (toFixed6 num_0_001)) (fundReverse destinationAddress).
Proof.
  set (R := drained_to (toFixed6 num_0_001)).
  assert (∀ c, respects R (record c)) as Hrecord.
  { intros c. apply respects_modify. intros s. by apply drained_to_intro. }
  assert (∀ b, respects R (modify (set_fund_isRunning b))) as Hflag.
  { intros b. apply respects_modify. intros s. by apply drained_to_intro. }
  assert (∀ a b, respects R (simulateReverseFunding a b)) as Hsim.
  { intros a b. unfold simulateReverseFunding, address_at, generateMockTxHash.
    respects_auto. apply respects_drain. }
  assert (∀ l, respects R (reverse_loop l destinationAddress)) as Hloop.
  { induction l as [|i l IH]; cbn [reverse_loop]; [respects_auto|].
    unfold reverse_link, address_at. respects_auto. }
  unfold fundReverse, WalletManager.getWallets. respects_step; [respects_step|].
  destruct a; [respects_auto|]. respects_step; [respects_step|].
  destruct (_ <? _)%nat; [respects_auto|].
  destruct (negb _); [respects_auto|].
  respects_step; [apply Hflag|]. respects_step; [respects_auto|].
  apply respects_try_finally; [apply _ | respects_auto |].
  intros s. by apply drained_to_intro.
Qed.
End CascadeBalances.

(** X14. Forward cascade funding changes nothing of a wallet but its
    balance, and neither adds nor removes a wallet, however the run
    ends. *)
Theorem fundForward_only_balances {H : Host} amount gasBuffer s :
  let s' := (CascadeFunding.fundForward amount gasBuffer s).2 in
  length (wallets s') = length (wallets s) ∧
  ∀ p w, wallets s !! p = Some w →
         ∃ w', wallets s' !! p = Some w' ∧ w' = set_balance (balance w') w.
Proof.
  intros s'. pose proof (respects_fundForward amount gasBuffer s) as Hrun.
  exact Hrun.
Qed.

(** X15. Reverse cascade funding never credits a wallet: after a run
    every wallet is as it was before, or as it was with the gas reserve
    of 0.001 as its balance.  What a wallet sends is added to no other
    wallet. *)
Theorem fundReverse_never_credits {H : Host} destinationAddress s :
  let s' := (CascadeFunding.fundReverse destinationAddress s).2 in
  length (wallets s') = length (wallets s) ∧
  ∀ p w, wallets s !! p = Some w →
         ∃ w', wallets s' !! p = Some w' ∧
               (w' = w ∨ w' = set_balance (toFixed6 num_0_001) w).
Proof.
  intros s'. pose proof (respects_fundReverse destinationAddress s) as Hrun.
  exact Hrun.
Qed.

(** * The executor: what a run changes and how it ends *)

(** Each wallet is as it was but for its list of completed networks,
    which starts with the list it had. *)
Definition extends_completed : relation State := fun s s' =>
  length (wallets s') = length (wallets s) ∧
  ∀ p w, wallets s !! p = Some w →
         ∃ w', wallets s' !! p = Some w' ∧
               w' = set_completed (completed w') w ∧
               completed w `prefix_of` completed w'.

Lemma extends_completed_intro s s' :
  wallets s' = wallets s → extends_completed s s'.
Proof.
  intros Hw. split; [by rewrite Hw|]. intros p w Hp. exists w.
  rewrite Hw. split_and!; [done | by destruct w | done].
Qed.

#[export] Instance extends_completed_preorder : PreOrder extends_completed.
Proof.
  split.
  - intros s. by apply extends_completed_intro.
  - intros s1 s2 s3 [Hl12 H12] [Hl23 H23]. split; [congruence|].
    intros p w Hp. destruct (H12 p w Hp) as (w2 & Hp2 & Hw2 & Hpre2).
    destruct (H23 p w2 Hp2) as (w3 & Hp3 & Hw3 & Hpre3).
    exists w3. split_and!; [done | | by etrans].
    rewrite Hw3 at 1. rewrite Hw2. by destruct w.
Qed.

Section ExecutorChanges.
Context {H : Host}.
Import Js TestnetExecutor.

#[local] Instance ambient_extends : Ambient extends_completed.
Proof. split; [apply _ | intros; by apply extends_completed_intro ..]. Qed.

#[local] Instance storage_extends : Storage extends_completed.
Proof. split; [split|..]; intros; by apply extends_completed_intro. Qed.

#[local] Instance bookkeeping_extends : Bookkeeping extends_completed.
Proof. split; intros; by apply extends_completed_intro. Qed.

Lemma mark_extends idx testnetName s p w :
  list_find (fun w => index w = idx) (wallets s) = Some (p, w) →
  extends_completed s
    (set_wallets
       (<[p := set_completed (completed w ++ [testnetName]) w]> (wallets s)) s).
Proof.
  intros (Hp & _ & _)%list_find_Some. split; simpl; [by rewrite length_insert|].
  intros q w0 Hq. destruct (decide (q = p)) as [->|Hne].
  - rewrite Hp in Hq. injection Hq as <-. eexists.
    split_and!; [apply list_lookup_insert_eq; by eapply lookup_lt_Some | |].
    + by destruct w.
    + simpl. by apply prefix_app_r.
  - exists w0. rewrite list_lookup_insert_ne by done.
    split_and!; [done | by destruct w0 | done].
Qed.

Lemma respects_extends_executeAll testnets config :
  respects extends_completed (executeAll testnets config).
Proof.
  apply respects_executeAll; try apply _. intros. by eapply mark_extends.
Qed.

Lemma no_throw_try_finally {A} (m : M A) f :
  no_throw m → no_throw (try_finally m f).
Proof.
  intros Hm s. unfold try_finally. destruct (Hm s) as [a Ha].
  destruct (m s) as [r s1]. by exists a.
Qed.

Lemma no_throw_executeAll testnets config : no_throw (executeAll testnets config).
Proof.
  unfold executeAll. apply no_throw_bind; [apply no_throw_get|].
  intros [|]; [apply no_throw_emit|].
  repeat (apply no_throw_bind; [apply no_throw_modify | intros _]).
  apply no_throw_try_finally, no_throw_try_catch. intros e.
  apply no_throw_bind; [apply no_throw_emit | intros _; apply no_throw_emit].
Qed.

Lemma executeAll_flag testnets config s :
  exec_isRunning s = false →
  exec_isRunning (executeAll testnets config s).2 = false.
Proof.
  intros Hidle. unfold executeAll, bind at 1, get at 1. rewrite Hidle.
  unfold bind at 1, modify at 1, bind at 1, modify at 1, try_finally.
  by destruct (try_catch _ _ _).
Qed.
End ExecutorChanges.

(** X16. A run of the executor changes nothing of a wallet but its
    list of completed networks, and only appends to that list: it
    neither adds nor removes a wallet, and never touches an address, a
    key or a balance. *)
Theorem executeAll_only_appends_completed {H : Host} testnets config s :
  let s' := (TestnetExecutor.executeAll testnets config s).2 in
  length (wallets s') = length (wallets s) ∧
  ∀ p w, wallets s !! p = Some w →
         ∃ w', wallets s' !! p = Some w' ∧
               w' = set_completed (completed w') w ∧
               completed w `prefix_of` completed w'.
Proof.
  intros s'. pose proof (respects_extends_executeAll testnets config s) as Hrun.
  exact Hrun.
Qed.

(** X17. [executeAll] never throws: every error of the run is caught
    and reported.  Started while the executor is idle it ends with the
    executor idle again; called while a run is in progress it only shows
    a warning and leaves the statistics of that run alone. *)
Theorem executeAll_returns {H : Host} testnets config s :
  let run := TestnetExecutor.executeAll testnets config s in
  run.1 = Ok tt ∧
  (exec_isRunning s = false → exec_isRunning run.2 = false) ∧
  (exec_isRunning s = true →
   run.2 = set_output (output s ++ [Toast "Automation already running" "warning"]) s).
Proof.
  intros run. split_and!.
  - destruct (no_throw_executeAll testnets config s) as [[] Hok]. exact Hok.
  - apply executeAll_flag.
  - intros Hbusy. unfold run, TestnetExecutor.executeAll, bind, get.
    by rewrite Hbusy.
Qed.

(** X18. Without wallets, or without networks, a run executes nothing:
    the statistics end at zero, no wallet is touched, and the error is
    shown, the missing wallets first. *)
Theorem executeAll_nothing_to_do {H : Host} testnets config s :
  exec_isRunning s = false →
  wallets s = [] ∨ testnets = [] →
  let s' := (TestnetExecutor.executeAll testnets config s).2 in
  stats s' = Stats.mk 0 0 0 0 ∧ calls s' = calls s ∧ wallets s' = wallets s ∧
  output s' = output s ++
    (let message :=
       if bool_decide (wallets s = [])
       then "No wallets available. Please generate wallets first."
       else "No testnets available to execute." in
     [Activity ("Error: " +:+ message) "error"; Toast message "error"]).
Proof.
  intros Hidle Hempty s'. subst s'.
  destruct (TestnetExecutor.executeAll testnets config s) as [r s1] eqn:Hrun.
  revert Hrun.
  unfold TestnetExecutor.executeAll, bind at 1, get at 1. rewrite Hidle.
  unfold bind at 1, modify at 1, bind at 1, modify at 1, try_finally,
    try_catch, bind at 1, WalletManager.getWallets, get at 1.
  cbn [wallets set_stats set_exec_isRunning fst snd].
  destruct (wallets s) as [|w ws] eqn:Hw.
  - rewrite bool_decide_eq_true_2 by done.
    cbv [length Nat.eqb throw bind emit modify]. intros [= _ <-]. simpl.
    rewrite <- app_assoc. by rewrite Hw.
  - destruct Hempty as [? | ->]; [done|].
    rewrite bool_decide_eq_false_2 by done.
    cbv [length Nat.eqb throw bind emit modify]. intros [= _ <-]. simpl.
    rewrite <- app_assoc. by rewrite Hw.
Qed.

Lemma executeAll_nothing_to_do_witness :
  let H := Example.host Example.half Example.never true in
  let s' := (TestnetExecutor.executeAll (H:=H) [mkTestnet "A" "eth" None]
               (mkConfig false 0 0 false) Example.ready).2 in
  stats s' = Stats.mk 0 0 0 0 ∧ calls s' = [].
Proof.
  intros H s'.
  destruct (executeAll_nothing_to_do (H:=H) [mkTestnet "A" "eth" None]
              (mkConfig false 0 0 false) Example.ready eq_refl (or_introl eq_refl))
    as (Hstats & Hcalls & _).
  by split.
Defined.

(** * Cascade funding: how a run ends *)

Section CascadeEnds.
Context {H : Host}.
Import Js CascadeFunding.

Lemma no_throw_fundForward amount gasBuffer :
  no_throw (fundForward amount gasBuffer).
Proof.
  unfold fundForward. apply no_throw_bind; [apply no_throw_get|].
  intros [|]; [apply no_throw_emit|].
  apply no_throw_bind; [apply no_throw_get|]. intros ws.
  destruct (_ <? _)%nat; [apply no_throw_emit|].
  apply no_throw_bind; [apply no_throw_modify | intros _].
  apply no_throw_bind; [apply no_throw_emit | intros _].
  apply no_throw_try_finally, no_throw_try_catch. intros e. apply no_throw_emit.
Qed.

Lemma no_throw_fundReverse destinationAddress :
  no_throw (fundReverse destinationAddress).
Proof.
  unfold fundReverse. apply no_throw_bind; [apply no_throw_get|].
  intros [|]; [apply no_throw_emit|].
  apply no_throw_bind; [apply no_throw_get|]. intros ws.
  destruct (_ <? _)%nat; [apply no_throw_emit|].
  destruct (negb _); [apply no_throw_emit|].
  apply no_throw_bind; [apply no_throw_modify | intros _].
  apply no_throw_bind; [apply no_throw_emit | intros _].
  apply no_throw_try_finally, no_throw_try_catch. intros e. apply no_throw_emit.
Qed.
End CascadeEnds.

(** X19. [fundForward] never throws, and started while no funding is in
    progress it ends with none in progress.  With a funding in progress,
    or with fewer than two wallets, it only shows a message: no transfer
    is attempted and no wallet changes. *)
Theorem fundForward_returns {H : Host} amount gasBuffer s :
  let run := CascadeFunding.fundForward amount gasBuffer s in
  run.1 = Ok tt ∧
  (fund_isRunning s = false → fund_isRunning run.2 = false) ∧
  (fund_isRunning s = true ∨ (length (wallets s) < 2)%nat →
   ∃ message severity,
     run.2 = set_output (output s ++ [Toast message severity]) s).
Proof.
  intros run. split_and!.
  - destruct (no_throw_fundForward amount gasBuffer s) as [[] Hok]. exact Hok.
  - intros Hidle. unfold run, CascadeFunding.fundForward, bind at 1, get at 1.
    rewrite Hidle. unfold bind at 1, WalletManager.getWallets, get at 1.
    destruct (_ <? _)%nat; [done|].
    unfold bind at 1, modify at 1, bind at 1, emit at 1, modify at 1,
      try_finally.
    by destruct (try_catch _ _ _).
  - intros Hrefused. unfold run, CascadeFunding.fundForward, bind at 1, get at 1.
    destruct (fund_isRunning s) eqn:Hflag; [by eexists _, _|].
    destruct Hrefused as [? | Hfew]; [done|].
    unfold bind at 1, WalletManager.getWallets, get at 1.
    apply Nat.ltb_lt in Hfew. rewrite Hfew. by eexists _, _.
Qed.

(** X20. [fundReverse] never throws, and started while no funding is in
    progress it ends with none in progress.  With a funding in progress,
    without wallets, or with an empty destination address, it only shows
    a message: no transfer is attempted and no wallet changes. *)
Theorem fundReverse_returns {H : Host} destinationAddress s :
  let run := CascadeFunding.fundReverse destinationAddress s in
  run.1 = Ok tt ∧
  (fund_isRunning s = false → fund_isRunning run.2 = false) ∧
  (fund_isRunning s = true ∨ wallets s = [] ∨ destinationAddress = "" →
   ∃ message severity,
     run.2 = set_output (output s ++ [Toast message severity]) s).
Proof.
  intros run. split_and!.
  - destruct (no_throw_fundReverse destinationAddress s) as [[] Hok]. exact Hok.
  - intros Hidle. unfold run, CascadeFunding.fundReverse, bind at 1, get at 1.
    rewrite Hidle. unfold bind at 1, WalletManager.getWallets, get at 1.
    destruct (_ <? _)%nat; [done|]. destruct (negb _); [done|].
    unfold bind at 1, modify at 1, bind at 1, emit at 1, modify at 1,
      try_finally.
    by destruct (try_catch _ _ _).
  - intros Hrefused. unfold run, CascadeFunding.fundReverse, bind at 1, get at 1.
    destruct (fund_isRunning s) eqn:Hflag; [by eexists _, _|].
    unfold bind at 1, WalletManager.getWallets, get at 1.
    destruct (wallets s) as [|w ws] eqn:Hw; [by eexists _, _|].
    destruct Hrefused as [? | [? | ->]]; [done..|].
    simpl. by eexists _, _.
Qed.

(** * Base64 there and back *)

Section Base64.
Import Crypto.

Lemma list_ind3 {A} (P : list A → Prop) :
  P [] → (∀ a, P [a]) → (∀ a b, P [a; b]) →
  (∀ a b c l, P l → P (a :: b :: c :: l)) →
  ∀ l, P l.
Proof.
  intros H0 H1 H2 H3 l.
  assert (∀ n (l : list A), (length l ≤ n)%nat → P l) as Hall.
  { clear l. induction n as [|n IH]; intros [|a [|b [|c l]]] Hn; simpl in *;
      try lia; auto.
    apply H3, IH. lia. }
  by apply (Hall (length l)).
Qed.

(** The sextets that [btoa] writes, and the padding it adds. *)
Fixpoint sextets (bytes : list Z) : list Z :=
  match bytes with
  | [] => []
  | [a] => [a / 4; a mod 4 * 16]
  | [a; b] => [a / 4; a mod 4 * 16 + b / 16; b mod 16 * 4]
  | a :: b :: c :: rest =>
      a / 4 :: (a mod 4 * 16 + b / 16) :: (b mod 16 * 4 + c / 64) :: c mod 64
        :: sextets rest
  end.

Fixpoint padding (bytes : list Z) : list ascii :=
  match bytes with
  | [] => []
  | [_] => ["="%char; "="%char]
  | [_; _] => ["="%char]
  | _ :: _ :: _ :: rest => padding rest
  end.

Definition is_byte (b : Z) : Prop := 0 ≤ b < 256.
Definition is_sextet (x : Z) : Prop := 0 ≤ x < 64.

Lemma base64_sextets bytes :
  base64 bytes = map b64 (sextets bytes) ++ padding bytes.
Proof.
  induction bytes as [|a|a b|a b c l IH] using list_ind3; try reflexivity.
  cbn [base64 sextets padding map app]. by rewrite IH.
Qed.

Lemma sextets_range bytes :
  Forall is_byte bytes → Forall is_sextet (sextets bytes).
Proof.
  unfold is_byte, is_sextet.
  induction bytes as [|a|a b|a b c l IH] using list_ind3; intros Hb;
    cbn [sextets]; repeat (apply Forall_cons in Hb as [? Hb]);
    repeat (apply Forall_cons; split); try (Z.div_mod_to_equations; lia);
    auto.
Qed.

Lemma decode_sextets_sextets bytes :
  Forall is_byte bytes → decode_sextets (sextets bytes) = bytes.
Proof.
  unfold is_byte.
  induction bytes as [|a|a b|a b c l IH] using list_ind3; intros Hb;
    cbn [sextets decode_sextets]; repeat (apply Forall_cons in Hb as [? Hb]);
    [done | | |].
  - f_equal. Z.div_mod_to_equations. lia.
  - f_equal; [|f_equal]; Z.div_mod_to_equations; lia.
  - rewrite IH by done.
    f_equal; [|f_equal; [|f_equal]]; Z.div_mod_to_equations; lia.
Qed.

Lemma sextets_length bytes : (length (sextets bytes) mod 4 =? 1)%nat = false.
Proof.
  induction bytes as [|a|a b|a b c l IH] using list_ind3; try reflexivity.
  cbn [sextets length].
  replace (S (S (S (S (length (sextets l))))))
    with (length (sextets l) + 1 * 4)%nat by lia.
  by rewrite Nat.Div0.mod_add.
Qed.

Lemma base64_length bytes : (length (base64 bytes) mod 4 =? 0)%nat = true.
Proof.
  induction bytes as [|a|a b|a b c l IH] using list_ind3; try reflexivity.
  cbn [base64 length].
  replace (S (S (S (S (length (base64 l))))))
    with (length (base64 l) + 1 * 4)%nat by lia.
  by rewrite Nat.Div0.mod_add.
Qed.

(** The characters of the alphabet: their values, and what they are
    not. *)
Lemma b64_table x :
  is_sextet x →
  b64index (b64 x) = Some x ∧ b64 x ≠ "="%char ∧ is_whitespace (b64 x) = false.
Proof.
  intros Hx.
  assert (forallb (fun x => bool_decide (b64index (b64 x) = Some x)
                            && negb (Ascii.eqb (b64 x) "=")
                            && negb (is_whitespace (b64 x)))
                  (seqZ 0 64) = true) as Htable
    by (vm_compute; reflexivity).
  rewrite forallb_forall in Htable. specialize (Htable x).
  rewrite !andb_true_iff, !negb_true_iff in Htable.
  destruct Htable as [[Hindex Hpad] Hspace].
  { apply list_elem_of_In, elem_of_seqZ. unfold is_sextet in Hx. lia. }
  split_and!; [by apply bool_decide_eq_true in Hindex | | done].
  by apply Ascii.eqb_neq.
Qed.

Lemma mapM_b64index sx :
  Forall is_sextet sx → mapM b64index (map b64 sx) = Some sx.
Proof.
  intros Hsx. apply mapM_Some. induction Hsx as [|x sx Hx _ IH]; simpl;
    constructor; [by apply b64_table | done].
Qed.

Lemma padding_cases bytes :
  padding bytes = [] ∨ padding bytes = ["="%char] ∨
  padding bytes = ["="%char; "="%char].
Proof.
  induction bytes as [|a|a b|a b c l IH] using list_ind3; simpl; auto.
Qed.

Lemma strip_padding_base64 bytes :
  Forall is_byte bytes →
  strip_padding (base64 bytes) = map b64 (sextets bytes).
Proof.
  intros Hb%sextets_range. rewrite base64_sextets. unfold strip_padding.
  set (cs := map b64 (sextets bytes)).
  assert (match rev cs with
          | c :: _ => Ascii.eqb c "="%char = false
          | [] => True
          end) as Hlast.
  { unfold cs. rewrite <- map_rev.
    apply Forall_rev in Hb. destruct Hb as [|x sx Hx _]; [done|].
    simpl. apply Ascii.eqb_neq. by apply b64_table. }
  pose proof (rev_involutive cs) as Hcs.
  destruct (padding_cases bytes) as [-> | [-> | ->]]; rewrite rev_app_distr;
    cbn [rev app].
  - rewrite app_nil_r. destruct (rev cs) as [|c r]; [done|].
    by rewrite Hlast.
  - change (Ascii.eqb "=" "=") with true. cbv iota.
    destruct (rev cs) as [|c r]; [done|]. by rewrite Hlast.
  - change (Ascii.eqb "=" "=") with true. by cbv iota.
Qed.

Lemma filter_whitespace_base64 bytes :
  Forall is_byte bytes →
  List.filter (fun c => negb (is_whitespace c)) (base64 bytes) = base64 bytes.
Proof.
  intros Hb%sextets_range. rewrite base64_sextets.
  rewrite List.filter_app.
  assert (List.filter (fun c => negb (is_whitespace c)) (padding bytes)
          = padding bytes) as ->.
  { by destruct (padding_cases bytes) as [-> | [-> | ->]]. }
  f_equal. induction Hb as [|x sx Hx _ IH]; [done|].
  simpl. destruct (b64_table x Hx) as (_ & _ & ->). simpl. by rewrite IH.
Qed.

(** [atob] reads back the bytes that [btoa] has written. *)
Lemma atob_btoa bytes : Forall is_byte bytes → atob (btoa bytes) = Some bytes.
Proof.
  intros Hb. unfold atob, btoa. rewrite list_ascii_of_string_of_list_ascii.
  rewrite filter_whitespace_base64, base64_length by done.
  rewrite strip_padding_base64 by done.
  rewrite length_map, sextets_length.
  rewrite mapM_b64index by (by apply sextets_range). simpl.
  by rewrite decode_sextets_sextets.
Qed.
End Base64.

(** * Decrypting what was encrypted *)

Section DecryptEncrypt.
Context {H : Host} {D : Decrypting}.
Import Js Crypto.

(** The Web Crypto primitives fit together: random values and cipher
    texts are byte arrays, the vector has the length asked for,
    decrypting with the key and the vector gives back what was
    encrypted, a generated key survives its export as JSON and the
    import of that, and decoding gives back a text that was encoded. *)
Definition crypto_round_trips : Prop :=
  (∀ k n, length (getRandomValues k n) = n ∧
          Forall is_byte (getRandomValues k n)) ∧
  (∀ key iv data ct,
     Forall is_byte data → subtle_encrypt key iv data = Some ct →
     Forall is_byte ct ∧ subtle_decrypt key iv ct = Some data) ∧
  (∀ k key, generateKey k = Some key →
            ∃ jwk, exportKey key = Some jwk ∧ jwk ≠ "" ∧
                   importKey jwk = Some key) ∧
  (∀ data, TextDecoder_decode (encode data) = data).

Lemma encode_bytes data : Forall is_byte (encode data).
Proof.
  unfold encode. generalize (list_ascii_of_string data). intros l.
  induction l as [|c l IH]; simpl; constructor; [|done].
  unfold is_byte. pose proof (N_ascii_bounded c). lia.
Qed.

(** Once [getKey] has returned a key, it returns that key as long as
    the stored key is not replaced. *)
Lemma getKey_stored key s s1 :
  crypto_round_trips →
  getKey s = (Ok key, s1) →
  ∃ jwk, encryptionKey s1 = Some jwk ∧ truthy jwk = true ∧
         importKey jwk = Some key.
Proof.
  intros (_ & _ & Hkeys & _).
  assert (generateNewKey s = (Ok key, s1) →
          ∃ jwk, encryptionKey s1 = Some jwk ∧ truthy jwk = true ∧
                 importKey jwk = Some key) as Hnew.
  { unfold generateNewKey, settled. unfold bind at 1, get at 1.
    destruct (generateKey (n_crypto s)) as [key'|] eqn:Hgen.
    2:{ cbv [bind when next_task modify throw ret]. by destruct rejects_later. }
    destruct (Hkeys _ _ Hgen) as (jwk & Hexport & Hne & Himport).
    cbv [bind next_task modify ret]. rewrite Hexport. intros [= <- <-].
    exists jwk. split_and!; [done | | done].
    by apply truthy_nonempty. }
  unfold getKey, bind at 1, get at 1.
  destruct (encryptionKey s) as [jwk|] eqn:Hjwk; [|done].
  destruct (truthy jwk) eqn:Htruthy; [|done].
  unfold settled. destruct (importKey jwk) as [key'|] eqn:Himport.
  2:{ cbv [bind when next_task modify throw ret]. by destruct rejects_later. }
  cbv [bind next_task modify ret]. intros [= <- <-]. by exists jwk.
Qed.

Lemma getKey_again key jwk s :
  encryptionKey s = Some jwk → truthy jwk = true → importKey jwk = Some key →
  getKey s = (Ok key, set_n_task (S (n_task s)) s).
Proof.
  intros Hjwk Htruthy Himport. unfold getKey, bind at 1, get at 1.
  by rewrite Hjwk, Htruthy, Himport.
Qed.

Lemma btoa_nonempty bytes : bytes ≠ [] → btoa bytes ≠ "".
Proof.
  intros Hne Hempty. apply btoa_longer in Hne. rewrite Hempty in Hne.
  simpl in Hne. lia.
Qed.

Lemma decrypt_encrypt_run data s out s1 :
  web_crypto_works → crypto_round_trips →
  encrypt data s = (Ok out, s1) →
  (decrypt out s1).1 = Ok data.
Proof.
  intros Hworks Htrips. pose proof Htrips as (Hrandom & Hcipher & _ & Hdecode).
  unfold encrypt. destruct (truthy data) eqn:Htruthy; simpl.
  2:{ intros [= <- <-]. unfold decrypt. by rewrite Htruthy. }
  intros [(a & Hbody & [= <-]) | (e & s2 & Hbody & _)]%try_catch_inv.
  2:{ exfalso.
      apply bind_inv in Hbody as [(key & s3 & _ & Hbody) | (e' & Hkey & _)].
      2:{ eapply no_throw_ok in Hkey as [? [=]]. by apply no_throw_getKey. }
      apply bind_inv in Hbody as [(iv & s4 & _ & Hbody) | (e' & [=] & _)].
      unfold subtle_encrypt_, settled in Hbody.
      destruct Hworks as (_ & _ & _ & Hsome).
      destruct (Hsome key iv (encode data)) as (ct & Hct & _).
      rewrite Hct in Hbody. cbv [bind next_task modify ret] in Hbody. done. }
  apply bind_inv in Hbody as [(key & s2 & Hkey & Hbody) | (e & _ & [=])].
  apply bind_inv in Hbody as [(iv & s3 & Hiv & Hbody) | (e & _ & [=])].
  unfold getRandomValues_ in Hiv. injection Hiv as <- <-.
  unfold subtle_encrypt_, settled in Hbody.
  destruct (subtle_encrypt key _ (encode data)) as [ct|] eqn:Hct.
  2:{ cbv [bind when next_task modify throw ret] in Hbody.
      by destruct rejects_later. }
  cbv [bind next_task modify ret] in Hbody. injection Hbody as <- <-.
  destruct (Hrandom (n_crypto s2) 12%nat) as [Hlen Hivbytes].
  destruct (Hcipher _ _ _ _ (encode_bytes data) Hct) as [Hctbytes Hback].
  destruct (getKey_stored _ _ _ Htrips Hkey) as (jwk & Hjwk & Hjt & Himport).
  set (iv := getRandomValues (n_crypto s2) 12) in *.
  unfold decrypt. rewrite (proj2 (truthy_nonempty _)).
  2:{ apply btoa_nonempty. destruct iv; [done | done]. }
  change (negb true) with false. cbv iota.
  unfold try_catch, bind at 1. cbv beta.
  rewrite (getKey_again key jwk) by done.
  rewrite atob_btoa by (apply Forall_app; by split).
  unfold bind at 1, ret at 1.
  rewrite take_app_length' by done. rewrite drop_app_length' by done.
  unfold subtle_decrypt_, settled. rewrite Hback.
  cbv [bind ret next_task modify]. simpl.
  by rewrite Hdecode.
Qed.

Lemma no_throw_decrypt encryptedData : no_throw (decrypt encryptedData).
Proof.
  unfold decrypt. destruct (negb _); [apply no_throw_ret|].
  apply no_throw_try_catch. intros e.
  apply no_throw_bind; [apply no_throw_emit | intros _; apply no_throw_ret].
Qed.
End DecryptEncrypt.

(** X21. What [encrypt] returns, [decrypt] turns back into the text:
    when the Web Crypto calls succeed and fit together,
    [decrypt(encrypt(data))] is [data], for the empty text too. *)
Theorem decrypt_encrypt {H : Host} {D : Decrypting} data s out s1 :
  web_crypto_works → crypto_round_trips →
  Crypto.encrypt data s = (Ok out, s1) →
  (Crypto.decrypt out s1).1 = Ok data.
Proof.
  intros Hworks Htrips Hrun.
  by eapply decrypt_encrypt_run.
Qed.

(** X22. [decrypt] never throws: it returns the text, or what it was
    given when that is empty or when anything fails, as for a value
    that is not base64. *)
Theorem decrypt_falls_back {H : Host} {D : Decrypting} encryptedData s :
  (∃ text, (Crypto.decrypt encryptedData s).1 = Ok text) ∧
  (encryptedData = "" ∨ Crypto.atob encryptedData = None →
   (Crypto.decrypt encryptedData s).1 = Ok encryptedData).
Proof.
  split; [apply no_throw_decrypt|].
  intros Hcase. unfold Crypto.decrypt.
  destruct (Js.truthy encryptedData) eqn:Htruthy; [|done]. simpl.
  destruct Hcase as [-> | Hatob]; [done|].
  unfold try_catch, bind at 1.
  destruct (Crypto.getKey s) as [[key|e] s1]; [|done].
  rewrite Hatob. unfold bind at 1, throw. done.
Qed.

(** The toy cipher of the concrete host, undone. *)
Module ExampleCipher.
Definition decode_bytes (bytes : list Z) : string :=
  string_of_list_ascii (map (fun b => ascii_of_N (Z.to_N b)) bytes).

Definition decrypting (draws : nat → Z) (stops : nat → bool)
  : @Decrypting (Example.host draws stops true) := {|
  subtle_decrypt := fun _ iv encrypted =>
    Some (map (fun b => Z.lxor b 90) (take (length encrypted - 16) encrypted));
  TextDecoder_decode := decode_bytes
|}.
End ExampleCipher.

Lemma lxor_byte b : is_byte b → is_byte (Z.lxor b 90) ∧ Z.lxor (Z.lxor b 90) 90 = b.
Proof.
  intros Hb. split.
  - assert (forallb (fun b => (0 <=? Z.lxor b 90) && (Z.lxor b 90 <? 256))
                    (seqZ 0 256) = true) as Htable
      by (vm_compute; reflexivity).
    rewrite forallb_forall in Htable. specialize (Htable b).
    unfold is_byte in *. rewrite andb_true_iff in Htable.
    destruct Htable as [?%Z.leb_le ?%Z.ltb_lt]; [|done].
    apply list_elem_of_In, elem_of_seqZ. lia.
  - by rewrite Z.lxor_assoc, Z.lxor_nilpotent, Z.lxor_0_r.
Qed.

Lemma example_crypto_round_trips draws stops :
  crypto_round_trips (D := ExampleCipher.decrypting draws stops).
Proof.
  split_and!.
  - intros k n. simpl. split; [apply repeat_length|].
    apply Forall_forall. intros b Hb%list_elem_of_In%repeat_spec. subst b.
    unfold is_byte. apply Z.mod_pos_bound. lia.
  - intros [] iv data ct Hdata. simpl. intros [= <-]. split.
    + apply Forall_app. split.
      * induction Hdata as [|b l Hb _ IH]; simpl; constructor;
          [by apply lxor_byte | done].
      * by repeat constructor.
    + f_equal.
      rewrite take_app_length' by (rewrite length_app; simpl; lia).
      induction Hdata as [|b l Hb _ IH]; simpl; [done|].
      rewrite IH. f_equal. by apply lxor_byte.
  - intros k [] _. exists "{}". by split_and!.
  - intros data. simpl. unfold ExampleCipher.decode_bytes, Crypto.encode.
    rewrite map_map.
    rewrite <- (string_of_list_ascii_of_string data) at 2. f_equal.
    induction (list_ascii_of_string data) as [|c l IH]; simpl; [done|].
    by rewrite IH, N2Z.id, ascii_N_embedding.
Qed.

Lemma decrypt_encrypt_witness :
  let H := Example.host Example.half Example.never true in
  let D := ExampleCipher.decrypting Example.half Example.never in
  let run := Crypto.encrypt (H:=H) "c0ffee" Example.ready in
  ∃ out, run.1 = Ok out ∧ (Crypto.decrypt (D:=D) out run.2).1 = Ok "c0ffee".
Proof.
  intros H D run.
  assert (is_ok run.1 = true) as Hok by (vm_compute; reflexivity).
  destruct run as [[out|e] s1] eqn:Hrun; [|done]. unfold run in Hrun.
  exists out. split; [done|].
  exact (decrypt_encrypt (H:=H) (D:=D) "c0ffee" Example.ready out s1
           (example_crypto_works _ _) (example_crypto_round_trips _ _) Hrun).
Defined.

(** * Generated addresses and the address check *)

(** X23. [isValidAddress] accepts the address of every generated EVM
    wallet and rejects the address of every generated Solana wallet: a
    Solana address has at most six characters where the check asks for
    32 to 44. *)
Theorem isValidAddress_generated privateKey :
  Helpers.isValidAddress (WalletManager._privateKeyToAddress privateKey) "evm"
  = true ∧
  Helpers.isValidAddress (WalletManager._generateSolanaAddress privateKey)
                         "solana"
  = false.
Proof.
  split.
  - rewrite privateKeyToAddress_zero. reflexivity.
  - unfold Helpers.isValidAddress. simpl String.eqb. cbv iota.
    pose proof (solana_address_short privateKey) as Hlen.
    destruct (Nat.leb_spec 32
                (String.length (WalletManager._generateSolanaAddress privateKey)));
      [lia | done].
Qed.

(** * Wallets that share an index *)

(** X24. [markTestnetCompleted] never changes a wallet that comes after
    another wallet with the same index: [getWalletByIndex] finds the
    first one only.  A wallet whose index repeats an earlier one can
    therefore not be marked as completed. *)
Theorem markTestnetCompleted_skips_later_duplicates {H : Host}
    walletIndex testnetName s r s' p q w earlier :
  WalletManager.markTestnetCompleted walletIndex testnetName s = (r, s') →
  wallets s !! p = Some w → wallets s !! q = Some earlier →
  (q < p)%nat → index earlier = index w →
  wallets s' !! p = Some w.
Proof.
  intros Hrun Hp Hq Hlt Hsame. revert Hrun.
  unfold WalletManager.markTestnetCompleted.
  unfold bind at 1, WalletManager.getWalletByIndex at 1, get at 1.
  destruct (list_find _ (wallets s)) as [[i found]|] eqn:Hfind.
  2:{ by intros [= _ <-]. }
  destruct (bool_decide _); [by intros [= _ <-]|].
  unfold bind at 1, modify at 1. intros Hsave.
  apply saveWallets_keeps_wallets in Hsave. rewrite Hsave. simpl.
  apply list_find_Some in Hfind as (Hi & Hidx & Hfirst).
  rewrite list_lookup_insert_ne; [done|].
  intros <-. apply (Hfirst q earlier Hq Hlt). rewrite Hsame.
  rewrite Hp in Hi. by injection Hi as <-.
Qed.

Lemma markTestnetCompleted_skips_later_duplicates_witness :
  let H := Example.host Example.half Example.never true in
  let s := set_wallets [Example.wallet 0 "0" []; Example.wallet 0 "5" []]
                       Example.initial in
  let s' := (WalletManager.markTestnetCompleted (H:=H) 0 "A" s).2 in
  wallets s' !! 1%nat = Some (Example.wallet 0 "5" []).
Proof.
  intros H s s'.
  destruct (WalletManager.markTestnetCompleted (H:=H) 0 "A" s) as [r s1] eqn:Hrun.
  apply (markTestnetCompleted_skips_later_duplicates (H:=H) 0 "A" s r s1
           1 0 (Example.wallet 0 "5" []) (Example.wallet 0 "0" []) Hrun);
    [reflexivity | reflexivity | lia | reflexivity].
Defined.

(** X25. [deleteAllWallets], once confirmed, empties the wallet set and,
    with the store open, the store of the wallets; when the question is
    declined nothing changes. *)
Theorem deleteAllWallets_empties {H : Host} confirmed s r s' :
  db s = Some Connection → wallets_store_ready s →
  WalletManager.deleteAllWallets confirmed s = (r, s') →
  r = Ok tt ∧
  if confirmed then wallets s' = [] ∧ stored_wallets s' = [] else s' = s.
Proof.
  intros Hdb (store & Hstore & _). unfold WalletManager.deleteAllWallets.
  destruct confirmed; simpl; [|by intros [= <- <-]].
  unfold bind at 1, modify at 1.
  unfold bind at 1, WalletManager.saveWallets, bind at 1, get at 1.
  cbn [db set_wallets]. rewrite Hdb.
  unfold bind at 1, Db.transaction at 1, WalletManager.WALLET_STORE.
  cbn [idb set_wallets]. rewrite Hstore.
  unfold bind at 1, get at 1. cbn [wallets set_wallets WalletManager.save_each].
  cbv [Db.complete Db.clear modify tx_failed bind emit ret].
  intros [= <- <-]. split; [done|]. split; [done|].
  unfold stored_wallets. simpl. by rewrite lookup_insert_eq.
Qed.

Lemma deleteAllWallets_empties_witness :
  let H := Example.host Example.half Example.never true in
  let s := set_wallets [Example.wallet 0 "0" []] Example.ready in
  let s' := (WalletManager.deleteAllWallets (H:=H) true s).2 in
  wallets s' = [] ∧ stored_wallets s' = [].
Proof.
  intros H s s'.
  destruct (WalletManager.deleteAllWallets (H:=H) true s) as [r s1] eqn:Hrun.
  apply (deleteAllWallets_empties (H:=H) true s r s1) in Hrun as [_ Hempty];
    [exact Hempty | reflexivity | apply ready_wallets_store].
Defined.

(** X28. With the store open and Web Crypto at work, marking a network
    as completed changes the wallet in memory and then fails: the save
    that follows raises [TransactionInactiveError] and leaves the store
    of the wallets empty, while the wallet lists the network. *)
Theorem markTestnetCompleted_listed_but_unsaved {H : Host}
    walletIndex testnetName s p w r s' :
  web_crypto_works → db s = Some Connection → wallets_store_ready s →
  Forall (fun w => privateKey w ≠ "") (wallets s) →
  list_find (fun w => index w = walletIndex) (wallets s) = Some (p, w) →
  testnetName ∉ completed w →
  WalletManager.markTestnetCompleted walletIndex testnetName s = (r, s') →
  r = Throw "TransactionInactiveError" ∧
  wallets s' !! p = Some (set_completed (completed w ++ [testnetName]) w) ∧
  stored_wallets s' = [].
Proof.
  intros Hworks Hdb Hready Hkeys Hfind Hnew.
  unfold WalletManager.markTestnetCompleted, WalletManager.getWalletByIndex.
  unfold bind at 1, get at 1. rewrite Hfind.
  rewrite bool_decide_eq_false_2 by done.
  unfold bind at 1, modify at 1. intros Hsave.
  pose proof Hfind as (Hp & _ & _)%list_find_Some.
  set (marked := set_completed (completed w ++ [testnetName]) w) in *.
  assert (∃ w0 ws, <[p := marked]> (wallets s) = w0 :: ws ∧ privateKey w0 ≠ "")
    as (w0 & ws & Hws & Hpk).
  { destruct (wallets s) as [|w1 ws] eqn:Hall; [done|].
    apply Forall_cons in Hkeys as [Hk1 Hks]. destruct p as [|p]; simpl.
    - injection Hp as ->. by exists marked, ws.
    - by exists w1, (<[p := marked]> ws). }
  eapply saveWallets_inactive in Hsave as (-> & Hw & Hstored);
    [| done | done | done | exact Hws | exact Hpk].
  split_and!; [done | | done]. rewrite Hw. simpl.
  apply list_lookup_insert_eq. by eapply lookup_lt_Some.
Qed.

Lemma markTestnetCompleted_listed_but_unsaved_witness :
  let H := Example.host Example.half Example.never true in
  let s := set_wallets [Example.wallet 0 "0" []] Example.ready in
  let run := WalletManager.markTestnetCompleted (H:=H) 0 "A" s in
  run.1 = Throw "TransactionInactiveError" ∧
  completed <$> wallets run.2 = [["A"]] ∧ stored_wallets run.2 = [].
Proof.
  intros H s run. destruct run as [r s'] eqn:Hrun. unfold run in Hrun.
  assert (completed <$> wallets s' = [["A"]]) as Hlisted.
  { apply (f_equal snd) in Hrun. simpl in Hrun. subst s'.
    vm_compute. reflexivity. }
  apply (markTestnetCompleted_listed_but_unsaved (H:=H) 0 "A" s 0
           (Example.wallet 0 "0" [])) in Hrun as (-> & _ & Hstored).
  - done.
  - apply example_crypto_works.
  - reflexivity.
  - apply ready_wallets_store.
  - by repeat constructor.
  - reflexivity.
  - apply not_elem_of_nil.
Defined.

(** * Forward cascade: the links of a run *)

Section ForwardLinks.
Context {H : Host}.
Hypothesis no_stop : ∀ k, stop_requested k = false.
Import Js CascadeFunding.

#[local] Instance ambient_funding_flag : Ambient (same fund_isRunning).
Proof.
  split; [apply _ | try (intros; reflexivity) ..];
    intros k s Hk; by rewrite no_stop in Hk.
Qed.

Lemma respects_flag_forward_link i amount gas :
  respects (same fund_isRunning) (forward_link i amount gas).
Proof.
  assert (∀ c, respects (same fund_isRunning) (record c)) as Hrecord.
  { intros c. by apply respects_modify. }
  assert (∀ p f, respects (same fund_isRunning) (update_wallet p f)) as Hupdate.
  { intros p f. apply respects_modify. intros s. unfold same.
    by destruct (wallets s !! p). }
  unfold forward_link, simulateFunding, address_at, generateMockTxHash.
  respects_auto.
Qed.

Definition link (i : nat) : Call := SimulateFunding i (i + 1).

(** The loop attempts the links in order, up to the end or to the first
    one that fails. *)
Lemma forward_loop_links amount gas n : ∀ a s r s',
  fund_isRunning s = true →
  forward_loop (seq a n) amount gas s = (r, s') →
  fund_isRunning s' = true ∧
  ((r = Ok tt ∧ calls s' = calls s ++ (link <$> seq a n)) ∨
   (∃ k e, (k < n)%nat ∧ r = Throw e ∧
           calls s' = calls s ++ (link <$> seq a k)
                              ++ [link (a + k); TransferFailed (a + k) e])).
Proof.
  induction n as [|n IH]; intros a s r s' Hflag; cbn [seq forward_loop].
  { intros [= <- <-]. split; [done|]. left. by rewrite app_nil_r. }
  unfold bind at 1, get at 1. rewrite Hflag. cbn [negb].
  intros [([] & s1 & Hlink & Hrest) | (e & Hlink & ->)]%bind_inv.
  - pose proof Hlink as Hflag1.
    eapply (respects_run (same fund_isRunning)) in Hflag1;
      [|apply respects_flag_forward_link].
    unfold same in Hflag1.
    apply forward_link_spec in Hlink as [(_ & Hcalls & _) | (e & [=] & _)].
    apply IH in Hrest as [Hflag' Hcases]; [|congruence].
    split; [done|]. destruct Hcases as [[-> Hc] | (k & e & Hk & -> & Hc)].
    + left. split; [done|]. rewrite Hc, Hcalls, <- app_assoc. done.
    + right. exists (S k), e. split_and!; [lia | done |].
      rewrite Hc, Hcalls, <- !app_assoc. cbn [seq fmap list_fmap app].
      by replace (a + S k)%nat with (S a + k)%nat by lia.
  - pose proof Hlink as Hflag1.
    eapply (respects_run (same fund_isRunning)) in Hflag1;
      [|apply respects_flag_forward_link].
    unfold same in Hflag1.
    apply forward_link_spec in Hlink as [([=] & _) | (e' & [= <-] & Hcalls & _)].
    split; [congruence|]. right. exists 0%nat, e.
    split_and!; [lia | done |]. rewrite Hcalls. simpl.
    by rewrite Nat.add_0_r.
Qed.

Lemma fundForward_links amount gasBuffer s :
  fund_isRunning s = false → (2 ≤ length (wallets s))%nat →
  let s' := (fundForward amount gasBuffer s).2 in
  let n := (length (wallets s) - 1)%nat in
  calls s' = calls s ++ (link <$> seq 0 n) ∨
  ∃ k e, (k < n)%nat ∧
         calls s' = calls s ++ (link <$> seq 0 k) ++ [link k; TransferFailed k e].
Proof.
  intros Hidle Hmany s' n.
  assert (∃ s0 r s1,
            fund_isRunning s0 = true ∧ calls s0 = calls s ∧
            forward_loop (seq 0 n) amount (default num_0_001 gasBuffer) s0
              = (r, s1) ∧
            calls s' = calls s1) as (s0 & r & s1 & Hflag & Hc0 & Hloop & Hc1).
  { subst s' n. unfold fundForward.
    cbv [bind get WalletManager.getWallets]. rewrite Hidle.
    destruct (Nat.ltb_spec (length (wallets s)) 2) as [|_]; [lia|].
    cbv [modify emit try_finally try_catch].
    match goal with
    | |- context [forward_loop ?l ?a ?g ?s0] =>
        destruct (forward_loop l a g s0) as [r s1] eqn:Hloop;
        exists s0, r, s1
    end.
    split_and!; [reflexivity | reflexivity | exact Hloop |].
    destruct r; reflexivity. }
  clearbody s' n.
  apply forward_loop_links in Hloop as [_ Hcases]; [|exact Hflag].
  rewrite Hc1, <- Hc0.
  destruct Hcases as [[_ Hc] | (k & e & Hk & _ & Hc)].
  - left. exact Hc.
  - right. exists k, e. split; [exact Hk | exact Hc].
Qed.
End ForwardLinks.

(** X26. When stop is not pressed, a forward cascade over [n] wallets
    attempts the links from wallet 1 to 2, from 2 to 3, and so on, in
    that order; when no transfer fails it attempts all [n - 1] of them. *)
Theorem fundForward_attempts_all_links {H : Host} amount gasBuffer s :
  (∀ k, stop_requested k = false) →
  fund_isRunning s = false → (2 ≤ length (wallets s))%nat →
  let s' := (CascadeFunding.fundForward amount gasBuffer s).2 in
  let new := drop (length (calls s)) (calls s') in
  (∀ i e, TransferFailed i e ∉ new) →
  new = (fun i => SimulateFunding i (i + 1)) <$> seq 0 (length (wallets s) - 1).
Proof.
  intros Hstop Hidle Hmany s' new Hclean. subst new s'.
  destruct (fundForward_links Hstop amount gasBuffer s Hidle Hmany)
    as [Hc | (k & e & _ & Hc)].
  - by rewrite Hc, drop_app_length.
  - exfalso. apply (Hclean k e). rewrite Hc, drop_app_length.
    apply elem_of_app. right. apply elem_of_cons. right. by left.
Qed.

Lemma fundForward_attempts_all_links_witness :
  let H := Example.host Example.half Example.never true in
  let s := set_wallets [Example.wallet 0 "1.000000" [];
                        Example.wallet 1 "0" []; Example.wallet 2 "0" []]
                       Example.ready in
  let s' := (CascadeFunding.fundForward (H:=H) 500000 None s).2 in
  let new := drop (length (calls s)) (calls s') in
  new = [SimulateFunding 0 1; SimulateFunding 1 2].
Proof.
  intros H s s' new.
  assert (new = [SimulateFunding 0 1; SimulateFunding 1 2]) as Hnew
    by (vm_compute; reflexivity).
  assert (∀ i e, TransferFailed i e ∉ new) as Hclean.
  { intros i e Hin. rewrite Hnew in Hin.
    apply elem_of_cons in Hin as [Hin | Hin]; [discriminate Hin|].
    apply elem_of_cons in Hin as [Hin | Hin]; [discriminate Hin|].
    by apply elem_of_nil in Hin. }
  assert (2 ≤ length (wallets s))%nat as Hmany by (vm_compute; lia).
  exact (fundForward_attempts_all_links (H:=H) 500000 None s
           (fun _ => eq_refl) eq_refl Hmany Hclean).
Defined.
